(** * Verification of the CI support scripts of moorl/github-actions

    Two Python scripts are embedded here:

    - [render_markdown_templates.py], the recursive Markdown template
      renderer ([{file:...}] includes, [{var:...}] substitution);
    - [moori_plugin_store_info.py], of which the media part of the
      [ShopwareClient] is modelled ([token], [search_media_by_name],
      [upload_media]).

    Text is [list ascii] (the bytes of the UTF-8 text; every character the
    two regular expressions inspect is ASCII).  Dictionaries are [gmap]s,
    the set of visited templates is a [gset].  The renderer runs in a small
    state-and-error monad: the state is the file store, the shared [seen]
    set and what was printed; an error is what [abort] or an uncaught
    exception reports before the process exits. *)

From stdpp Require Import gmap strings list fin_maps lexico sorting.
From Stdlib Require Import Ascii.

Open Scope char_scope.
Open Scope list_scope.

(** ** Text *)

Abbreviation text := (list ascii).

(** A string literal as text. *)
Definition txt (s : string) : text := String.list_ascii_of_string s.

Definition in_range (lo hi : nat) (c : ascii) : bool :=
  let n := nat_of_ascii c in (lo <=? n)%nat && (n <=? hi)%nat.

(** The character class [[a-zA-Z0-9_\-]] of [VAR_RE]. *)
Definition is_name_char (c : ascii) : bool :=
  in_range 97 122 c || in_range 65 90 c || in_range 48 57 c
  || Ascii.eqb c "_" || Ascii.eqb c "-".

(** What [str.strip()] removes, in the ASCII range: TAB, LF, VT, FF, CR,
    FS, GS, RS, US and the space. *)
Definition is_space (c : ascii) : bool :=
  in_range 9 13 c || in_range 28 32 c.

Fixpoint lstrip (s : text) : text :=
  match s with
  | c :: s' => if is_space c then lstrip s' else s
  | [] => []
  end.

(** [s.lstrip(ch)] for one character. *)
Fixpoint lstrip_char (ch : ascii) (s : text) : text :=
  match s with
  | c :: s' => if Ascii.eqb c ch then lstrip_char ch s' else s
  | [] => []
  end.

Definition rstrip (s : text) : text := rev (lstrip (rev s)).

(** [str.strip()] *)
Definition strip (s : text) : text := rstrip (lstrip s).

(** [str.lower()] on ASCII letters. *)
Definition lower_char (c : ascii) : ascii :=
  if in_range 65 90 c then ascii_of_nat (nat_of_ascii c + 32) else c.

Definition lower (s : text) : text := map lower_char s.

(** [s.startswith(pre)] together with the remainder [s[len(pre):]]. *)
Fixpoint strip_prefix (pre s : text) : option text :=
  match pre, s with
  | [], _ => Some s
  | a :: pre', b :: s' => if Ascii.eqb a b then strip_prefix pre' s' else None
  | _ :: _, [] => None
  end.

Definition startswith (pre s : text) : bool :=
  match strip_prefix pre s with Some _ => true | None => false end.

(** [sub in s] for a substring test. *)
Fixpoint contains (sub s : text) : bool :=
  startswith sub s ||
  match s with
  | [] => false
  | _ :: s' => contains sub s'
  end.

(** The longest prefix whose characters satisfy [p], and what follows. *)
Fixpoint span (p : ascii -> bool) (s : text) : text * text :=
  match s with
  | c :: s' =>
      if p c then let '(a, b) := span p s' in (c :: a, b) else ([], s)
  | [] => ([], [])
  end.

(** [s.split(sep)] for a one-character separator. *)
Fixpoint split_on (sep : ascii) (s : text) : list text :=
  match s with
  | [] => [[]]
  | c :: s' =>
      if Ascii.eqb c sep then [] :: split_on sep s'
      else match split_on sep s' with
           | w :: ws => (c :: w) :: ws
           | [] => [[c]]
           end
  end.

(** [s.replace(old, new)]: the occurrences of [old] are replaced from left
    to right and do not overlap.  [skip] counts the characters of the
    current occurrence still to be passed over.  ([old] is not empty in
    every use.) *)
Fixpoint replace_from (old new : text) (skip : nat) (s : text) : text :=
  match s with
  | [] => []
  | c :: s' =>
      match skip with
      | S n => replace_from old new n s'
      | O =>
          if startswith old s
          then new ++ replace_from old new (length old - 1) s'
          else c :: replace_from old new 0 s'
      end
  end.

Definition str_replace (old new s : text) : text := replace_from old new 0 s.

(** ** The two regular expressions *)

(** A matcher tells, for the text starting at the current position,
    whether the pattern matches there, and if so returns group 1 and the
    length of the whole match. *)
Definition matcher := text -> option (text * nat).

(** [INCLUDE_RE = \{file:([^\}]+)\}] at the start of [s].  The greedy group
    takes every character up to the first closing brace; giving characters
    back cannot help, as the character after a shorter group is not a
    closing brace. *)
Definition INCLUDE_RE : matcher := fun s =>
  match strip_prefix (txt "{file:") s with
  | Some rest =>
      match span (fun c => negb (Ascii.eqb c "}")) rest with
      | (c :: g, d :: _) =>
          if Ascii.eqb d "}" then Some (c :: g, 6 + length (c :: g) + 1)
          else None
      | _ => None
      end
  | None => None
  end.

(** [VAR_RE = \{var:([a-zA-Z0-9_\-]+)\}] at the start of [s]. *)
Definition VAR_RE : matcher := fun s =>
  match strip_prefix (txt "{var:") s with
  | Some rest =>
      match span is_name_char rest with
      | (c :: g, d :: _) =>
          if Ascii.eqb d "}" then Some (c :: g, 5 + length (c :: g) + 1)
          else None
      | _ => None
      end
  | None => None
  end.

(** The pieces [re.sub] walks over: a character outside every match, which
    is copied, or a match, for which the callback is called with group 1. *)
Inductive token :=
| TLit (c : ascii)
| TMatch (group : text).

(** Leftmost, non-overlapping matches, scanning from left to right. *)
Fixpoint scan_from (re : matcher) (skip : nat) (s : text) : list token :=
  match s with
  | [] => []
  | c :: s' =>
      match skip with
      | S n => scan_from re n s'
      | O =>
          match re s with
          | Some (g, len) => TMatch g :: scan_from re (len - 1) s'
          | None => TLit c :: scan_from re 0 s'
          end
      end
  end.

Definition scan (re : matcher) (s : text) : list token := scan_from re 0 s.

(** ** Paths (pathlib, POSIX flavour) *)

Record Path := mkPath { is_abs : bool; parts : list text }.

#[global] Instance Path_eq_dec : EqDecision Path.
Proof. solve_decision. Defined.

Definition dot : text := txt ".".
Definition dotdot : text := txt "..".

Definition is_empty_or_dot (c : text) : bool :=
  bool_decide (c = []) || bool_decide (c = dot).

(** [pathlib.Path(s)]: the components between slashes; empty components
    and single dots are dropped when the path is built, [..] is kept. *)
Definition parse_path (s : text) : Path :=
  {| is_abs := startswith (txt "/") s;
     parts := filter (fun c => is_empty_or_dot c = false) (split_on "/" s) |}.

(** [base / rel]: an absolute right operand replaces the left one. *)
Definition joinpath (base : Path) (rel : text) : Path :=
  let r := parse_path rel in
  if is_abs r then r
  else {| is_abs := is_abs base; parts := parts base ++ parts r |}.

(** [p.parent] *)
Definition parent (p : Path) : Path :=
  {| is_abs := is_abs p; parts := removelast (parts p) |}.

(** [p.name] *)
Definition name (p : Path) : text := default [] (last (parts p)).

(** [p.suffix]: from the last dot of the name on, unless that dot is the
    first or the last character of the name. *)
Fixpoint last_dot_from (pos : nat) (s : text) : option nat :=
  match s with
  | [] => None
  | c :: s' =>
      match last_dot_from (S pos) s' with
      | Some i => Some i
      | None => if Ascii.eqb c "." then Some pos else None
      end
  end.

Definition name_suffix (nm : text) : text :=
  match last_dot_from 0 nm with
  | Some i =>
      if ((0 <? i)%nat && (i <? length nm - 1)%nat)%bool then drop i nm else []
  | None => []
  end.

Definition suffix (p : Path) : text := name_suffix (name p).

(** [p.stem] *)
Definition name_stem (nm : text) : text :=
  take (length nm - length (name_suffix nm)) nm.

Definition stem (p : Path) : text := name_stem (name p).

(** One component of [os.path.realpath] on a store without symbolic
    links; [stk] is the canonical path so far, innermost component
    first. *)
Definition resolve_step (stk : list text) (c : text) : list text :=
  if bool_decide (c = dotdot) then tail stk
  else if is_empty_or_dot c then stk
  else c :: stk.

Definition normalise (cs : list text) : list text :=
  rev (fold_left resolve_step cs []).

(** [p.resolve()]: an absolute, normalised path; a relative path is taken
    from the working directory [cwd]. *)
Definition resolve (cwd : list text) (p : Path) : Path :=
  {| is_abs := true;
     parts := normalise (if is_abs p then parts p else cwd ++ parts p) |}.

(** [str(p.resolve())] as the identity of a file: the list of components
    of the canonical path (no component holds a slash, so the list
    determines the string). *)
Definition canonical (cwd : list text) (p : Path) : list text :=
  parts (resolve cwd p).

(** [p.relative_to(base)] for an absolute [base]: the components after
    [base], or nothing ([ValueError]) when [p] does not start with it. *)
Fixpoint strip_parts (base ps : list text) : option (list text) :=
  match base, ps with
  | [], _ => Some ps
  | a :: base', b :: ps' =>
      if bool_decide (a = b) then strip_parts base' ps' else None
  | _ :: _, [] => None
  end.

Definition relative_to (p : Path) (base : list text) : option (list text) :=
  if is_abs p then strip_parts base (parts p) else None.

(** ** State, errors and the monad of the renderer *)

Inductive error :=
| DepthExceeded (max_depth : nat) (p : Path)
    (* abort: Include-Tiefe ueberschritten (> max_depth) in p *)
| CyclicInclude (p : Path)
    (* abort: Zyklischer Include erkannt bei p *)
| FileNotFound (p : Path)
    (* abort: Datei nicht gefunden: p *)
| UndefinedVariable (k : text) (p : Path)
    (* abort: Variable 'k' nicht definiert (in p) *)
| InvalidName (nm : text)
    (* ValueError raised by with_name *)
| NotRelative (p : Path)
    (* ValueError raised by relative_to *)
| InvalidVarFormat (arg : text)
    (* abort: Ungueltiges --var Format: arg (erwartet key=value) *)
| VarsFileNotFound (vf : text)
    (* abort: Vars-Datei nicht gefunden: vf *)
| VarsFileSuffix
    (* abort: Vars-Datei muss .json oder .yaml sein *)
| VarsFileNotMapping
    (* abort: Vars-Datei muss ein Mapping enthalten *)
| OutOfFuel.

Inductive result (A : Type) :=
| Ok (a : A)
| Err (e : error).
Arguments Ok {A} a.
Arguments Err {A} e.

(** The store maps the canonical path of a regular file to its content
    (directories are implicit, there are no symbolic links).  [seen] is the
    one set object alive during a top-level [render_template] call, which
    every nested call receives by reference.  [stdout] lists, oldest
    first, the relative paths of the "wrote:" lines. *)
Record state := mkState {
  fs : gmap (list text) text;
  seen : gset (list text);
  stdout : list (list text)
}.

Definition M (A : Type) : Type := state -> result A * state.

Definition ret {A} (a : A) : M A := fun st => (Ok a, st).

Definition bind {A B} (m : M A) (f : A -> M B) : M B := fun st =>
  match m st with
  | (Ok a, st') => f a st'
  | (Err e, st') => (Err e, st')
  end.

(** [abort(msg)]: the message is printed and the process exits. *)
Definition abort {A} (e : error) : M A := fun st => (Err e, st).

Notation "'let*' x ':=' m 'in' k" := (bind m (fun x => k))
  (at level 10, x name, m at level 100, k at level 200).
Notation "'do' m 'then' k" := (bind m (fun _ => k))
  (at level 10, m at level 100, k at level 200).

(** [re.sub(repl, s)] over the scanned pieces: the callback runs once per
    match, from left to right, and the results are joined with the
    characters in between. *)
Fixpoint sub_tokens (repl : text -> M text) (ts : list token) : M text :=
  match ts with
  | [] => ret []
  | TLit c :: ts' => let* r := sub_tokens repl ts' in ret (c :: r)
  | TMatch g :: ts' =>
      let* x := repl g in let* r := sub_tokens repl ts' in ret (x ++ r)
  end.

Definition re_sub (re : matcher) (repl : text -> M text) (s : text) : M text :=
  sub_tokens repl (scan re s).

(** ** The renderer *)

Definition tpl_marker : text := txt ".tpl.".

(** [p.with_name(nm)]: [ValueError] when [p] has no name or [nm] is not a
    single component. *)
Definition with_name (p : Path) (nm : text) : result Path :=
  if bool_decide (name p = []) || bool_decide (nm = []) || bool_decide (nm = dot)
     || contains (txt "/") nm
  then Err (InvalidName nm)
  else Ok {| is_abs := is_abs p; parts := removelast (parts p) ++ [nm] |}.

Definition lift {A} (r : result A) : M A := fun st => (r, st).

Section Renderer.

(** The working directory of the process (a canonical path), the
    snippets directory and the merged variables. *)
Variable cwd : list text.
Variable snippets_dir : Path.
Variable variables : gmap text text.

Definition read_text (p : Path) : M text := fun st =>
  match fs st !! canonical cwd p with
  | Some content => (Ok content, st)
  | None => (Err (FileNotFound p), st)
  end.

Definition write_text (p : Path) (content : text) : M unit := fun st =>
  (Ok tt, {| fs := <[canonical cwd p := content]> (fs st);
             seen := seen st; stdout := stdout st |}).

(** [print(f"[render-md] wrote: {out_path.relative_to(pathlib.Path.cwd())}")] *)
Definition print_wrote (out_path : Path) : M unit := fun st =>
  match relative_to out_path cwd with
  | Some rel =>
      (Ok tt, {| fs := fs st; seen := seen st; stdout := stdout st ++ [rel] |})
  | None => (Err (NotRelative out_path), st)
  end.

Definition resolve_include_path (current_tpl : Path) (rel : text)
    (snippets_dir : Path) : Path :=
  let rel := strip rel in
  match strip_prefix (txt "snippets/") rel with
  | Some rest => resolve cwd (joinpath snippets_dir rest)
  | None => resolve cwd (joinpath (parent current_tpl) rel)
  end.

(** [seen is None]: a fresh empty set replaces the set of the state;
    otherwise the caller's set stays as it is. *)
Definition init_seen (seen_arg : option unit) : M unit := fun st =>
  match seen_arg with
  | None => (Ok tt, {| fs := fs st; seen := ∅; stdout := stdout st |})
  | Some _ => (Ok tt, st)
  end.

Definition check_and_add_seen (template_path : Path) : M unit := fun st =>
  let key := canonical cwd template_path in
  if bool_decide (key ∈ seen st) then (Err (CyclicInclude template_path), st)
  else (Ok tt, {| fs := fs st; seen := {[key]} ∪ seen st; stdout := stdout st |}).

Definition _include_repl (render : Path -> Path -> nat -> M unit)
    (template_path : Path) (depth : nat) (group : text) : M text :=
  let rel := strip group in
  let inc_path := resolve_include_path template_path rel snippets_dir in
  if contains tpl_marker (name inc_path) then
    let* tmp_out :=
      lift (with_name inc_path
              (str_replace tpl_marker (txt ".") (name inc_path))) in
    do render inc_path tmp_out (depth + 1) then
    read_text tmp_out
  else read_text inc_path.

Definition _var_repl (template_path : Path) (group : text) : M text :=
  let k := strip group in
  match variables !! k with
  | Some v => ret v
  | None => abort (UndefinedVariable k template_path)
  end.

(** [INCLUDE_RE.sub(_include_repl, source)] *)
Definition expand_includes (render : Path -> Path -> nat -> M unit)
    (template_path : Path) (depth : nat) (source : text) : M text :=
  re_sub INCLUDE_RE (_include_repl render template_path depth) source.

(** [VAR_RE.sub(_var_repl, rendered)] *)
Definition substitute_variables (template_path : Path) (rendered : text)
    : M text :=
  re_sub VAR_RE (_var_repl template_path) rendered.

(** [render_template]; [seen_arg] is [None] for a call that leaves the
    argument out and [Some tt] for a nested call passing its set on.
    Every nested call is one level deeper, and no call goes below level
    [max_depth + 1], so [max_depth + 2] units of [fuel] are enough for a
    top-level call (lemma [render_template_fuel]). *)
Fixpoint render_template (fuel : nat) (template_path out_path : Path)
    (seen_arg : option unit) (depth max_depth : nat) : M unit :=
  match fuel with
  | O => abort OutOfFuel
  | S fuel' =>
      if (max_depth <? depth)%nat
      then abort (DepthExceeded max_depth template_path)
      else
        do init_seen seen_arg then
        do check_and_add_seen template_path then
        let* source := read_text template_path in
        let* rendered :=
          expand_includes
            (fun p o d => render_template fuel' p o (Some tt) d max_depth)
            template_path depth source in
        let* rendered := substitute_variables template_path rendered in
        do write_text out_path rendered then
        print_wrote out_path
  end.

(** The part of [render_template] before the variables are substituted:
    the text of the document with its includes expanded. *)
Definition render_includes (fuel : nat) (template_path : Path)
    (seen_arg : option unit) (depth max_depth : nat) : M text :=
  do init_seen seen_arg then
  do check_and_add_seen template_path then
  let* source := read_text template_path in
  expand_includes
    (fun p o d => render_template fuel p o (Some tt) d max_depth)
    template_path depth source.

(** The loop of [main] over the templates found; [max_depth] keeps its
    default. *)
Definition default_max_depth : nat := 20.

Definition render_top (tpl : Path) : M unit :=
  let* out :=
    lift (with_name tpl (str_replace tpl_marker (txt ".") (name tpl))) in
  render_template (default_max_depth + 2) tpl out None 0 default_max_depth.

Fixpoint main_loop (templates : list Path) : M unit :=
  match templates with
  | [] => ret tt
  | tpl :: rest => do render_top tpl then main_loop rest
  end.

End Renderer.

(** ** Template discovery: the filter of [find_templates] *)

(** [".tpl." in p.name and p.suffix.lower() == ".md"] *)
Definition is_template (p : Path) : bool :=
  contains tpl_marker (name p) && bool_decide (lower (suffix p) = txt ".md").

(** The order of paths, as [sorted] uses it: component by component, a
    component before another as strings are ordered, character code by
    character code.  (The paths [find_templates] sorts all come out of
    [resolve] and are absolute.) *)
Definition path_key (p : Path) : bool * list (list nat) :=
  (is_abs p, map (map nat_of_ascii) (parts p)).

Definition path_lt (p q : Path) : Prop := lexico (path_key p) (path_key q).

Definition path_le (p q : Path) : Prop := p = q ∨ path_lt p q.

#[global] Instance path_le_dec : RelDecision path_le.
Proof. intros p q. unfold path_le, path_lt. apply _. Defined.

(** The last two lines of [find_templates]: of the files the patterns
    gave ([found], resolved, in the order they were met, possibly more
    than once) the templates, as a sorted list without duplicates. *)
Definition find_templates (found : list Path) : list Path :=
  merge_sort path_le
    (remove_dups (filter (fun p => is_template p = true) found)).

(** ** Variable mapping assembly *)

(** What the parser of the variables file returned, as far as [load_vars]
    looks at it: a mapping, given by its items after [str(k)] and [str(v)]
    in the order of the mapping; a value that is no mapping and counts as
    false ([None], [0], an empty list or string); any other value. *)
Inductive pyval :=
| PyDict (items : list (text * text))
| PyFalsy
| PyOther.

(** The [--vars-file] argument with what the file system and the parser
    give for it. *)
Record VarsFile := mkVarsFile {
  vf_path : text;
  vf_exists : bool;
  vf_parsed : pyval
}.

(** [k, v = arg.split("=", 1)], or nothing when there is no ["="]. *)
Fixpoint split_once (sep : ascii) (s : text) : option (text * text) :=
  match s with
  | [] => None
  | c :: s' =>
      if Ascii.eqb c sep then Some ([], s')
      else match split_once sep s' with
           | Some (k, v) => Some (c :: k, v)
           | None => None
           end
  end.

(** The loop of [load_vars] over the [--var] arguments. *)
Fixpoint load_var_args (var_args : list text) (acc : gmap text text)
    : result (gmap text text) :=
  match var_args with
  | [] => Ok acc
  | arg :: rest =>
      match split_once "=" arg with
      | None => Err (InvalidVarFormat arg)
      | Some (k, v) => load_var_args rest (<[k := v]> acc)
      end
  end.

(** [{str(k): str(v) for k, v in extra.items()}]: a later item replaces an
    earlier one with the same key. *)
Definition dict_of_items (items : list (text * text)) : gmap text text :=
  foldl (fun m kv => <[kv.1 := kv.2]> m) ∅ items.

(** [d.update(other)] *)
Definition dict_update (d other : gmap text text) : gmap text text :=
  other ∪ d.

Definition load_vars (var_args : list text) (vars_file : option VarsFile)
    : result (gmap text text) :=
  match load_var_args var_args ∅ with
  | Err e => Err e
  | Ok acc =>
      match vars_file with
      | None => Ok acc
      | Some vf =>
          if bool_decide (vf_path vf = []) then Ok acc
          else if negb (vf_exists vf) then Err (VarsFileNotFound (vf_path vf))
          else
            let sfx := lower (suffix (parse_path (vf_path vf))) in
            let extra :=
              if bool_decide (sfx = txt ".yaml") || bool_decide (sfx = txt ".yml")
              then Ok (match vf_parsed vf with
                       | PyFalsy => PyDict []
                       | v => v
                       end)
              else if bool_decide (sfx = txt ".json") then Ok (vf_parsed vf)
              else Err VarsFileSuffix in
            match extra with
            | Err e => Err e
            | Ok (PyDict items) => Ok (dict_update acc (dict_of_items items))
            | Ok _ => Err VarsFileNotMapping
            end
      end
  end.

(** [os.environ.get(key, "")] *)
Definition env_get (env : gmap text text) (key : text) : text :=
  default [] (env !! key).

Definition derive_repo_name (env : gmap text text) : text :=
  let gh_repo := env_get env (txt "GITHUB_REPOSITORY") in
  if contains (txt "/") gh_repo
  then default [] (last (split_on "/" gh_repo))
  else if bool_decide (gh_repo = []) then txt "unknown-repo" else gh_repo.

Definition derive_branch_name (env : gmap text text) : text :=
  env_get env (txt "GITHUB_REF_NAME").

(** [composer_version] is the value under ["version"] of [composer.json]
    when the file exists, parses and holds a string there. *)
Definition derive_version (composer_version : option text) : text :=
  match composer_version with
  | Some v => strip v
  | None => []
  end.

(** [d.setdefault(k, v)] *)
Definition setdefault (k v : text) (d : gmap text text) : gmap text text :=
  match d !! k with
  | Some _ => d
  | None => <[k := v]> d
  end.

Definition merge_vars (user_vars : gmap text text) (env : gmap text text)
    (composer_version : option text) : gmap text text :=
  let merged := user_vars in
  let merged := setdefault (txt "repo_name") (derive_repo_name env) merged in
  let merged := setdefault (txt "branch_name") (derive_branch_name env) merged in
  let merged := setdefault (txt "version") (derive_version composer_version) merged in
  merged.

(** ** The media part of the Shopware client *)

Module Shopware.

(** The HTTP calls [upload_media] can make.  Each carries the bearer
    token it was sent with. *)
Inductive request :=
| ReqToken (client_id client_secret : text)
    (* POST /api/oauth/token *)
| ReqSearchMedia (token file_name file_extension : text)
    (* POST /api/search/media, both filters, limit 1 *)
| ReqCreateMedia (token media_id : text)
    (* POST /api/media?_response=true with {"id": media_id} *)
| ReqUpload (token media_id extension file_name mime : text)
    (size : nat) (body : text).
    (* POST /api/_action/media/{media_id}/upload?extension=..&fileName=.. *)

(** What the client reads of a response: the status, the body as text,
    [json()["access_token"]] and the [id]s of [json().get("data", [])]. *)
Record response := mkResponse {
  status_code : nat;
  resp_text : text;
  access_token : text;
  data_ids : list text
}.

Inductive sw_error :=
| OAuthFailed (status : nat)
| MediaSearchFailed (status : nat)
| EmptyFile (p : Path)
| ReplaceUploadFailed (status : nat)
| MediaCreateFailed (status : nat)
| UploadRetryFailed (status : nat)
| UploadFailed (status : nat)
| ImageNotFound (file : text).

(** The image on disk: its path, its bytes and what
    [mimetypes.guess_type] says for the path. *)
Record image := mkImage {
  file_path : Path;
  content : text;
  guessed_mime : option text
}.

Section Client.

(** The remote system: any state type with any reaction to a
    request. *)
Variable server : Type.
Variable handle : request -> server -> response * server.

(** The client object ([self]), the remote system, and every exchange
    so far, oldest first. *)
Record world := mkWorld {
  base : text;
  client_id : text;
  client_secret : text;
  _token : option text;
  remote : server;
  exchanges : list (request * response)
}.

Definition C (A : Type) : Type := world -> (sw_error + A) * world.

Definition cret {A} (a : A) : C A := fun w => (inr a, w).
Definition cabort {A} (e : sw_error) : C A := fun w => (inl e, w).
Definition cbind {A B} (m : C A) (f : A -> C B) : C B := fun w =>
  match m w with
  | (inr a, w') => f a w'
  | (inl e, w') => (inl e, w')
  end.

(** [self.session.post(...)] *)
Definition post (rq : request) : C response := fun w =>
  let '(rs, srv') := handle rq (remote w) in
  (inr rs, {| base := base w; client_id := client_id w;
              client_secret := client_secret w; _token := _token w;
              remote := srv'; exchanges := exchanges w ++ [(rq, rs)] |}).

Definition set_token (t : text) : C unit := fun w =>
  (inr tt, {| base := base w; client_id := client_id w;
              client_secret := client_secret w; _token := Some t;
              remote := remote w; exchanges := exchanges w |}).

(** [if x:] for an optional string: neither [None] nor empty. *)
Definition truthy (x : option text) : bool :=
  match x with
  | Some (_ :: _) => true
  | _ => false
  end.

Definition token : C text := fun w =>
  if truthy (_token w) then (inr (default [] (_token w)), w)
  else
    cbind (post (ReqToken (client_id w) (client_secret w))) (fun resp =>
      if bool_decide (status_code resp = 200) then
        cbind (set_token (access_token resp)) (fun _ =>
          cret (access_token resp))
      else cabort (OAuthFailed (status_code resp))) w.

Definition search_media_by_name (file_stem ext : text) : C (option text) :=
  cbind token (fun tok =>
  cbind (post (ReqSearchMedia tok file_stem (lower ext))) (fun r =>
    if bool_decide (status_code r = 200)
    then cret (head (data_ids r))
    else cabort (MediaSearchFailed (status_code r)))).

Definition duplicate_code : text :=
  txt "CONTENT__MEDIA_DUPLICATED_FILE_NAME".

(** [(file_path.suffix.lstrip(".") or "png").lower()] *)
Definition media_ext (p : Path) : text :=
  let e := lstrip_char "." (suffix p) in
  lower (if bool_decide (e = []) then txt "png" else e).

(** [f"{repo_name}__{base_stem}"] *)
Definition media_file_stem (p : Path) (repo_name : text) : text :=
  repo_name ++ txt "__" ++ stem p.

Definition is_in (n : nat) (l : list nat) : bool := bool_decide (n ∈ l).

(** [upload_media]; [fresh_id] is what [uuid4().hex] returns when it is
    called. *)
Definition upload_media (img : image) (repo_name : text) (fresh_id : text)
    : C text :=
  let ext := media_ext (file_path img) in
  let file_stem := media_file_stem (file_path img) repo_name in
  let mime := default (txt "application/octet-stream") (guessed_mime img) in
  let size := length (content img) in
  if bool_decide (size = 0) then cabort (EmptyFile (file_path img))
  else
    cbind (search_media_by_name file_stem ext) (fun existing_id =>
    if truthy existing_id then
      let existing_id := default [] existing_id in
      cbind token (fun tok =>
      cbind (post (ReqUpload tok existing_id ext file_stem mime size
                     (content img))) (fun r =>
        if is_in (status_code r) [200; 204] then cret existing_id
        else cabort (ReplaceUploadFailed (status_code r))))
    else
      let media_id := fresh_id in
      cbind token (fun tok =>
      cbind (post (ReqCreateMedia tok media_id)) (fun r1 =>
        if negb (is_in (status_code r1) [200; 201])
        then cabort (MediaCreateFailed (status_code r1))
        else
          cbind token (fun tok =>
          cbind (post (ReqUpload tok media_id ext file_stem mime size
                         (content img))) (fun r2 =>
            if is_in (status_code r2) [200; 204] then cret media_id
            else if is_in (status_code r2) [400; 409]
                    && contains duplicate_code (resp_text r2)
            then
              let alt_stem := file_stem ++ txt "-" ++ take 8 media_id in
              cbind token (fun tok =>
              cbind (post (ReqUpload tok media_id ext alt_stem mime size
                             (content img))) (fun r_retry =>
                if is_in (status_code r_retry) [200; 204]
                then cret media_id
                else cabort (UploadRetryFailed (status_code r_retry))))
            else cabort (UploadFailed (status_code r2))))))).

(** An entry of [images] in the manifest: the value under ["file"], the
    image on disk at that path when a file exists there, and what stands
    under ["preview"]: the truth values of a mapping (none when the key is
    missing), or nothing when the value is no mapping. *)
Record image_entry := mkEntry {
  entry_file : option text;
  entry_image : option image;
  entry_preview : option (list bool)
}.

Definition is_preview_for_any_locale (img : image_entry) : bool :=
  match entry_preview img with
  | Some flags => existsb (fun b => b) flags
  | None => false
  end.

(** The loop of [main] over the images.  [fresh_ids] gives, for each call
    of [upload_media] in turn, what [uuid4().hex] returns in it. *)
Fixpoint upload_images (images : list image_entry) (fresh_ids : list text)
    (repo_name : text) (media_ids : list (text * nat))
    (cover_media_id : option text) (position : nat)
    : C (list (text * nat) * option text) :=
  match images with
  | [] => cret (media_ids, cover_media_id)
  | img :: rest =>
      if negb (truthy (entry_file img))
      then upload_images rest fresh_ids repo_name media_ids cover_media_id
             position
      else
        match entry_image img with
        | None => cabort (ImageNotFound (default [] (entry_file img)))
        | Some fp =>
            cbind (upload_media fp repo_name (default [] (head fresh_ids)))
              (fun mid =>
                 upload_images rest (tail fresh_ids) repo_name
                   (media_ids ++ [(mid, position)])
                   (if is_preview_for_any_locale img then Some mid
                    else cover_media_id)
                   (position + 1))
        end
  end.

End Client.

End Shopware.

(** * Notions used in the statements *)

#[global] Instance token_eq_dec : EqDecision token.
Proof. solve_decision. Defined.

(** The groups of the matches of a pattern, in the order of the text. *)
Definition groups (re : matcher) (s : text) : list text :=
  omap (fun t => match t with TMatch g => Some g | TLit _ => None end) (scan re s).

(** The names of the variable markers of a text. *)
Definition var_markers (s : text) : list text := groups VAR_RE s.

(** [st'] is [st] after some writes and some printed lines. *)
Definition extends (st st' : state) : Prop :=
  (∀ k, is_Some (fs st !! k) → is_Some (fs st' !! k))
  ∧ ∃ l, stdout st' = stdout st ++ l.

(** Two states that hold the same files and have printed the same lines
    since two runs started, of which [o1] and [o2] tell what was printed
    before. *)
Definition sim_files (o1 o2 : list (list text)) (st1 st2 : state) : Prop :=
  fs st1 = fs st2 ∧ ∃ l, stdout st1 = o1 ++ l ∧ stdout st2 = o2 ++ l.

(** The same, with the same [seen] set. *)
Definition sim (o1 o2 : list (list text)) (st1 st2 : state) : Prop :=
  sim_files o1 o2 st1 st2 ∧ seen st1 = seen st2.

(** A call that gets no [seen] set does not look at the one left over by
    an earlier call. *)
Definition pre_sim (o1 o2 : list (list text)) (seen_arg : option unit)
    : state → state → Prop :=
  match seen_arg with None => sim_files o1 o2 | Some _ => sim o1 o2 end.

(** Run from related states, [m] gives the same result and related
    states. *)
Definition respects {A} (P Q : state → state → Prop) (m : M A) : Prop :=
  ∀ st1 st2, P st1 st2 → (m st1).1 = (m st2).1 ∧ Q (m st1).2 (m st2).2.

(** A text without include marker and without variable marker. *)
Definition plain (s : text) : bool :=
  bool_decide (scan INCLUDE_RE s = map TLit s)
  && bool_decide (scan VAR_RE s = map TLit s).

(** The path of the include marker of a document that consists of one
    include marker and nothing else. *)
Definition single_include (src : text) : option text :=
  match scan INCLUDE_RE src with
  | [TMatch rel] => Some rel
  | _ => None
  end.

(** The output path of an included template can be derived and lies
    under the working directory. *)
Definition output_ok (cwd : list text) (q : Path) : bool :=
  match with_name q (str_replace tpl_marker (txt ".") (name q)) with
  | Ok o => bool_decide (is_Some (relative_to o cwd))
  | Err _ => false
  end.

(** [p :: rest] is a chain of nested template includes over [files]: each
    document but the last consists of one include marker that resolves to
    the next one, a template; the last one is the plain text [leaf]. *)
Fixpoint include_chain (cwd : list text) (snippets_dir : Path)
    (files : gmap (list text) text) (p : Path)
    (rest : list Path) (leaf : text) : bool :=
  match rest with
  | [] => bool_decide (files !! canonical cwd p = Some leaf) && plain leaf
  | q :: rest' =>
      match files !! canonical cwd p with
      | Some src =>
          match single_include src with
          | Some rel =>
              bool_decide (resolve_include_path cwd p (strip rel) snippets_dir = q)
              && contains tpl_marker (name q)
              && output_ok cwd q
              && include_chain cwd snippets_dir files q rest' leaf
          | None => false
          end
      | None => false
      end
  end.

(** The [seen] set a call starts from. *)
Definition seen_after (sa : option unit) (st : state) : gset (list text) :=
  match sa with None => ∅ | Some _ => seen st end.

(** A component that names a directory entry. *)
Definition is_real (c : text) : bool :=
  negb (is_empty_or_dot c) && negb (bool_decide (c = dotdot)).

(** The components of a path counted from the root. *)
Definition from_root (cwd : list text) (p : Path) : list text :=
  if is_abs p then parts p else cwd ++ parts p.

(** The path an include marker names, before it is resolved. *)
Definition include_target (current_tpl : Path) (rel : text) (snippets_dir : Path)
    : Path :=
  match strip_prefix (txt "snippets/") (strip rel) with
  | Some rest => joinpath snippets_dir rest
  | None => joinpath (parent current_tpl) (strip rel)
  end.

(** Two spellings of a path from the root lead to the same place: the
    least equivalence that drops an empty component or a single dot, a
    directory entry followed by [..], and a [..] at the root. *)
Inductive same_place : list text → list text → Prop :=
| sp_refl l : same_place l l
| sp_sym l1 l2 : same_place l1 l2 → same_place l2 l1
| sp_trans l1 l2 l3 : same_place l1 l2 → same_place l2 l3 → same_place l1 l3
| sp_dot pre c post :
    is_empty_or_dot c = true → same_place (pre ++ c :: post) (pre ++ post)
| sp_up pre d post :
    is_real d = true → same_place (pre ++ d :: dotdot :: post) (pre ++ post)
| sp_root_up post : same_place (dotdot :: post) post.

(** The value the command line gives for [k]: that of the last [--var]
    argument [k=v]. *)
Fixpoint cli_value (var_args : list text) (k : text) : option text :=
  match var_args with
  | [] => None
  | arg :: rest =>
      match cli_value rest k with
      | Some v => Some v
      | None =>
          match split_once "=" arg with
          | Some (k', v) => if bool_decide (k' = k) then Some v else None
          | None => None
          end
      end
  end.

(** The value the items of the variables file give for [k]: that of the
    last item with this key. *)
Fixpoint file_value (items : list (text * text)) (k : text) : option text :=
  match items with
  | [] => None
  | (k', v) :: rest =>
      match file_value rest k with
      | Some v' => Some v'
      | None => if bool_decide (k' = k) then Some v else None
      end
  end.

(** The items of the variables file that [load_vars] merges. *)
Definition file_items (vars_file : option VarsFile) : list (text * text) :=
  match vars_file with
  | Some vf =>
      if bool_decide (vf_path vf = []) then []
      else match vf_parsed vf with PyDict items => items | _ => [] end
  | None => []
  end.

(** The computed defaults. *)
Definition computed_default (env : gmap text text)
    (composer_version : option text) (k : text) : option text :=
  if bool_decide (k = txt "version") then Some (derive_version composer_version)
  else if bool_decide (k = txt "branch_name") then Some (derive_branch_name env)
  else if bool_decide (k = txt "repo_name") then Some (derive_repo_name env)
  else None.

(** The claim of the specification on precedence, as it is stated: the
    command line wins over the variables file. *)
Definition cli_overrides_file : Prop :=
  ∀ var_args vars_file user_vars env composer_version k v,
    load_vars var_args vars_file = Ok user_vars →
    cli_value var_args k = Some v →
    merge_vars user_vars env composer_version !! k = Some v.

(** [w'] is [w] after the exchanges [new]. *)
Definition after {server} (w : Shopware.world server)
    (new : list (Shopware.request * Shopware.response))
    (w' : Shopware.world server) : Prop :=
  Shopware.exchanges server w' = Shopware.exchanges server w ++ new.

Definition is_token_request (x : Shopware.request * Shopware.response) : Prop :=
  ∃ a b, x.1 = Shopware.ReqToken a b.

(** An exchange of the branch that creates a record: a token request, the
    creation of [fresh_id] or an upload to [fresh_id]. *)
Definition of_new_record (fresh_id : text)
    (x : Shopware.request * Shopware.response) : Prop :=
  (∃ a b, x.1 = Shopware.ReqToken a b)
  ∨ (∃ t, x.1 = Shopware.ReqCreateMedia t fresh_id)
  ∨ (∃ t e f m s b, x.1 = Shopware.ReqUpload t fresh_id e f m s b).

(** The text a piece of a scanned document stands for, for a pattern
    whose matches read [opening ++ group ++ "}"]. *)
Definition untoken (opening : text) (t : token) : text :=
  match t with
  | TLit c => [c]
  | TMatch g => opening ++ g ++ txt "}"
  end.


(** The state right after a call has entered a document: the document is
    in the [seen] set, nothing else has changed. *)
Definition entered (cwd : list text) (tp : Path) (sa : option unit) (st : state)
    : state :=
  mkState (fs st) ({[canonical cwd tp]} ∪ seen_after sa st) (stdout st).

(** The [seen] set has not lost a path. *)
Definition seen_grows (st st' : state) : Prop := seen st ⊆ seen st'.


(** [p :: rest] is a loop of template includes over [files] that leads
    back to [back]: each document consists of one include marker that
    resolves to a template, the next document of the list, and the last
    one to [back]. *)
Fixpoint include_loop (cwd : list text) (snippets_dir : Path)
    (files : gmap (list text) text) (p : Path) (rest : list Path) (back : Path)
    : bool :=
  match files !! canonical cwd p with
  | Some src =>
      match single_include src with
      | Some rel =>
          let q := resolve_include_path cwd p (strip rel) snippets_dir in
          contains tpl_marker (name q)
          && match with_name q (str_replace tpl_marker (txt ".") (name q)) with
             | Ok _ => true
             | Err _ => false
             end
          && match rest with
             | [] => bool_decide (q = back)
             | r :: rest' =>
                 bool_decide (q = r)
                 && include_loop cwd snippets_dir files r rest' back
             end
      | None => false
      end
  | None => false
  end.


(** An exchange that uploads a file. *)
Definition is_upload (x : Shopware.request * Shopware.response) : bool :=
  match x.1 with
  | Shopware.ReqUpload _ _ _ _ _ _ _ => true
  | _ => false
  end.


(** The entries of the manifest that name a file. *)
Definition with_file (images : list Shopware.image_entry)
    : list Shopware.image_entry :=
  filter (fun img => Shopware.truthy (Shopware.entry_file img) = true) images.

(** The identifier of the last uploaded image that is flagged as
    preview. *)
Definition last_preview (ids : list text) (uploaded : list Shopware.image_entry)
    : option text :=
  fst <$> last (filter (fun x => Shopware.is_preview_for_any_locale x.2 = true)
                  (zip ids uploaded)).


(** * A small repository to run the renderer on *)

Module Demo.

Definition cwd : list text := [txt "repo"].
Definition snippets_dir : Path := mkPath true [txt "repo"; txt "snippets"].
Definition at_repo (nm : string) : Path := mkPath true [txt "repo"; txt nm].

Definition start (files : gmap (list text) text) : state :=
  mkState files ∅ [].

(** The example of the specification. *)
Definition hello_files : gmap (list text) text :=
  {[ [txt "repo"; txt "a.tpl.md"] :=
       txt "Hello {var:name}, see {file:snippets/b.md}";
     [txt "repo"; txt "snippets"; txt "b.md"] := txt "World" ]}.

Definition hello_vars : gmap text text := {[ txt "name" := txt "Ada" ]}.

(** One template included twice by the same document. *)
Definition twice_files : gmap (list text) text :=
  {[ [txt "repo"; txt "a.tpl.md"] := txt "{file:b.tpl.md} and {file:b.tpl.md}";
     [txt "repo"; txt "b.tpl.md"] := txt "x" ]}.

(** The same document with one include only. *)
Definition once_files : gmap (list text) text :=
  {[ [txt "repo"; txt "a.tpl.md"] := txt "{file:b.tpl.md}";
     [txt "repo"; txt "b.tpl.md"] := txt "x" ]}.

(** A chain: [t0] includes [t1], [t1] includes [t2], [t2] includes [t3]. *)
Definition chain_files : gmap (list text) text :=
  {[ [txt "repo"; txt "t0.tpl.md"] := txt "{file:t1.tpl.md}";
     [txt "repo"; txt "t1.tpl.md"] := txt "{file:t2.tpl.md}";
     [txt "repo"; txt "t2.tpl.md"] := txt "{file:t3.tpl.md}";
     [txt "repo"; txt "t3.tpl.md"] := txt "end" ]}.

(** A document with a variable nobody defines. *)
Definition undefined_files : gmap (list text) text :=
  {[ [txt "repo"; txt "a.tpl.md"] := txt "Hi {var:name} from {var:town}" ]}.

(** A template without markers, and one with an undefined variable. *)
Definition plain_files : gmap (list text) text :=
  {[ [txt "repo"; txt "p.tpl.md"] := txt "just text";
     [txt "repo"; txt "u.tpl.md"] := txt "{var:nobody}" ]}.

(** A template that includes a snippet with markers of its own. *)
Definition snippet_files : gmap (list text) text :=
  {[ [txt "repo"; txt "a.tpl.md"] := txt "{file:snippets/s.md}";
     [txt "repo"; txt "snippets"; txt "s.md"] := txt "Hi {var:name} {file:x.md}" ]}.

(** [a] includes [b], [b] includes [a] under another spelling. *)
Definition loop_files : gmap (list text) text :=
  {[ [txt "repo"; txt "a.tpl.md"] := txt "{file:sub/b.tpl.md}";
     [txt "repo"; txt "sub"; txt "b.tpl.md"] := txt "{file: ../sub/.././a.tpl.md }" ]}.

End Demo.

(** * A small media server to run the client on *)

Module DemoShop.
Import Shopware.

(** A media record: identifier, file name, extension, content. *)
Definition media : Type := text * text * text * text.

Definition handle (rq : request) (records : list media)
    : response * list media :=
  match rq with
  | ReqToken _ _ => (mkResponse 200 [] (txt "secret-token") [], records)
  | ReqSearchMedia _ nm ext =>
      (mkResponse 200 [] []
         (omap (fun '(id, n, e, _) =>
                  if bool_decide (n = nm) && bool_decide (e = ext)
                  then Some id else None) records),
       records)
  | ReqCreateMedia _ id =>
      (mkResponse 200 [] [] [], records ++ [(id, [], [], [])])
  | ReqUpload _ id ext nm _ _ body =>
      (mkResponse 204 [] [] [],
       map (fun '(i, n, e, c) =>
              if bool_decide (i = id) then (i, nm, ext, body) else (i, n, e, c))
         records)
  end.

(** A shop that already holds the screenshot of the plugin. *)
Definition shop : world (list media) :=
  mkWorld (list media) (txt "https://shop.example") (txt "id") (txt "secret")
    None [(txt "0a1b", txt "MoorlFoo__shot", txt "png", txt "old bytes")] [].

Definition shot : image :=
  mkImage (mkPath true [txt "repo"; txt "img"; txt "shot.PNG"])
    (txt "new bytes") (Some (txt "image/png")).

(** A server without records that refuses the first upload with the
    duplicate-name code; its state counts the uploads. *)
Definition refusing (rq : request) (uploads : nat) : response * nat :=
  match rq with
  | ReqToken _ _ => (mkResponse 200 [] (txt "secret-token") [], uploads)
  | ReqSearchMedia _ _ _ => (mkResponse 200 [] [] [], uploads)
  | ReqCreateMedia _ _ => (mkResponse 200 [] [] [], uploads)
  | ReqUpload _ _ _ _ _ _ _ =>
      match uploads with
      | O => (mkResponse 409 (txt "code: CONTENT__MEDIA_DUPLICATED_FILE_NAME") [] [],
              1)
      | S _ => (mkResponse 204 [] [] [], S uploads)
      end
  end.

End DemoShop.

(** * Facts about text and scanning *)

Lemma scan_from_drop re n s : scan_from re n s = scan re (drop n s).
Proof.
  revert n. induction s as [|c s IH]; intros [|n]; simpl; try reflexivity.
  apply IH.
Qed.

Lemma scan_cons re c s :
  scan re (c :: s) =
  match re (c :: s) with
  | Some (g, len) => TMatch g :: scan re (drop (len - 1) s)
  | None => TLit c :: scan re s
  end.
Proof.
  unfold scan at 1. simpl. destruct (re (c :: s)) as [[g len]|]; [|reflexivity].
  by rewrite scan_from_drop.
Qed.

Lemma scan_nil re : scan re [] = [].
Proof. reflexivity. Qed.

(** A match of either pattern starts with an opening brace. *)
Lemma strip_prefix_head a pre c s r :
  strip_prefix (a :: pre) (c :: s) = Some r → c = a.
Proof.
  simpl. destruct (Ascii.eqb a c) eqn:E; [|discriminate].
  apply Ascii.eqb_eq in E. congruence.
Qed.

Lemma VAR_RE_head c s x : VAR_RE (c :: s) = Some x → c = "{".
Proof.
  unfold VAR_RE. destruct (strip_prefix _ _) eqn:E; [|discriminate].
  intros _. eapply strip_prefix_head. exact E.
Qed.

Lemma INCLUDE_RE_head c s x : INCLUDE_RE (c :: s) = Some x → c = "{".
Proof.
  unfold INCLUDE_RE. destruct (strip_prefix _ _) eqn:E; [|discriminate].
  intros _. eapply strip_prefix_head. exact E.
Qed.

Lemma scan_no_brace re l s :
  (∀ c t x, re (c :: t) = Some x → c = "{") →
  "{" ∉ l → scan re (l ++ s) = map TLit l ++ scan re s.
Proof.
  intros Hre. induction l as [|c l IH]; intros Hl; [reflexivity|].
  simpl. rewrite scan_cons.
  destruct (re (c :: l ++ s)) as [x|] eqn:E.
  - apply Hre in E. subst c. exfalso. apply Hl. left.
  - f_equal. apply IH. intros H. apply Hl. by right.
Qed.

Lemma span_app_stop p l c s :
  forallb p l = true → p c = false → span p (l ++ c :: s) = (l, c :: s).
Proof.
  intros Hl Hc. induction l as [|a l IH]; simpl in *.
  - by rewrite Hc.
  - apply andb_prop in Hl as [Ha Hl]. rewrite Ha, (IH Hl). reflexivity.
Qed.

Lemma span_spec p s :
  ∀ a b, span p s = (a, b) →
    s = a ++ b ∧ forallb p a = true ∧
    match b with [] => True | c :: _ => p c = false end.
Proof.
  induction s as [|c s IH]; simpl; intros a b H.
  - by inversion H.
  - destruct (p c) eqn:Hc.
    + destruct (span p s) as [a' b'] eqn:E. inversion H; subst.
      destruct (IH _ _ eq_refl) as (-> & Ha & Hb). simpl. rewrite Hc. auto.
    + inversion H; subst. simpl. rewrite Hc. auto.
Qed.

Lemma span_app_ctx p l c s :
  p c = false →
  span p (l ++ c :: s) = ((span p l).1, (span p l).2 ++ c :: s).
Proof.
  intros Hc. induction l as [|a l IH]; simpl.
  - by rewrite Hc.
  - destruct (p a); [|reflexivity].
    rewrite IH. by destruct (span p l).
Qed.

Lemma strip_prefix_Some pre s r :
  strip_prefix pre s = Some r → s = pre ++ r.
Proof.
  revert s. induction pre as [|a pre IH]; intros [|b s]; simpl; try congruence.
  destruct (Ascii.eqb a b) eqn:E; [|discriminate].
  apply Ascii.eqb_eq in E. subst b. intros H. by rewrite (IH _ H).
Qed.

Lemma strip_prefix_app pre r : strip_prefix pre (pre ++ r) = Some r.
Proof.
  induction pre as [|a pre IH]; simpl; [reflexivity|].
  by rewrite Ascii.eqb_refl.
Qed.

Lemma strip_prefix_None_ctx p pre c s :
  strip_prefix p pre = None → c ∉ p → strip_prefix p (pre ++ c :: s) = None.
Proof.
  revert pre. induction p as [|a p IH]; intros pre H Hc; [done|].
  destruct pre as [|b pre]; simpl in *.
  - destruct (Ascii.eqb a c) eqn:E; [|done].
    apply Ascii.eqb_eq in E. subst. exfalso. apply Hc. left.
  - destruct (Ascii.eqb a b); [|done]. apply IH; [done|].
    intros Hin. apply Hc. by right.
Qed.

(** What a match of [VAR_RE] looks like. *)
Lemma VAR_RE_Some s g len :
  VAR_RE s = Some (g, len) →
  ∃ rest, s = txt "{var:" ++ g ++ "}" :: rest ∧ len = 5 + length g + 1
          ∧ g ≠ [] ∧ forallb is_name_char g = true.
Proof.
  unfold VAR_RE. destruct (strip_prefix _ s) as [r|] eqn:E; [|discriminate].
  apply strip_prefix_Some in E.
  destruct (span is_name_char r) as [a b] eqn:Es.
  destruct (span_spec _ _ _ _ Es) as (-> & Ha & _).
  destruct a as [|c a]; [discriminate|].
  destruct b as [|d b]; [discriminate|].
  destruct (Ascii.eqb d "}") eqn:Hd; [|discriminate].
  apply Ascii.eqb_eq in Hd. subst d.
  intros [= <- <-]. exists b. subst s. done.
Qed.

Lemma VAR_RE_intro g rest :
  g ≠ [] → forallb is_name_char g = true →
  VAR_RE (txt "{var:" ++ g ++ "}" :: rest) = Some (g, 5 + length g + 1).
Proof.
  intros Hg Hall. unfold VAR_RE. rewrite strip_prefix_app.
  rewrite span_app_stop by done. destruct g; done.
Qed.

Lemma INCLUDE_RE_Some s g len :
  INCLUDE_RE s = Some (g, len) →
  ∃ rest, s = txt "{file:" ++ g ++ "}" :: rest ∧ len = 6 + length g + 1
          ∧ g ≠ [] ∧ "}" ∉ g.
Proof.
  unfold INCLUDE_RE. destruct (strip_prefix _ s) as [r|] eqn:E; [|discriminate].
  apply strip_prefix_Some in E.
  destruct (span _ r) as [a b] eqn:Es.
  destruct (span_spec _ _ _ _ Es) as (-> & Ha & _).
  destruct a as [|c a]; [discriminate|].
  destruct b as [|d b]; [discriminate|].
  destruct (Ascii.eqb d "}") eqn:Hd; [|discriminate].
  apply Ascii.eqb_eq in Hd. subst d.
  intros [= <- <-]. exists b. subst s.
  split; [done|]. split; [done|]. split; [done|].
  intros Hin. rewrite forallb_forall in Ha.
  apply list_elem_of_In in Hin. apply Ha in Hin.
  by rewrite Ascii.eqb_refl in Hin.
Qed.

Lemma INCLUDE_RE_intro g rest :
  g ≠ [] → "}" ∉ g →
  INCLUDE_RE (txt "{file:" ++ g ++ "}" :: rest) = Some (g, 6 + length g + 1).
Proof.
  intros Hg Hno. unfold INCLUDE_RE. rewrite strip_prefix_app.
  rewrite span_app_stop; [by destruct g| |by rewrite Ascii.eqb_refl].
  apply forallb_forall. intros c Hc. apply list_elem_of_In in Hc.
  destruct (Ascii.eqb c "}") eqn:E; [|done].
  apply Ascii.eqb_eq in E. by subst c.
Qed.

Lemma VAR_RE_app_brace pre s :
  pre ≠ [] → VAR_RE (pre ++ "{" :: s) = VAR_RE pre.
Proof.
  intros Hpre. unfold VAR_RE.
  destruct (strip_prefix (txt "{var:") pre) as [r|] eqn:E.
  - apply strip_prefix_Some in E. subst pre.
    rewrite <- app_assoc, strip_prefix_app.
    rewrite span_app_ctx by done.
    destruct (span is_name_char r) as [a b]. simpl.
    destruct a as [|c a]; [done|]. by destruct b.
  - destruct pre as [|b pre]; [done|]. revert E.
    change (txt "{var:") with ("{" :: txt "var:").
    cbn [strip_prefix app]. destruct (Ascii.eqb "{" b); [|done].
    intros E. rewrite strip_prefix_None_ctx; [done|done|].
    apply not_elem_of_cons; split; [done|].
    apply not_elem_of_cons; split; [done|].
    apply not_elem_of_cons; split; [done|].
    apply not_elem_of_cons; split; [done|]. apply not_elem_of_nil.
Qed.

Lemma scan_VAR_app_brace pre s :
  scan VAR_RE (pre ++ "{" :: s) = scan VAR_RE pre ++ scan VAR_RE ("{" :: s).
Proof.
  remember (length pre) as n eqn:Hn. revert pre Hn.
  induction n as [n IH] using lt_wf_ind. intros [|c l] Hn; [reflexivity|].
  change ((c :: l) ++ "{" :: s) with (c :: (l ++ "{" :: s)).
  remember (scan VAR_RE ("{" :: s)) as tail_tokens eqn:Htail.
  rewrite !scan_cons.
  change (c :: (l ++ "{" :: s)) with ((c :: l) ++ "{" :: s).
  rewrite VAR_RE_app_brace by done.
  destruct (VAR_RE (c :: l)) as [[g len]|] eqn:E.
  - destruct (VAR_RE_Some _ _ _ E) as (rest & Hs & -> & _ & _).
    assert (Hlen : 5 + length g + 1 - 1 ≤ length l).
    { apply (f_equal length) in Hs. simpl in Hs.
      rewrite length_app in Hs. simpl in Hs. lia. }
    rewrite drop_app_le by done. simpl. f_equal.
    subst tail_tokens.
    eapply IH; [|reflexivity]. subst n. simpl. rewrite length_drop. lia.
  - simpl. f_equal. subst tail_tokens.
    eapply IH; [|reflexivity]. subst n. simpl. lia.
Qed.

(** * Facts about the monad *)

Lemma bind_Ok {A B} (m : M A) (f : A → M B) st a st1 :
  m st = (Ok a, st1) → bind m f st = f a st1.
Proof. unfold bind. by intros ->. Qed.

Lemma bind_Err {A B} (m : M A) (f : A → M B) st e st1 :
  m st = (Err e, st1) → bind m f st = (Err e, st1).
Proof. unfold bind. by intros ->. Qed.

Lemma bind_inv_Ok {A B} (m : M A) (f : A → M B) st b st2 :
  bind m f st = (Ok b, st2) →
  ∃ a st1, m st = (Ok a, st1) ∧ f a st1 = (Ok b, st2).
Proof.
  unfold bind. destruct (m st) as [[a|e] st1]; [|discriminate]. eauto.
Qed.

Lemma bind_inv_Err {A B} (m : M A) (f : A → M B) st e st2 :
  bind m f st = (Err e, st2) →
  m st = (Err e, st2) ∨ ∃ a st1, m st = (Ok a, st1) ∧ f a st1 = (Err e, st2).
Proof.
  unfold bind. destruct (m st) as [[a|e'] st1]; [eauto|]. intros [= -> ->]. by left.
Qed.

Lemma sub_tokens_app repl ts1 ts2 st :
  sub_tokens repl (ts1 ++ ts2) st =
  (let* a := sub_tokens repl ts1 in
   let* b := sub_tokens repl ts2 in ret (a ++ b)) st.
Proof.
  revert st. induction ts1 as [|[c|g] ts1 IH]; intros st; simpl.
  - unfold bind, ret. simpl.
    by destruct (sub_tokens repl ts2 st) as [[b|e] st'].
  - unfold bind, ret in *. rewrite IH.
    destruct (sub_tokens repl ts1 st) as [[a|e] st1]; [|reflexivity].
    by destruct (sub_tokens repl ts2 st1) as [[b|e] st2].
  - unfold bind, ret in *. destruct (repl g st) as [[x|e] st0]; [|reflexivity].
    rewrite IH.
    destruct (sub_tokens repl ts1 st0) as [[a|e] st1]; [|reflexivity].
    destruct (sub_tokens repl ts2 st1) as [[b|e] st2]; [|reflexivity].
    by rewrite app_assoc.
Qed.

Lemma sub_tokens_lits repl l st : sub_tokens repl (map TLit l) st = (Ok l, st).
Proof.
  induction l as [|c l IH]; simpl; [reflexivity|].
  unfold bind. by rewrite IH.
Qed.

Lemma sub_tokens_ext repl1 repl2 ts st :
  (∀ g st, repl1 g st = repl2 g st) →
  sub_tokens repl1 ts st = sub_tokens repl2 ts st.
Proof.
  intros H. revert st. induction ts as [|[c|g] ts IH]; intros st; simpl.
  - reflexivity.
  - unfold bind. by rewrite IH.
  - unfold bind. rewrite H. destruct (repl2 g st) as [[x|e] st1]; [|done].
    by rewrite IH.
Qed.

(** * Whitespace stripping *)

Lemma lstrip_id s :
  match s with [] => True | c :: _ => is_space c = false end → lstrip s = s.
Proof. destruct s as [|c s]; simpl; [done|]. by intros ->. Qed.

Lemma is_name_char_not_space c : is_name_char c = true → is_space c = false.
Proof.
  destruct c as [[] [] [] [] [] [] [] []]; vm_compute; congruence.
Qed.

Lemma strip_name g : forallb is_name_char g = true → strip g = g.
Proof.
  intros H. unfold strip, rstrip.
  assert (Hl : lstrip g = g).
  { apply lstrip_id. destruct g as [|c g]; [done|].
    simpl in H. apply andb_prop in H as [H _]. by apply is_name_char_not_space. }
  rewrite Hl. rewrite lstrip_id; [apply rev_involutive|].
  destruct (rev g) as [|c r] eqn:E; [done|].
  apply is_name_char_not_space. rewrite forallb_forall in H. apply H.
  apply in_rev. rewrite E. by left.
Qed.

(** * Variable substitution *)

Lemma first_bad_char (p : ascii → bool) (nm : text) :
  existsb (fun c => negb (p c)) nm = true →
  ∃ good bad rest, nm = good ++ bad :: rest ∧ forallb p good = true ∧ p bad = false.
Proof.
  intros H. destruct (span p nm) as [a b] eqn:E.
  destruct (span_spec _ _ _ _ E) as (-> & Ha & Hb).
  destruct b as [|c b]; [|by exists a, c, b].
  exfalso. rewrite app_nil_r in H.
  apply existsb_exists in H as (x & Hx & Hpx).
  rewrite forallb_forall in Ha. rewrite (Ha _ Hx) in Hpx. done.
Qed.

Lemma VAR_RE_malformed nm post :
  existsb (fun c => negb (is_name_char c)) nm = true → "}" ∉ nm →
  VAR_RE (txt "{var:" ++ nm ++ "}" :: post) = None.
Proof.
  intros Hbad Hclose.
  destruct (first_bad_char _ _ Hbad) as (good & bad & rest & -> & Hgood & Hb).
  unfold VAR_RE. rewrite strip_prefix_app.
  rewrite <- app_assoc. simpl. rewrite span_app_stop by done.
  destruct good as [|c good]; [done|].
  destruct (Ascii.eqb bad "}") eqn:E; [|done].
  apply Ascii.eqb_eq in E. subst bad. exfalso. apply Hclose.
  apply elem_of_app. right. left.
Qed.

Lemma scan_VAR_malformed nm post :
  existsb (fun c => negb (is_name_char c)) nm = true →
  "{" ∉ nm → "}" ∉ nm →
  scan VAR_RE (txt "{var:" ++ nm ++ txt "}" ++ post) =
  map TLit (txt "{var:" ++ nm ++ txt "}") ++ scan VAR_RE post.
Proof.
  intros Hbad Hopen Hclose.
  change (txt "{var:" ++ nm ++ txt "}" ++ post)
    with ("{" :: (txt "var:" ++ nm ++ "}" :: post)).
  rewrite scan_cons.
  change ("{" :: (txt "var:" ++ nm ++ "}" :: post))
    with (txt "{var:" ++ nm ++ "}" :: post).
  rewrite VAR_RE_malformed by done.
  change (txt "{var:" ++ nm ++ txt "}") with ("{" :: (txt "var:" ++ nm ++ txt "}")).
  simpl map. simpl app at 3. f_equal.
  replace (txt "var:" ++ nm ++ "}" :: post)
    with ((txt "var:" ++ nm ++ txt "}") ++ post)
    by (by rewrite <- !app_assoc).
  apply scan_no_brace; [apply VAR_RE_head|].
  rewrite !elem_of_app. intros [H|[H|H]]; [|done|].
  - vm_compute in H. by repeat (apply elem_of_cons in H as [H|H]; [done|]);
      apply elem_of_nil in H.
  - apply elem_of_cons in H as [H|H]; [done|]. by apply elem_of_nil in H.
Qed.

Lemma var_repl_Ok variables tp g st v st' :
  _var_repl variables tp g st = (Ok v, st') →
  variables !! strip g = Some v ∧ st' = st.
Proof.
  unfold _var_repl, ret, abort. destruct (variables !! strip g); [|done].
  by intros [= -> ->].
Qed.

Lemma var_repl_Err variables tp g st e st' :
  _var_repl variables tp g st = (Err e, st') →
  variables !! strip g = None ∧ e = UndefinedVariable (strip g) tp ∧ st' = st.
Proof.
  unfold _var_repl, ret, abort. destruct (variables !! strip g); [done|].
  by intros [= <- <-].
Qed.

Lemma scan_VAR_groups s g :
  TMatch g ∈ scan VAR_RE s → g ≠ [] ∧ forallb is_name_char g = true.
Proof.
  remember (length s) as n eqn:Hn. revert s Hn.
  induction n as [n IH] using lt_wf_ind. intros [|c l] Hn; [by intros ?%elem_of_nil|].
  rewrite scan_cons. destruct (VAR_RE (c :: l)) as [[g' len]|] eqn:E.
  - intros [H|H]%elem_of_cons.
    + inversion H; subst g'.
      by destruct (VAR_RE_Some _ _ _ E) as (rest & _ & _ & ? & ?).
    + eapply IH; [|reflexivity|exact H]. subst n. simpl. rewrite length_drop. lia.
  - intros [H|H]%elem_of_cons; [done|].
    eapply IH; [|reflexivity|exact H]. subst n. simpl. lia.
Qed.

Lemma sub_tokens_var_state variables tp ts st r st' :
  sub_tokens (_var_repl variables tp) ts st = (r, st') → st' = st.
Proof.
  revert st r st'. induction ts as [|[c|g] ts IH]; intros st r st'; simpl.
  - by intros [= _ <-].
  - unfold bind, ret. destruct (sub_tokens _ ts st) as [[a|e] st1] eqn:E;
      intros [= _ <-]; eapply IH; exact E.
  - unfold bind, ret. destruct (_var_repl variables tp g st) as [[x|e] st0] eqn:E0.
    + apply var_repl_Ok in E0 as [_ ->].
      destruct (sub_tokens _ ts st) as [[a|e] st1] eqn:E;
        intros [= _ <-]; eapply IH; exact E.
    + apply var_repl_Err in E0 as (_ & _ & ->). by intros [= _ <-].
Qed.

Lemma sub_tokens_var_Err variables tp ts st e st' :
  sub_tokens (_var_repl variables tp) ts st = (Err e, st') →
  ∃ pre g post, ts = pre ++ TMatch g :: post
    ∧ e = UndefinedVariable (strip g) tp ∧ variables !! strip g = None
    ∧ ∀ g', TMatch g' ∈ pre → is_Some (variables !! strip g').
Proof.
  revert st. induction ts as [|[c|g] ts IH]; intros st; simpl.
  - discriminate.
  - unfold bind, ret. destruct (sub_tokens _ ts st) as [[a|e'] st1] eqn:E; [done|].
    intros [= -> ->]. destruct (IH _ E) as (pre & g & post & -> & He & Hg & Hpre).
    exists (TLit c :: pre), g, post. repeat split; try done.
    intros g' [H|H]%elem_of_cons; [done|]. by apply Hpre.
  - unfold bind, ret. destruct (_var_repl variables tp g st) as [[x|e'] st0] eqn:E0.
    + apply var_repl_Ok in E0 as [Hx ->].
      destruct (sub_tokens _ ts st) as [[a|e'] st1] eqn:E; [done|].
      intros [= -> ->]. destruct (IH _ E) as (pre & g0 & post & -> & He & Hg & Hpre).
      exists (TMatch g :: pre), g0, post. repeat split; try done.
      intros g' [H|H]%elem_of_cons; [|by apply Hpre].
      inversion H; subst. by eexists.
    + apply var_repl_Err in E0 as (Hg & -> & ->). intros [= <- <-].
      exists [], g, ts. repeat split; try done. by intros g' ?%elem_of_nil.
Qed.

(** C10. A brace expression [{var:name}] whose name holds a character
    outside letters, digits, underscore and hyphen (and no brace) is not a
    variable marker: the substitution pass copies it as it is, and handles
    the text before and after it as if it stood alone.  A failure of the
    pass always names a non-empty name made of the allowed characters that
    the mapping does not define. *)
Theorem C10_malformed_marker_is_copied
    (variables : gmap text text) (tp : Path) (pre nm post : text) (st : state) :
  existsb (fun c => negb (is_name_char c)) nm = true →
  "{" ∉ nm → "}" ∉ nm →
  substitute_variables variables tp
    (pre ++ txt "{var:" ++ nm ++ txt "}" ++ post) st =
  (let* a := substitute_variables variables tp pre in
   let* b := substitute_variables variables tp post in
   ret (a ++ txt "{var:" ++ nm ++ txt "}" ++ b)) st
  ∧ ∀ s e st',
      substitute_variables variables tp s st = (Err e, st') →
      ∃ k, e = UndefinedVariable k tp ∧ k ≠ [] ∧ forallb is_name_char k = true
           ∧ variables !! k = None.
Proof.
  intros Hbad Hopen Hclose. split.
  - unfold substitute_variables, re_sub.
    change (txt "{var:" ++ nm ++ txt "}" ++ post)
      with ("{" :: (txt "var:" ++ nm ++ txt "}" ++ post)).
    rewrite scan_VAR_app_brace.
    change ("{" :: (txt "var:" ++ nm ++ txt "}" ++ post))
      with (txt "{var:" ++ nm ++ txt "}" ++ post).
    rewrite scan_VAR_malformed by done.
    rewrite sub_tokens_app. unfold bind, ret.
    destruct (sub_tokens _ (scan VAR_RE pre) st) as [[a|e] st1]; [|done].
    rewrite sub_tokens_app. unfold bind, ret. rewrite sub_tokens_lits.
    destruct (sub_tokens _ (scan VAR_RE post) st1) as [[b|e] st2]; [|done].
    by rewrite <- !app_assoc.
  - intros s e st' H. unfold substitute_variables, re_sub in H.
    apply sub_tokens_var_Err in H as (l1 & g & l2 & Hs & -> & Hnone & _).
    assert (Hin : TMatch g ∈ scan VAR_RE s).
    { rewrite Hs. apply elem_of_app. right. left. }
    apply scan_VAR_groups in Hin as [Hne Hall].
    rewrite strip_name in * by done. eauto.
Qed.

(** * Facts about the renderer *)

Lemma bind_inv {A B} (m : M A) (f : A → M B) st r st' :
  bind m f st = (r, st') →
  (∃ e, m st = (Err e, st') ∧ r = Err e)
  ∨ (∃ a st1, m st = (Ok a, st1) ∧ f a st1 = (r, st')).
Proof.
  unfold bind. destruct (m st) as [[a|e] st1]; [by eauto|].
  intros [= <- <-]. left. eauto.
Qed.

#[global] Instance extends_refl : Reflexive extends.
Proof. intros st. split; [done|]. exists []. by rewrite app_nil_r. Qed.

#[global] Instance extends_trans : Transitive extends.
Proof.
  intros a b c [H1 [l1 E1]] [H2 [l2 E2]]. split; [by auto|].
  exists (l1 ++ l2). by rewrite E2, E1, app_assoc.
Qed.

Lemma sub_tokens_preserves (R : state → state → Prop)
    `{!Reflexive R, !Transitive R} repl :
  (∀ g st r st', repl g st = (r, st') → R st st') →
  ∀ ts st r st', sub_tokens repl ts st = (r, st') → R st st'.
Proof.
  intros Hrepl. induction ts as [|[c|g] ts IH]; intros st r st'; simpl.
  - by intros [= _ <-].
  - intros [(e & H & _)|(a & st1 & H & [= _ <-])]%bind_inv; eapply IH; exact H.
  - intros [(e & H & _)|(x & st0 & H0 & H)]%bind_inv; [by eapply Hrepl|].
    apply Hrepl in H0. etrans; [exact H0|].
    apply bind_inv in H as [(e & H & _)|(a & st1 & H & [= _ <-])]; eapply IH; exact H.
Qed.

Lemma sub_tokens_Err_from repl ts st e st' :
  sub_tokens repl ts st = (Err e, st') → ∃ g s s', repl g s = (Err e, s').
Proof.
  revert st. induction ts as [|[c|g] ts IH]; intros st; simpl.
  - done.
  - intros [(e' & H & [= <-])|(a & s1 & _ & ?)]%bind_inv; [by eapply IH|done].
  - intros [(e' & H & [= <-])|(a & s1 & _ & H)]%bind_inv; [by eauto|].
    apply bind_inv in H as [(e' & H & [= <-])|(b & s2 & _ & ?)]; [by eapply IH|done].
Qed.

(** When the whole substitution succeeds, the callback succeeded at every
    match. *)
Lemma sub_tokens_Ok_elem (R : state → state → Prop)
    `{!Reflexive R, !Transitive R} repl :
  (∀ g st r st', repl g st = (r, st') → R st st') →
  ∀ ts st x st' g, sub_tokens repl ts st = (Ok x, st') → TMatch g ∈ ts →
    ∃ st1 y st2, repl g st1 = (Ok y, st2) ∧ R st st1 ∧ R st2 st'.
Proof.
  intros Hrepl. induction ts as [|[c|g0] ts IH]; intros st x st' g; simpl.
  - by intros _ ?%elem_of_nil.
  - intros (a & st1 & H & [= _ <-])%bind_inv_Ok [Hin|Hin]%elem_of_cons; [done|].
    by eapply IH.
  - intros (y0 & st0 & H0 & H)%bind_inv_Ok Hin.
    apply bind_inv_Ok in H as (a & st1 & H & [= _ <-]).
    apply elem_of_cons in Hin as [Hin|Hin].
    + inversion Hin; subst g0. exists st, y0, st0. split; [done|].
      split; [reflexivity|]. exact (sub_tokens_preserves R repl Hrepl _ _ _ _ H).
    + destruct (IH _ _ _ _ H Hin) as (s1 & y & s2 & Hg & R1 & R2).
      exists s1, y, s2. split; [done|]. split; [|done].
      etrans; [|exact R1]. by eapply Hrepl.
Qed.

Section RendererFacts.

Variable cwd : list text.
Variable snippets_dir : Path.
Variable variables : gmap text text.

Local Abbreviation render_template := (render_template cwd snippets_dir variables).
Local Abbreviation render_includes := (render_includes cwd snippets_dir variables).
Local Abbreviation _include_repl := (_include_repl cwd snippets_dir).
Local Abbreviation expand_includes := (expand_includes cwd snippets_dir).
Local Abbreviation read_text := (read_text cwd).
Local Abbreviation write_text := (write_text cwd).
Local Abbreviation print_wrote := (print_wrote cwd).
Local Abbreviation check_and_add_seen := (check_and_add_seen cwd).
Local Abbreviation substitute_variables := (substitute_variables variables).

Lemma read_text_inv p st r st' :
  read_text p st = (r, st') →
  st' = st ∧ match r with
            | Ok c => fs st !! canonical cwd p = Some c
            | Err e => fs st !! canonical cwd p = None ∧ e = FileNotFound p
            end.
Proof.
  unfold read_text. destruct (fs st !! canonical cwd p); by intros [= <- <-].
Qed.

Lemma init_seen_inv sa st r st' :
  init_seen sa st = (r, st') →
  r = Ok tt ∧ fs st' = fs st ∧ stdout st' = stdout st
  ∧ seen st' = match sa with None => ∅ | Some _ => seen st end.
Proof. unfold init_seen. destruct sa; by intros [= <- <-]. Qed.

Lemma check_and_add_seen_inv p st r st' :
  check_and_add_seen p st = (r, st') →
  fs st' = fs st ∧ stdout st' = stdout st ∧
  match r with
  | Ok _ => (canonical cwd p ∉ seen st) ∧ seen st' = {[canonical cwd p]} ∪ seen st
  | Err e => canonical cwd p ∈ seen st ∧ e = CyclicInclude p ∧ st' = st
  end.
Proof.
  unfold check_and_add_seen. case_bool_decide; by intros [= <- <-].
Qed.

Lemma write_text_inv p c st r st' :
  write_text p c st = (r, st') →
  r = Ok tt ∧ fs st' = <[canonical cwd p := c]> (fs st)
  ∧ stdout st' = stdout st ∧ seen st' = seen st.
Proof. unfold write_text. by intros [= <- <-]. Qed.

Lemma print_wrote_inv p st r st' :
  print_wrote p st = (r, st') →
  fs st' = fs st ∧ seen st' = seen st ∧
  match r with
  | Ok _ => ∃ rel, relative_to p cwd = Some rel ∧ stdout st' = stdout st ++ [rel]
  | Err e => relative_to p cwd = None ∧ e = NotRelative p ∧ st' = st
  end.
Proof.
  unfold print_wrote. destruct (relative_to p cwd); intros [= <- <-]; eauto.
Qed.

Lemma substitute_variables_state tp s st r st' :
  substitute_variables tp s st = (r, st') → st' = st.
Proof. apply sub_tokens_var_state. Qed.

Lemma lift_inv {A} (x : result A) st r st' :
  lift x st = (r, st') → r = x ∧ st' = st.
Proof. by intros [= <- <-]. Qed.

Lemma extends_same st st' :
  fs st' = fs st → stdout st' = stdout st → extends st st'.
Proof.
  intros Hf Hs. split; [by rewrite Hf|]. exists []. by rewrite app_nil_r.
Qed.

Lemma include_repl_extends render tp depth :
  (∀ p o d st r st', render p o d st = (r, st') → extends st st') →
  ∀ g st r st', _include_repl render tp depth g st = (r, st') → extends st st'.
Proof.
  intros Hr g st r st'. unfold _include_repl.
  destruct (contains _ _).
  - intros [(e & [_ ->]%lift_inv & _)|(o & st1 & [_ ->]%lift_inv & H)]%bind_inv;
      [reflexivity|].
    apply bind_inv in H as [(e & H & _)|([] & st2 & H & [-> _]%read_text_inv)];
      by eapply Hr.
  - by intros [-> _]%read_text_inv.
Qed.

Lemma render_template_extends fuel :
  ∀ tp out sa depth max_depth st r st',
    render_template fuel tp out sa depth max_depth st = (r, st') →
    extends st st'.
Proof.
  induction fuel as [|fuel IH]; intros tp out sa depth max_depth st r st'; simpl.
  { by intros [= _ <-]. }
  destruct (max_depth <? depth)%nat; [by intros [= _ <-]|].
  intros H.
  apply bind_inv in H as [(e & (? & _)%init_seen_inv & ->)|(? & st1 & H1 & H)];
    [done|].
  apply init_seen_inv in H1 as (_ & Hf1 & Ho1 & _).
  etrans; [by apply (extends_same st st1)|].
  apply bind_inv in H as [(e & H2 & _)|(? & st2 & H2 & H)].
  { apply check_and_add_seen_inv in H2 as (? & ? & _). by apply extends_same. }
  apply check_and_add_seen_inv in H2 as (Hf2 & Ho2 & _).
  etrans; [by apply (extends_same st1 st2)|].
  apply bind_inv in H as [(e & [-> _]%read_text_inv & _)|(src & ? & [-> _]%read_text_inv & H)];
    [reflexivity|].
  apply bind_inv in H as [(e & H3 & _)|(rendered & st3 & H3 & H)].
  { refine (sub_tokens_preserves extends _ _ _ _ _ _ H3).
    apply include_repl_extends. intros ? ? ? ? ? ?. apply IH. }
  etrans.
  { refine (sub_tokens_preserves extends _ _ _ _ _ _ H3).
    apply include_repl_extends. intros ? ? ? ? ? ?. apply IH. }
  apply bind_inv in H as [(e & ->%substitute_variables_state & _)
                         |(r2 & ? & ->%substitute_variables_state & H)];
    [reflexivity|].
  apply bind_inv in H as [(e & (? & _)%write_text_inv & ->)|(? & st4 & H4 & H)];
    [done|].
  apply write_text_inv in H4 as (_ & Hf4 & Ho4 & _).
  apply print_wrote_inv in H as (Hf5 & _ & H).
  split.
  - intros k Hk. rewrite Hf5, Hf4.
    destruct (decide (canonical cwd out = k)) as [->|Hne].
    + rewrite lookup_insert_eq. by eexists.
    + by rewrite lookup_insert_ne.
  - destruct r as [[]|e].
    + destruct H as (rel & _ & ->). rewrite Ho4. by eexists.
    + destruct H as (_ & _ & ->). rewrite Ho4. exists []. by rewrite app_nil_r.
Qed.

(** A successful call wrote its output file and printed its line. *)
Lemma render_template_Ok fuel tp out sa depth max_depth st u st' :
  render_template fuel tp out sa depth max_depth st = (Ok u, st') →
  is_Some (fs st' !! canonical cwd out)
  ∧ ∃ rel l, relative_to out cwd = Some rel
             ∧ stdout st' = stdout st ++ l ++ [rel].
Proof.
  destruct fuel as [|fuel]; simpl; [done|].
  destruct (max_depth <? depth)%nat; [done|].
  intros (? & st1 & H1 & H)%bind_inv_Ok.
  apply init_seen_inv in H1 as (_ & Hf1 & Ho1 & _).
  apply bind_inv_Ok in H as (? & st2 & H2 & H).
  apply check_and_add_seen_inv in H2 as (Hf2 & Ho2 & _).
  apply bind_inv_Ok in H as (src & ? & [-> _]%read_text_inv & H).
  apply bind_inv_Ok in H as (rendered & st3 & H3 & H).
  assert (E3 : extends st2 st3).
  { refine (sub_tokens_preserves extends _ _ _ _ _ _ H3).
    apply include_repl_extends. intros ? ? ? ? ? ?. apply render_template_extends. }
  apply bind_inv_Ok in H as (r2 & ? & ->%substitute_variables_state & H).
  apply bind_inv_Ok in H as (? & st4 & H4 & H).
  apply write_text_inv in H4 as (_ & Hf4 & Ho4 & _).
  apply print_wrote_inv in H as (Hf5 & _ & (rel & Hrel & Ho5)).
  split.
  - rewrite Hf5, Hf4, lookup_insert_eq. by eexists.
  - destruct E3 as [_ [l El]]. exists rel, l. split; [done|].
    rewrite Ho5, Ho4, El, Ho2, Ho1. by rewrite app_assoc.
Qed.

(** ** Fuel *)

Lemma include_repl_ext r1 r2 tp depth g st :
  (∀ p o st, r1 p o (depth + 1) st = r2 p o (depth + 1) st) →
  _include_repl r1 tp depth g st = _include_repl r2 tp depth g st.
Proof.
  intros H. unfold _include_repl. destruct (contains _ _); [|reflexivity].
  unfold bind. destruct (lift _ st) as [[o|e] st1]; [|reflexivity].
  by rewrite H.
Qed.

Lemma expand_includes_ext r1 r2 tp depth src st :
  (∀ p o st, r1 p o (depth + 1) st = r2 p o (depth + 1) st) →
  expand_includes r1 tp depth src st = expand_includes r2 tp depth src st.
Proof.
  intros H. unfold expand_includes, re_sub. apply sub_tokens_ext.
  intros g s. by apply include_repl_ext.
Qed.

(** Any two amounts of fuel that cover the levels left below
    [max_depth + 1] give the same run. *)
Lemma render_template_fuel f1 :
  ∀ f2 tp out sa depth max_depth st,
    max_depth + 2 ≤ f1 + depth → max_depth + 2 ≤ f2 + depth →
    1 ≤ f1 → 1 ≤ f2 →
    render_template f1 tp out sa depth max_depth st =
    render_template f2 tp out sa depth max_depth st.
Proof.
  induction f1 as [|f1 IH]; intros [|f2] tp out sa depth max_depth st B1 B2 ? ?;
    try lia.
  simpl. destruct (max_depth <? depth)%nat eqn:Hd; [reflexivity|].
  apply Nat.ltb_ge in Hd.
  unfold bind.
  destruct (init_seen sa st) as [[?|?] st1]; [|reflexivity].
  destruct (check_and_add_seen tp st1) as [[?|?] st2]; [|reflexivity].
  destruct (read_text tp st2) as [[src|?] st3]; [|reflexivity].
  rewrite (expand_includes_ext _
    (fun p o d => render_template f2 p o (Some tt) d max_depth));
    [reflexivity|].
  intros p o s. apply IH; lia.
Qed.

Lemma include_repl_Err render tp depth g st e st' :
  _include_repl render tp depth g st = (Err e, st') →
  (∃ p, e = FileNotFound p) ∨ (∃ nm, e = InvalidName nm)
  ∨ ∃ p o s, render p o (depth + 1) s = (Err e, st').
Proof.
  unfold _include_repl. destruct (contains _ _).
  - intros [(e' & [Hw _]%lift_inv & [= <-])|(o & s1 & _ & H)]%bind_inv.
    + right. left. unfold with_name in Hw. case_match; [|done].
      injection Hw as ->. by eexists.
    + apply bind_inv in H as [(e' & H & [= <-])|(? & s2 & _ & (_ & _ & ->)%read_text_inv)].
      * right. right. by eauto.
      * left. by eexists.
  - intros (_ & _ & ->)%read_text_inv. left. by eexists.
Qed.

(** With enough fuel the run never stops for lack of it. *)
Lemma render_template_fuel_enough fuel :
  ∀ tp out sa depth max_depth st,
    max_depth + 2 ≤ fuel + depth → 1 ≤ fuel →
    (render_template fuel tp out sa depth max_depth st).1 ≠ Err OutOfFuel.
Proof.
  induction fuel as [|fuel IH]; intros tp out sa depth max_depth st B Hf; [lia|].
  simpl. destruct (max_depth <? depth)%nat eqn:Hd; [done|].
  apply Nat.ltb_ge in Hd.
  destruct (bind _ _ st) as [r st'] eqn:H. simpl. intros ->.
  apply bind_inv in H as [(e & (? & _)%init_seen_inv & ?)|(? & st1 & _ & H)];
    [done|].
  apply bind_inv in H as [(e & (_ & _ & _ & ? & _)%check_and_add_seen_inv & ?)
                         |(? & st2 & _ & H)]; [congruence|].
  apply bind_inv in H as [(e & (_ & _ & ?)%read_text_inv & ?)
                         |(src & st3 & _ & H)]; [congruence|].
  apply bind_inv in H as [(e & H & [= <-])|(rendered & st4 & _ & H)].
  { apply sub_tokens_Err_from in H as (g & s & s' & H).
    apply include_repl_Err in H as [[p ?]|[[nm ?]|(p & o & s0 & H)]]; [done..|].
    eapply (IH _ _ _ _ _ s0); [| |by rewrite H]; lia. }
  apply bind_inv in H as [(e & H & [= <-])|(r2 & st5 & _ & H)].
  { unfold substitute_variables in H.
    apply sub_tokens_var_Err in H as (? & ? & ? & _ & ? & _). congruence. }
  apply bind_inv in H as [(e & (? & _)%write_text_inv & _)|(? & st6 & _ & H)];
    [done|].
  apply print_wrote_inv in H as (_ & _ & _ & ? & _). congruence.
Qed.

End RendererFacts.

(** * Two runs on the same files *)

Section Determinism.

Variable cwd : list text.
Variable snippets_dir : Path.
Variable variables : gmap text text.

(** What was printed before the two runs started. *)
Variable o1 o2 : list (list text).

Local Abbreviation sim_files := (sim_files o1 o2).
Local Abbreviation sim := (sim o1 o2).
Local Abbreviation pre_sim := (pre_sim o1 o2).

Lemma respects_bind {A B} P Q R (m : M A) (f : A → M B) :
  respects P Q m → (∀ a, respects Q R (f a)) →
  (∀ st1 st2, Q st1 st2 → R st1 st2) →
  respects P R (bind m f).
Proof.
  intros Hm Hf HQR st1 st2 HP. destruct (Hm _ _ HP) as [Hr Hs]. unfold bind.
  destruct (m st1) as [[a|e] s1], (m st2) as [[a'|e'] s2]; simpl in *;
    try discriminate.
  - injection Hr as ->. by apply Hf.
  - injection Hr as ->. split; [done|by apply HQR].
Qed.

Lemma respects_same {A} P (x : result A) : respects P P (fun st => (x, st)).
Proof. by intros st1 st2 H. Qed.

Lemma respects_read_text p : respects sim sim (read_text cwd p).
Proof.
  intros st1 st2 H. unfold read_text. destruct H as ((Hf & ?) & ?).
  rewrite Hf. by destruct (fs st2 !! _).
Qed.

Lemma respects_write_text p c : respects sim sim (write_text cwd p c).
Proof.
  intros st1 st2 ((Hf & ?) & ?). unfold write_text. simpl.
  split; [done|]. split; [|done]. split; [by rewrite Hf|done].
Qed.

Lemma respects_print_wrote p : respects sim sim (print_wrote cwd p).
Proof.
  intros st1 st2 ((Hf & l & E1 & E2) & Hs). unfold print_wrote.
  destruct (relative_to p cwd) as [rel|]; simpl.
  - split; [done|]. split; [|done]. split; [done|].
    exists (l ++ [rel]). by rewrite E1, E2, !app_assoc.
  - split; [done|]. split; [|done]. split; [done|]. by exists l.
Qed.

Lemma respects_check_and_add_seen p :
  respects sim sim (check_and_add_seen cwd p).
Proof.
  intros st1 st2 ((Hf & Ho) & Hs). unfold check_and_add_seen. rewrite Hs.
  case_bool_decide; simpl; [done|]. split; [done|]. by split.
Qed.

Lemma respects_init_seen sa : respects (pre_sim sa) sim (init_seen sa).
Proof.
  intros st1 st2 H. unfold init_seen. destruct sa; simpl in *; [done|].
  by destruct H.
Qed.

Lemma respects_sub_tokens repl ts :
  (∀ g, respects sim sim (repl g)) → respects sim sim (sub_tokens repl ts).
Proof.
  intros Hrepl. induction ts as [|[c|g] ts IH]; simpl.
  - apply (respects_same sim).
  - eapply respects_bind; [done| |done]. intros a. apply (respects_same sim).
  - eapply respects_bind; [done| |done]. intros x.
    eapply respects_bind; [done| |done]. intros a. apply (respects_same sim).
Qed.

Lemma respects_substitute_variables tp s :
  respects sim sim (substitute_variables variables tp s).
Proof.
  apply respects_sub_tokens. intros g. unfold _var_repl.
  destruct (variables !! strip g); apply (respects_same sim).
Qed.

Lemma pre_sim_weaken sa st1 st2 : sim st1 st2 → pre_sim sa st1 st2.
Proof. destruct sa; [done|]. by intros [? _]. Qed.

Lemma respects_render_template fuel :
  ∀ tp out sa depth max_depth,
    respects (pre_sim sa) (pre_sim sa)
      (render_template cwd snippets_dir variables fuel tp out sa depth max_depth).
Proof.
  induction fuel as [|fuel IH]; intros tp out sa depth max_depth; simpl.
  { apply (respects_same (pre_sim sa)). }
  destruct (max_depth <? depth)%nat; [apply (respects_same (pre_sim sa))|].
  eapply respects_bind; [apply respects_init_seen| |apply pre_sim_weaken].
  intros _.
  assert (Hw : ∀ {A} (m : M A), respects sim sim m → respects sim (pre_sim sa) m).
  { intros A m Hm st1 st2 H. destruct (Hm _ _ H). split; [done|].
    by apply pre_sim_weaken. }
  apply Hw.
  eapply respects_bind; [apply respects_check_and_add_seen| |done]. intros _.
  eapply respects_bind; [apply respects_read_text| |done]. intros src.
  eapply respects_bind; [| |done].
  { apply respects_sub_tokens. intros g. unfold _include_repl.
    destruct (contains _ _); [|apply respects_read_text].
    eapply respects_bind; [apply (respects_same sim)| |done]. intros tmp_out.
    eapply respects_bind; [apply (IH _ _ (Some tt))| |done]. intros _.
    apply respects_read_text. }
  intros rendered.
  eapply respects_bind; [apply respects_substitute_variables| |done]. intros r2.
  eapply respects_bind; [apply respects_write_text| |done]. intros _.
  apply respects_print_wrote.
Qed.

(** C6. Two top-level runs of [render_template] on the same document,
    with the same snippets directory and variables, in two states that
    hold the same files, give the same result, leave the same files and
    print the same lines, whatever was printed before, whatever [seen]
    set an earlier call left behind and whatever (sufficient) fuel each
    run is given; neither run stops for lack of fuel. *)
Theorem C6_rendering_is_deterministic
    (f1 f2 : nat) (tp out : Path) (max_depth : nat) (st1 st2 : state) :
  max_depth + 2 ≤ f1 → max_depth + 2 ≤ f2 →
  fs st1 = fs st2 → stdout st1 = o1 → stdout st2 = o2 →
  let run1 := render_template cwd snippets_dir variables f1 tp out None 0 max_depth st1 in
  let run2 := render_template cwd snippets_dir variables f2 tp out None 0 max_depth st2 in
  run1.1 = run2.1 ∧ run1.1 ≠ Err OutOfFuel
  ∧ fs run1.2 = fs run2.2
  ∧ ∃ l, stdout run1.2 = o1 ++ l ∧ stdout run2.2 = o2 ++ l.
Proof.
  intros B1 B2 Hf E1 E2 run1 run2. subst run1 run2.
  rewrite (render_template_fuel _ _ _ f1 f2) by lia.
  destruct (respects_render_template f2 tp out None 0 max_depth st1 st2)
    as [Hr [Hfs Ho]].
  { split; [done|]. exists []. by rewrite !app_nil_r. }
  split; [done|]. split; [|done].
  rewrite Hr. apply render_template_fuel_enough; lia.
Qed.

End Determinism.

Lemma C6_rendering_witness :
  fs (mkState Demo.hello_files {[ [txt "repo"; txt "a.tpl.md"] ]} [[txt "x.md"]])
    = fs (Demo.start Demo.hello_files)
  ∧ (render_template Demo.cwd Demo.snippets_dir Demo.hello_vars 22
       (Demo.at_repo "a.tpl.md") (Demo.at_repo "a.md") None 0 20
       (mkState Demo.hello_files {[ [txt "repo"; txt "a.tpl.md"] ]} [[txt "x.md"]])).1
    = (render_template Demo.cwd Demo.snippets_dir Demo.hello_vars 40
         (Demo.at_repo "a.tpl.md") (Demo.at_repo "a.md") None 0 20
         (Demo.start Demo.hello_files)).1.
Proof.
  split; [reflexivity|].
  apply (C6_rendering_is_deterministic Demo.cwd Demo.snippets_dir Demo.hello_vars
           [[txt "x.md"]] [] 22 40 (Demo.at_repo "a.tpl.md") (Demo.at_repo "a.md") 20
           (mkState Demo.hello_files {[ [txt "repo"; txt "a.tpl.md"] ]} [[txt "x.md"]])
           (Demo.start Demo.hello_files));
    [lia|lia|reflexivity|reflexivity|reflexivity].
Defined.

Section Chain.

Variable cwd : list text.
Variable snippets_dir : Path.
Variable variables : gmap text text.

Local Abbreviation render_template := (render_template cwd snippets_dir variables).
Local Abbreviation include_chain := (include_chain cwd snippets_dir).
Local Abbreviation output_ok := (output_ok cwd).

Lemma single_include_scan src rel :
  single_include src = Some rel → scan INCLUDE_RE src = [TMatch rel].
Proof.
  unfold single_include. destruct (scan INCLUDE_RE src) as [|[c|g] [|t ts]]; try done.
  by intros [= ->].
Qed.

Lemma include_chain_cons files p q rest leaf :
  include_chain files p (q :: rest) leaf = true →
  ∃ src rel out_q rel_q,
    files !! canonical cwd p = Some src
    ∧ scan INCLUDE_RE src = [TMatch rel]
    ∧ resolve_include_path cwd p (strip rel) snippets_dir = q
    ∧ contains tpl_marker (name q) = true
    ∧ with_name q (str_replace tpl_marker (txt ".") (name q)) = Ok out_q
    ∧ relative_to out_q cwd = Some rel_q
    ∧ include_chain files q rest leaf = true.
Proof.
  simpl. destruct (files !! canonical cwd p) as [src|]; [|done].
  destruct (single_include src) as [rel|] eqn:E; [|done].
  intros H. apply andb_prop in H as [H Hrest].
  apply andb_prop in H as [H Hout]. apply andb_prop in H as [Hq Htpl].
  apply bool_decide_eq_true in Hq. unfold output_ok in Hout.
  destruct (with_name q _) as [o|] eqn:Ew; [|done].
  apply bool_decide_eq_true in Hout as [rq Hrq].
  exists src, rel, o, rq. by repeat split; try apply single_include_scan.
Qed.

Lemma include_chain_leaf files rest :
  ∀ p leaf, include_chain files p rest leaf = true → plain leaf = true.
Proof.
  induction rest as [|q rest IH]; intros p leaf H.
  - simpl in H. by apply andb_prop in H as [_ ?].
  - apply include_chain_cons in H as (? & ? & ? & ? & _ & _ & _ & _ & _ & _ & H).
    by eapply IH.
Qed.

Lemma substitute_variables_plain tp s st :
  scan VAR_RE s = map TLit s →
  substitute_variables variables tp s st = (Ok s, st).
Proof.
  intros H. unfold substitute_variables, re_sub. rewrite H. apply sub_tokens_lits.
Qed.

Lemma chain_renders max_depth leaf :
  ∀ rest p out rel_out sa depth st fuel,
    include_chain (fs st) p rest leaf = true →
    NoDup (canonical cwd <$> p :: rest) →
    (∀ k, k ∈ (canonical cwd <$> p :: rest) → k ∉ seen_after sa st) →
    relative_to out cwd = Some rel_out →
    depth + length rest ≤ max_depth →
    length rest < fuel →
    ∃ st', render_template fuel p out sa depth max_depth st = (Ok tt, st')
           ∧ fs st' !! canonical cwd out = Some leaf.
Proof.
  induction rest as [|q rest IH];
    intros p out rel_out sa depth st [|fuel] Hch Hnd Hseen Hrel Hd Hf;
    simpl in Hf; try lia.
  - (* the last document of the chain *)
    simpl in Hch. apply andb_prop in Hch as [Hsrc Hpl].
    apply bool_decide_eq_true in Hsrc. apply andb_prop in Hpl as [Hi Hv].
    apply bool_decide_eq_true in Hi. apply bool_decide_eq_true in Hv.
    cbn [render_template].
    replace (max_depth <? depth)%nat with false
      by (symmetry; apply Nat.ltb_ge; simpl in Hd; lia).
    destruct (init_seen sa st) as [r1 st1] eqn:E1.
    destruct (init_seen_inv _ _ _ _ E1) as (-> & Hf1 & Ho1 & Hs1).
    erewrite bind_Ok by exact E1.
    destruct (check_and_add_seen cwd p st1) as [r2 st2] eqn:E2.
    destruct (check_and_add_seen_inv _ _ _ _ _ E2) as (Hf2 & Ho2 & H2).
    destruct r2 as [[]|e].
    2:{ destruct H2 as (Hin & _). exfalso. rewrite Hs1 in Hin.
        eapply Hseen; [|exact Hin]. simpl. left. }
    erewrite bind_Ok by exact E2.
    erewrite bind_Ok; [|unfold read_text; by rewrite Hf2, Hf1, Hsrc].
    erewrite bind_Ok;
      [|unfold expand_includes, re_sub; rewrite Hi; apply sub_tokens_lits].
    erewrite bind_Ok by (by apply substitute_variables_plain).
    erewrite bind_Ok by reflexivity.
    unfold print_wrote. rewrite Hrel. eexists. split; [reflexivity|].
    simpl. apply lookup_insert_eq.
  - (* a document that includes the next one *)
    apply include_chain_cons in Hch
      as (src & rel & out_q & rel_q & Hsrc & Hscan & Hq & Htpl & Hw & Hrq & Hch).
    cbn [render_template].
    replace (max_depth <? depth)%nat with false
      by (symmetry; apply Nat.ltb_ge; simpl in Hd; lia).
    destruct (init_seen sa st) as [r1 st1] eqn:E1.
    destruct (init_seen_inv _ _ _ _ E1) as (-> & Hf1 & Ho1 & Hs1).
    erewrite bind_Ok by exact E1.
    destruct (check_and_add_seen cwd p st1) as [r2 st2] eqn:E2.
    destruct (check_and_add_seen_inv _ _ _ _ _ E2) as (Hf2 & Ho2 & H2).
    destruct r2 as [[]|e].
    2:{ destruct H2 as (Hin & _). exfalso. rewrite Hs1 in Hin.
        eapply Hseen; [|exact Hin]. simpl. left. }
    destruct H2 as [_ Hs2].
    erewrite bind_Ok by exact E2.
    erewrite bind_Ok; [|unfold read_text; by rewrite Hf2, Hf1, Hsrc].
    (* the nested call *)
    destruct (IH q out_q rel_q (Some tt) (depth + 1) st2 fuel)
      as (st3 & Hrun & Hout); try done.
    { by rewrite Hf2, Hf1. }
    { by inversion Hnd. }
    { intros k Hk. simpl. rewrite Hs2, Hs1. intros [Hin|Hin]%elem_of_union.
      - apply elem_of_singleton in Hin. subst k. by inversion Hnd.
      - eapply Hseen; [|exact Hin]. by right. }
    { simpl in Hd. lia. }
    { lia. }
    erewrite bind_Ok.
    2:{ unfold expand_includes, re_sub. rewrite Hscan. simpl.
        erewrite bind_Ok.
        2:{ unfold _include_repl. rewrite Hq, Htpl. rewrite Hw.
            erewrite bind_Ok by reflexivity.
            erewrite bind_Ok by exact Hrun.
            unfold read_text. by rewrite Hout. }
        reflexivity. }
    rewrite app_nil_r.
    apply include_chain_leaf in Hch. apply andb_prop in Hch as [_ Hv].
    apply bool_decide_eq_true in Hv.
    erewrite bind_Ok by (by apply substitute_variables_plain).
    erewrite bind_Ok by reflexivity.
    unfold print_wrote. rewrite Hrel. eexists. split; [reflexivity|].
    simpl. apply lookup_insert_eq.
Qed.

Lemma chain_too_deep max_depth leaf :
  ∀ rest p out sa depth st fuel,
    include_chain (fs st) p rest leaf = true →
    NoDup (canonical cwd <$> p :: rest) →
    (∀ k, k ∈ (canonical cwd <$> p :: rest) → k ∉ seen_after sa st) →
    max_depth < depth + length rest →
    depth ≤ max_depth + 1 →
    max_depth + 2 ≤ fuel + depth →
    ∃ q st', (p :: rest) !! (max_depth + 1 - depth) = Some q
      ∧ render_template fuel p out sa depth max_depth st
        = (Err (DepthExceeded max_depth q), st')
      ∧ fs st' = fs st.
Proof.
  induction rest as [|q rest IH];
    intros p out sa depth st [|fuel] Hch Hnd Hseen Hd Hd' Hf; try lia.
  - (* the chain ends here, so this level is already too deep *)
    simpl in Hd. assert (depth = max_depth + 1) as -> by lia.
    cbn [render_template].
    replace (max_depth <? max_depth + 1)%nat with true
      by (symmetry; apply Nat.ltb_lt; lia).
    exists p, st. rewrite Nat.sub_diag. done.
  - cbn [render_template].
    destruct (max_depth <? depth)%nat eqn:Hlt.
    { apply Nat.ltb_lt in Hlt. assert (depth = max_depth + 1) as -> by lia.
      exists p, st. rewrite Nat.sub_diag. done. }
    apply Nat.ltb_ge in Hlt.
    apply include_chain_cons in Hch
      as (src & rel & out_q & rel_q & Hsrc & Hscan & Hq & Htpl & Hw & Hrq & Hch).
    destruct (init_seen sa st) as [r1 st1] eqn:E1.
    destruct (init_seen_inv _ _ _ _ E1) as (-> & Hf1 & Ho1 & Hs1).
    erewrite bind_Ok by exact E1.
    destruct (check_and_add_seen cwd p st1) as [r2 st2] eqn:E2.
    destruct (check_and_add_seen_inv _ _ _ _ _ E2) as (Hf2 & Ho2 & H2).
    destruct r2 as [[]|e].
    2:{ destruct H2 as (Hin & _). exfalso. rewrite Hs1 in Hin.
        eapply Hseen; [|exact Hin]. simpl. left. }
    destruct H2 as [_ Hs2].
    erewrite bind_Ok by exact E2.
    erewrite bind_Ok; [|unfold read_text; by rewrite Hf2, Hf1, Hsrc].
    assert (Hch' : include_chain (fs st2) q rest leaf = true)
      by (by rewrite Hf2, Hf1).
    assert (Hnd' : NoDup (canonical cwd <$> q :: rest)) by (by inversion Hnd).
    assert (Hseen' : ∀ k, k ∈ (canonical cwd <$> q :: rest) →
                          k ∉ seen_after (Some tt) st2).
    { intros k Hk. simpl. rewrite Hs2, Hs1. intros [Hin|Hin]%elem_of_union.
      - apply elem_of_singleton in Hin. subst k. by inversion Hnd.
      - eapply Hseen; [|exact Hin]. by right. }
    simpl in Hd.
    destruct (IH q out_q (Some tt) (depth + 1) st2 fuel Hch' Hnd' Hseen'
                ltac:(lia) ltac:(lia) ltac:(lia))
      as (q' & st3 & Hq' & Hrun & Hfs).
    exists q', st3. split.
    { replace (max_depth + 1 - depth) with (S (max_depth + 1 - (depth + 1))) by lia.
      exact Hq'. }
    split; [|by rewrite Hfs, Hf2, Hf1].
    erewrite bind_Err; [reflexivity|].
    unfold expand_includes, re_sub. rewrite Hscan. simpl.
    erewrite bind_Err; [reflexivity|].
    unfold _include_repl. rewrite Hq, Htpl, Hw.
    erewrite bind_Ok by reflexivity.
    erewrite bind_Err; [reflexivity|exact Hrun].
Qed.


(** ** Undefined variables *)

Local Abbreviation render_includes := (render_includes cwd snippets_dir variables).

Lemma render_template_unfold fuel tp out sa depth max_depth st :
  depth ≤ max_depth →
  render_template (S fuel) tp out sa depth max_depth st =
  (let* rendered := render_includes fuel tp sa depth max_depth in
   let* rendered := substitute_variables variables tp rendered in
   do write_text cwd out rendered then print_wrote cwd out) st.
Proof.
  intros Hd. cbn [render_template].
  replace (max_depth <? depth)%nat with false
    by (symmetry; apply Nat.ltb_ge; lia).
  unfold render_includes, bind.
  destruct (init_seen sa st) as [[?|?] st1]; [|reflexivity].
  destruct (check_and_add_seen cwd tp st1) as [[?|?] st2]; [|reflexivity].
  destruct (read_text cwd tp st2) as [[src|?] st3]; [|reflexivity].
  reflexivity.
Qed.

Lemma sub_tokens_first_undefined tp ts :
  (∀ g, TMatch g ∈ ts → strip g = g) →
  ∀ defined k rest st,
    omap (fun t => match t with TMatch g => Some g | TLit _ => None end) ts
      = defined ++ k :: rest →
    (∀ d, d ∈ defined → is_Some (variables !! d)) →
    variables !! k = None →
    sub_tokens (_var_repl variables tp) ts st = (Err (UndefinedVariable k tp), st).
Proof.
  induction ts as [|[c|g] ts IH]; intros Hstrip defined k rest st Hg Hdef Hk.
  - by destruct defined.
  - simpl in *. erewrite bind_Err; [reflexivity|]. eapply IH; try done.
    intros g Hin. apply Hstrip. by right.
  - simpl in Hg. simpl. unfold _var_repl at 1.
    rewrite (Hstrip g) by left.
    destruct defined as [|d defined]; simpl in Hg; injection Hg as -> Hg.
    + rewrite Hk. reflexivity.
    + destruct (Hdef d) as [v Hv]; [left|]. rewrite Hv.
      erewrite bind_Ok by reflexivity.
      erewrite bind_Err; [reflexivity|]. eapply IH; try done.
      * intros g Hin. apply Hstrip. by right.
      * intros d' Hd'. apply Hdef. by right.
Qed.

Lemma substitute_variables_undefined tp s defined k rest st :
  var_markers s = defined ++ k :: rest →
  (∀ d, d ∈ defined → is_Some (variables !! d)) →
  variables !! k = None →
  substitute_variables variables tp s st = (Err (UndefinedVariable k tp), st).
Proof.
  intros Hm Hdef Hk. unfold substitute_variables, re_sub.
  eapply sub_tokens_first_undefined; try done.
  intros g Hin. apply scan_VAR_groups in Hin as [_ Hall]. by apply strip_name.
Qed.

Lemma groups_nil_scan re s :
  groups re s = [] → scan re s = map TLit s.
Proof.
  unfold groups. remember (length s) as n eqn:Hn. revert s Hn.
  induction n as [n IH] using lt_wf_ind. intros [|c l] Hn; [done|].
  rewrite scan_cons. destruct (re (c :: l)) as [[g len]|]; [done|].
  simpl. intros H. f_equal. eapply IH; [|reflexivity|exact H]. subst n. simpl. lia.
Qed.

(** C4. When the text of a document, with its includes expanded, holds a
    variable marker whose name the mapping does not define, the call
    fails with the error that names the first such variable and the
    document; the state it leaves is the one reached when the includes
    were expanded, so the call writes no file and prints no line of its
    own (for a document without include markers the store is the one the
    call started with). *)
Theorem C4_undefined_variable_aborts
    (fuel : nat) (tp out : Path) (sa : option unit) (depth max_depth : nat)
    (st st1 : state) (src rendered : text) (defined : list text) (k : text)
    (rest : list text) :
  depth ≤ max_depth →
  fs st !! canonical cwd tp = Some src →
  render_includes fuel tp sa depth max_depth st = (Ok rendered, st1) →
  var_markers rendered = defined ++ k :: rest →
  (∀ d, d ∈ defined → is_Some (variables !! d)) →
  variables !! k = None →
  render_template (S fuel) tp out sa depth max_depth st
    = (Err (UndefinedVariable k tp), st1)
  ∧ (groups INCLUDE_RE src = [] → rendered = src ∧ fs st1 = fs st).
Proof.
  intros Hd Hsrc Hinc Hm Hdef Hk. split.
  - rewrite render_template_unfold by done.
    erewrite bind_Ok by exact Hinc.
    erewrite bind_Err; [reflexivity|].
    by eapply substitute_variables_undefined.
  - intros Hg. apply groups_nil_scan in Hg.
    unfold render_includes in Hinc.
    apply bind_inv_Ok in Hinc as (? & s1 & H1 & Hinc).
    apply init_seen_inv in H1 as (_ & Hf1 & _).
    apply bind_inv_Ok in Hinc as (? & s2 & H2 & Hinc).
    apply check_and_add_seen_inv in H2 as (Hf2 & _).
    apply bind_inv_Ok in Hinc as (src' & ? & [-> Hr]%read_text_inv & Hinc).
    rewrite Hf2, Hf1, Hsrc in Hr. injection Hr as <-.
    unfold expand_includes, re_sub in Hinc. rewrite Hg, sub_tokens_lits in Hinc.
    injection Hinc as <- <-. by rewrite Hf2, Hf1.
Qed.

(** ** Output files of included templates *)


End Chain.

(** * Paths *)

Lemma resolve_step_dot stk c : is_empty_or_dot c = true → resolve_step stk c = stk.
Proof.
  intros H. unfold resolve_step. rewrite H.
  case_bool_decide as Hc; [|done]. subst c. vm_compute in H. discriminate.
Qed.

Lemma resolve_step_real stk c : is_real c = true → resolve_step stk c = c :: stk.
Proof.
  unfold is_real, resolve_step. intros [H1 H2]%andb_prop.
  apply negb_true_iff in H1, H2. by rewrite H2, H1.
Qed.

Lemma resolve_step_up stk : resolve_step stk dotdot = tail stk.
Proof. reflexivity. Qed.

Lemma component_cases c :
  c = dotdot ∨ is_empty_or_dot c = true ∨ is_real c = true.
Proof.
  unfold is_real. destruct (decide (c = dotdot)) as [->|Hc]; [by left|].
  right. rewrite (bool_decide_eq_false_2 _ Hc).
  destruct (is_empty_or_dot c); [by left|by right].
Qed.

Lemma normalise_same_place l1 l2 :
  same_place l1 l2 → normalise l1 = normalise l2.
Proof.
  unfold normalise. induction 1 as [| | |pre c post Hc|pre d post Hd|post];
    try congruence.
  - rewrite !fold_left_app. cbn [fold_left]. by rewrite resolve_step_dot.
  - rewrite !fold_left_app. cbn [fold_left].
    rewrite (resolve_step_real _ d) by done. by rewrite resolve_step_up.
  - cbn [fold_left]. by rewrite resolve_step_up.
Qed.

Lemma same_place_walk l :
  ∀ stk, forallb is_real stk = true →
    same_place (rev stk ++ l) (rev (fold_left resolve_step l stk))
    ∧ forallb is_real (fold_left resolve_step l stk) = true.
Proof.
  induction l as [|c l IH]; intros stk Hstk; cbn [fold_left].
  - rewrite app_nil_r. split; [constructor|done].
  - destruct (component_cases c) as [->|[Hc|Hc]].
    + rewrite resolve_step_up. destruct stk as [|d stk]; simpl.
      * destruct (IH [] eq_refl) as [IH1 IH2]. split; [|done].
        eapply sp_trans; [apply sp_root_up|exact IH1].
      * simpl in Hstk. apply andb_prop in Hstk as [Hd Hstk].
        destruct (IH stk Hstk) as [IH1 IH2]. split; [|done].
        rewrite <- app_assoc. simpl.
        eapply sp_trans; [by apply sp_up|exact IH1].
    + rewrite resolve_step_dot by done.
      destruct (IH stk Hstk) as [IH1 IH2]. split; [|done].
      eapply sp_trans; [by apply sp_dot|exact IH1].
    + rewrite resolve_step_real by done.
      destruct (IH (c :: stk)) as [IH1 IH2]; [by simpl; rewrite Hc|].
      split; [|done]. simpl in IH1. by rewrite <- app_assoc in IH1.
Qed.

Lemma same_place_normalise l : same_place l (normalise l).
Proof. by destruct (same_place_walk l [] eq_refl). Qed.

Lemma normalise_real l : forallb is_real (normalise l) = true.
Proof.
  unfold normalise. destruct (same_place_walk l [] eq_refl) as [_ H].
  rewrite forallb_forall in *. intros c Hc. apply H. by apply in_rev.
Qed.

Lemma fold_resolve_step_real l :
  forallb is_real l = true →
  ∀ stk, fold_left resolve_step l stk = rev l ++ stk.
Proof.
  induction l as [|c l IH]; intros Hl stk; [done|].
  simpl in *. apply andb_prop in Hl as [Hc Hl].
  rewrite resolve_step_real, IH by done. by rewrite <- app_assoc.
Qed.

(** A normalised path is left as it is. *)
Lemma normalise_idem l : normalise (normalise l) = normalise l.
Proof.
  unfold normalise at 1. rewrite fold_resolve_step_real by apply normalise_real.
  by rewrite app_nil_r, rev_involutive.
Qed.

Lemma resolve_parts cwd p : parts (resolve cwd p) = normalise (from_root cwd p).
Proof. reflexivity. Qed.

Lemma resolve_include_path_target cwd cur rel snip :
  resolve_include_path cwd cur rel snip
  = resolve cwd (include_target cur rel snip).
Proof.
  unfold resolve_include_path, include_target. by destruct (strip_prefix _ _).
Qed.


(** * Variable precedence *)

Lemma load_var_args_lookup var_args :
  ∀ acc m k, load_var_args var_args acc = Ok m →
    m !! k = match cli_value var_args k with
             | Some v => Some v
             | None => acc !! k
             end.
Proof.
  induction var_args as [|arg rest IH]; intros acc m k; simpl.
  - by intros [= ->].
  - destruct (split_once "=" arg) as [[k' v]|]; [|done].
    intros H. rewrite (IH _ _ k H).
    destruct (cli_value rest k); [done|].
    case_bool_decide as Hk.
    + subst k'. by rewrite lookup_insert_eq.
    + by rewrite lookup_insert_ne.
Qed.

Lemma foldl_insert_lookup (items : list (text * text)) :
  ∀ (acc : gmap text text) k,
    foldl (fun m kv => <[kv.1 := kv.2]> m) acc items !! k
    = match file_value items k with
      | Some v => Some v
      | None => acc !! k
      end.
Proof.
  induction items as [|[k' v] rest IH]; intros acc k; simpl; [done|].
  rewrite IH. destruct (file_value rest k); [done|].
  case_bool_decide as Hk.
  - subst k'. by rewrite lookup_insert_eq.
  - by rewrite lookup_insert_ne.
Qed.

Lemma dict_of_items_lookup items k :
  dict_of_items items !! k = file_value items k.
Proof.
  unfold dict_of_items. rewrite foldl_insert_lookup, lookup_empty.
  by destruct (file_value items k).
Qed.

Lemma dict_update_lookup (d other : gmap text text) (k : text) :
  dict_update d other !! k
  = match other !! k with Some v => Some v | None => d !! k end.
Proof.
  unfold dict_update. rewrite lookup_union.
  by destruct (other !! k), (d !! k).
Qed.

Lemma setdefault_lookup (k0 v : text) (d : gmap text text) (k : text) :
  setdefault k0 v d !! k
  = match d !! k with
    | Some x => Some x
    | None => if bool_decide (k = k0) then Some v else None
    end.
Proof.
  unfold setdefault. destruct (d !! k0) as [x|] eqn:E.
  - destruct (d !! k) eqn:E'; [done|]. case_bool_decide; [|done]. congruence.
  - case_bool_decide as Hk.
    + subst k. by rewrite lookup_insert_eq, E.
    + rewrite lookup_insert_ne by done. by destruct (d !! k).
Qed.

Lemma load_vars_lookup var_args vars_file user_vars k :
  load_vars var_args vars_file = Ok user_vars →
  user_vars !! k = match file_value (file_items vars_file) k with
                   | Some v => Some v
                   | None => cli_value var_args k
                   end.
Proof.
  unfold load_vars, file_items.
  destruct (load_var_args var_args ∅) as [acc|e] eqn:E; [|done].
  pose proof (load_var_args_lookup _ _ _ k E) as Hacc.
  rewrite lookup_empty in Hacc.
  assert (Hcli : acc !! k = cli_value var_args k).
  { rewrite Hacc. by destruct (cli_value var_args k). }
  destruct vars_file as [vf|]; [|by intros [= <-]].
  case_bool_decide; [by intros [= <-]|].
  destruct (vf_exists vf); [|done]. simpl.
  destruct (_ || _).
  - destruct (vf_parsed vf) as [items| |]; try done; intros [= <-].
    + by rewrite dict_update_lookup, dict_of_items_lookup, Hcli.
    + by rewrite dict_update_lookup, dict_of_items_lookup, Hcli.
  - case_bool_decide; [|done].
    destruct (vf_parsed vf) as [items| |]; try done; intros [= <-].
    by rewrite dict_update_lookup, dict_of_items_lookup, Hcli.
Qed.

Lemma merge_vars_lookup user_vars env cv k :
  merge_vars user_vars env cv !! k
  = match user_vars !! k with
    | Some v => Some v
    | None => computed_default env cv k
    end.
Proof.
  unfold merge_vars, computed_default. rewrite !setdefault_lookup.
  destruct (user_vars !! k); [done|].
  repeat case_bool_decide; try done; subst;
    match goal with H : txt _ = txt _ |- _ => vm_compute in H; discriminate H end.
Qed.

(** C1, as the code has it.  For every key the merged mapping holds the
    value of the variables file when the file defines the key, else the
    value of the command line when a [--var] argument defines it, else the
    computed default ([repo_name], [branch_name], [version]), else
    nothing: the file takes precedence over the command line, and both
    over the computed defaults. *)
Theorem C1_precedence_file_cli_default
    (var_args : list text) (vars_file : option VarsFile)
    (user_vars env : gmap text text) (composer_version : option text) (k : text) :
  load_vars var_args vars_file = Ok user_vars →
  merge_vars user_vars env composer_version !! k
  = match file_value (file_items vars_file) k with
    | Some v => Some v
    | None =>
        match cli_value var_args k with
        | Some v => Some v
        | None => computed_default env composer_version k
        end
    end.
Proof.
  intros H. rewrite merge_vars_lookup, (load_vars_lookup _ _ _ k H).
  by destruct (file_value _ k).
Qed.

(** With [--var name=Ada] and a variables file that maps [name] to [Bob],
    the merged mapping holds [Bob]: the command line does not win. *)
Lemma C1_cli_does_not_override_file : ¬ cli_overrides_file.
Proof.
  intros H.
  specialize (H [txt "name=Ada"]
                (Some (mkVarsFile (txt "vars.json") true
                         (PyDict [(txt "name", txt "Bob")])))
                (<[txt "name" := txt "Bob"]> ∅) ∅ None (txt "name") (txt "Ada")).
  assert (Hl : merge_vars (<[txt "name" := txt "Bob"]> ∅) ∅ None !! txt "name"
               = Some (txt "Bob")) by (vm_compute; reflexivity).
  rewrite Hl in H. discriminate H; vm_compute; reflexivity.
Qed.

Lemma C1_precedence_witness :
  load_vars [txt "name=Ada"; txt "city=Paris"]
    (Some (mkVarsFile (txt "vars.json") true (PyDict [(txt "name", txt "Bob")])))
  = Ok (<[txt "city" := txt "Paris"]> (<[txt "name" := txt "Bob"]> ∅))
  ∧ merge_vars (<[txt "city" := txt "Paris"]> (<[txt "name" := txt "Bob"]> ∅))
      ∅ None !! txt "city"
    = match file_value (file_items
              (Some (mkVarsFile (txt "vars.json") true
                       (PyDict [(txt "name", txt "Bob")])))) (txt "city") with
      | Some v => Some v
      | None =>
          match cli_value [txt "name=Ada"; txt "city=Paris"] (txt "city") with
          | Some v => Some v
          | None => computed_default ∅ None (txt "city")
          end
      end.
Proof.
  assert (H : load_vars [txt "name=Ada"; txt "city=Paris"]
    (Some (mkVarsFile (txt "vars.json") true (PyDict [(txt "name", txt "Bob")])))
  = Ok (<[txt "city" := txt "Paris"]> (<[txt "name" := txt "Bob"]> ∅)))
    by (vm_compute; reflexivity).
  split; [exact H|].
  exact (C1_precedence_file_cli_default _ _ _ ∅ None (txt "city") H).
Defined.



(** C7. The example of the specification: [a.tpl.md] with the text
    [Hello {var:name}, see {file:snippets/b.md}], the snippet [b.md] with
    [World] and the variable [name=Ada].  The run of [main] over this one
    template succeeds, writes [Hello Ada, see World] to [a.md] and to no
    other new path, and prints the line for [a.md]. *)
Theorem C7_hello_example :
  let run :=
    main_loop Demo.cwd Demo.snippets_dir Demo.hello_vars
      [Demo.at_repo "a.tpl.md"] (Demo.start Demo.hello_files) in
  run.1 = Ok tt
  ∧ fs run.2 = <[ [txt "repo"; txt "a.md"] := txt "Hello Ada, see World" ]>
                 Demo.hello_files
  ∧ stdout run.2 = [[txt "a.md"]].
Proof. repeat split; vm_compute; reflexivity. Qed.

(** C2 on the code.  A document that includes the same template twice, the
    template including nothing, is rejected with the cycle error at the
    second marker, although nothing is cyclic: the path of the first
    include is still in [seen] when the second is reached.  With one
    marker only the same document renders. *)
Theorem C2_second_sibling_include_aborts :
  (render_top Demo.cwd Demo.snippets_dir ∅ (Demo.at_repo "a.tpl.md")
     (Demo.start Demo.twice_files)).1
  = Err (CyclicInclude (Demo.at_repo "b.tpl.md"))
  ∧ (render_top Demo.cwd Demo.snippets_dir ∅ (Demo.at_repo "a.tpl.md")
       (Demo.start Demo.once_files)).1
    = Ok tt.
Proof. split; vm_compute; reflexivity. Qed.


Lemma C4_undefined_variable_witness :
  render_template Demo.cwd Demo.snippets_dir Demo.hello_vars 1
    (Demo.at_repo "a.tpl.md") (Demo.at_repo "a.md") None 0 20
    (Demo.start Demo.undefined_files)
  = (Err (UndefinedVariable (txt "town") (Demo.at_repo "a.tpl.md")),
     mkState Demo.undefined_files {[ [txt "repo"; txt "a.tpl.md"] ]} [])
  ∧ (groups INCLUDE_RE (txt "Hi {var:name} from {var:town}") = [] →
     txt "Hi {var:name} from {var:town}" = txt "Hi {var:name} from {var:town}"
     ∧ fs (mkState Demo.undefined_files {[ [txt "repo"; txt "a.tpl.md"] ]} [])
       = fs (Demo.start Demo.undefined_files)).
Proof.
  apply (C4_undefined_variable_aborts Demo.cwd Demo.snippets_dir Demo.hello_vars
           0 (Demo.at_repo "a.tpl.md") (Demo.at_repo "a.md") None 0 20
           (Demo.start Demo.undefined_files)
           (mkState Demo.undefined_files {[ [txt "repo"; txt "a.tpl.md"] ]} [])
           (txt "Hi {var:name} from {var:town}")
           (txt "Hi {var:name} from {var:town}")
           [txt "name"] (txt "town") []).
  - lia.
  - vm_compute; reflexivity.
  - vm_compute; reflexivity.
  - vm_compute; reflexivity.
  - intros d Hd. apply list_elem_of_singleton in Hd. subst d.
    vm_compute. eexists; reflexivity.
  - vm_compute; reflexivity.
Defined.


Lemma C10_malformed_marker_witness :
  substitute_variables ∅ (Demo.at_repo "a.tpl.md")
    (txt "a " ++ txt "{var:" ++ txt "my var" ++ txt "}" ++ txt " b")
    (Demo.start ∅)
  = (Ok (txt "a {var:my var} b"), Demo.start ∅).
Proof.
  destruct (C10_malformed_marker_is_copied ∅ (Demo.at_repo "a.tpl.md")
              (txt "a ") (txt "my var") (txt " b") (Demo.start ∅)) as [H _].
  - vm_compute; reflexivity.
  - apply (bool_decide_unpack _). vm_compute. exact I.
  - apply (bool_decide_unpack _). vm_compute. exact I.
  - rewrite H. vm_compute. reflexivity.
Defined.

(** * The media upload *)

Module ShopwareFacts.
Import Shopware.

Section Facts.

Variable server : Type.
Variable handle : request → server → response * server.

Local Abbreviation C := (C server).
Local Abbreviation world := (world server).
Local Abbreviation cbind := (cbind server).
Local Abbreviation post := (post server handle).
Local Abbreviation token := (token server handle).
Local Abbreviation upload_media := (upload_media server handle).
Local Abbreviation search_media_by_name := (search_media_by_name server handle).

Lemma after_nil (w : world) : after w [] w.
Proof. unfold after. by rewrite app_nil_r. Qed.

Lemma after_app (w : world) l1 (w1 : world) l2 (w2 : world) :
  after w l1 w1 → after w1 l2 w2 → after w (l1 ++ l2) w2.
Proof. unfold after. intros H1 H2. by rewrite H2, H1, app_assoc. Qed.

Ltac solve_after :=
  unfold after in *;
  repeat match goal with
         | H : exchanges _ ?w' = _ |- context [exchanges _ ?w'] =>
             rewrite H; clear H
         end;
  rewrite <- ?app_assoc; simpl; rewrite <- ?app_assoc; reflexivity.

Lemma cbind_inv {A B} (m : C A) (f : A → C B) w r w' :
  cbind m f w = (r, w') →
  (∃ e, m w = (inl e, w') ∧ r = inl e)
  ∨ (∃ a w1, m w = (inr a, w1) ∧ f a w1 = (r, w')).
Proof.
  unfold Shopware.cbind. destruct (m w) as [[e|a] w1]; [|by eauto].
  intros [= <- <-]. left. eauto.
Qed.

Lemma post_inv rq w r w' :
  post rq w = (r, w') → ∃ rs, r = inr rs ∧ after w [(rq, rs)] w'.
Proof.
  unfold Shopware.post. destruct (handle rq (remote server w)) as [rs srv'].
  intros [= <- <-]. by exists rs.
Qed.

Lemma token_inv w r w' :
  token w = (r, w') → ∃ new, after w new w' ∧ Forall is_token_request new.
Proof.
  unfold Shopware.token. destruct (truthy (_token server w)).
  { intros [= _ <-]. exists []. split; [apply after_nil|constructor]. }
  intros [(e & (? & ? & _)%post_inv & _)|(rs & w1 & (? & [= <-] & Hp)%post_inv & H)]%cbind_inv;
    [done|].
  exists [(ReqToken (client_id server w) (client_secret server w), rs)].
  split; [|by repeat constructor; eexists _, _].
  destruct (bool_decide _).
  - apply cbind_inv in H as [(e & [= _ <-] & _)|(? & w2 & [= _ <-] & [= _ <-])];
      exact Hp.
  - injection H as _ <-. exact Hp.
Qed.

Lemma token_of_new_record fresh_id l :
  Forall is_token_request l → Forall (of_new_record fresh_id) l.
Proof. intros H. eapply Forall_impl; [exact H|]. intros x Hx. by left. Qed.

(** The three ways a call of [upload_media] can go after the size check:
    it stops before or at the search; the search finds a record and the
    file is uploaded to it; the search finds none and a record is
    created. *)
Lemma upload_media_shape img repo_name fresh_id w r w' :
  upload_media img repo_name fresh_id w = (r, w') →
  content img ≠ [] →
  let ext := media_ext (file_path img) in
  let file_stem := media_file_stem (file_path img) repo_name in
  let mime := default (txt "application/octet-stream") (guessed_mime img) in
  (∃ t0, after w t0 w' ∧ Forall is_token_request t0 ∧ ∃ e, r = inl e)
  ∨ ∃ t0 tok rs,
      Forall is_token_request t0 ∧
      let search := (ReqSearchMedia tok file_stem (lower ext), rs) in
      (after w (t0 ++ [search]) w' ∧ status_code rs ≠ 200 ∧ ∃ e, r = inl e)
      ∨ (status_code rs = 200 ∧ ∃ eid t1 tok' rs',
           head (data_ids rs) = Some eid ∧ eid ≠ [] ∧
           Forall is_token_request t1 ∧
           ((after w (t0 ++ [search] ++ t1) w' ∧ ∃ e, r = inl e)
            ∨ (after w (t0 ++ [search] ++ t1 ++
                 [(ReqUpload tok' eid ext file_stem mime (length (content img))
                     (content img), rs')]) w'
               ∧ if is_in (status_code rs') [200; 204] then r = inr eid
                 else ∃ e, r = inl e)))
      ∨ (status_code rs = 200 ∧ truthy (head (data_ids rs)) = false ∧
         ∃ rest, after w (t0 ++ [search] ++ rest) w'
                 ∧ Forall (of_new_record fresh_id) rest).
Proof.
  intros Hrun Hne ext file_stem mime. unfold Shopware.upload_media in Hrun.
  fold ext file_stem mime in Hrun.
  case_bool_decide as Hsize; [by destruct (content img)|].
  apply cbind_inv in Hrun as [(e & Hs & ->)|(existing & w1 & Hs & Hrun)].
  { (* the search fails *)
    unfold Shopware.search_media_by_name in Hs.
    apply cbind_inv in Hs as [(e' & (t0 & A0 & F0)%token_inv & _)|(tok & w0 & (t0 & A0 & F0)%token_inv & Hs)].
    { left. exists t0. eauto. }
    apply cbind_inv in Hs as [(e' & (? & ? & _)%post_inv & _)|(rs & w0' & (? & [= <-] & Ap)%post_inv & Hs)];
      [done|].
    right. exists t0, tok, rs. split; [done|]. left.
    case_bool_decide as Hst; [done|]. injection Hs as _ <-.
    split; [solve_after|]. eauto. }
  unfold Shopware.search_media_by_name in Hs.
  apply cbind_inv in Hs as [(e' & _ & ?)|(tok & w0 & (t0 & A0 & F0)%token_inv & Hs)];
    [done|].
  apply cbind_inv in Hs as [(e' & _ & ?)|(rs & w0' & (? & [= <-] & Ap)%post_inv & Hs)];
    [done|].
  case_bool_decide as Hst; [|done]. injection Hs as <- <-.
  assert (A1 : after w (t0 ++ [(ReqSearchMedia tok file_stem (lower ext), rs)]) w0')
    by solve_after.
  right. exists t0, tok, rs. split; [done|]. right.
  destruct (truthy (head (data_ids rs))) eqn:Htr.
  - (* a record exists *)
    left. split; [done|].
    destruct (head (data_ids rs)) as [[|c eid]|] eqn:Hh; try done. simpl in Hrun.
    apply cbind_inv in Hrun as [(e & (t1 & A2 & F1)%token_inv & ->)|(tok' & w2 & (t1 & A2 & F1)%token_inv & Hrun)].
    { exists (c :: eid), t1, [], (mkResponse 0 [] [] []).
      repeat split; try done. left. split; [|by eauto].
      solve_after. }
    apply cbind_inv in Hrun as [(e & (? & ? & _)%post_inv & _)|(rs' & w3 & (? & [= <-] & Ap')%post_inv & Hrun)];
      [done|].
    assert (w' = w3) as ->
      by (by destruct (is_in (status_code rs') [200; 204]); injection Hrun).
    exists (c :: eid), t1, tok', rs'. repeat split; try done. right. split.
    + solve_after.
    + destruct (is_in (status_code rs') [200; 204]); injection Hrun as <-; eauto.
  - (* no record: create one *)
    right. split; [done|]. split; [done|].
    apply cbind_inv in Hrun as [(e & (t1 & A2 & F1)%token_inv & ->)|(tok1 & w2 & (t1 & A2 & F1)%token_inv & Hrun)].
    { exists t1. split; [solve_after|].
      by apply token_of_new_record. }
    apply cbind_inv in Hrun as [(e & (? & ? & _)%post_inv & _)|(r1 & w3 & (? & [= <-] & Ap1)%post_inv & Hrun)];
      [done|].
    pose (create := (ReqCreateMedia tok1 fresh_id, r1)).
    assert (Fc : of_new_record fresh_id create).
    { right. left. by eexists. }
    assert (A3 : after w (t0 ++ [(ReqSearchMedia tok file_stem (lower ext), rs)]
                          ++ t1 ++ [create]) w3).
    { solve_after. }
    assert (F3 : Forall (of_new_record fresh_id) (t1 ++ [create])).
    { apply Forall_app. split; [by apply token_of_new_record|by constructor]. }
    destruct (negb _).
    { injection Hrun as _ <-. by exists (t1 ++ [create]). }
    apply cbind_inv in Hrun as [(e & (t2 & A4 & F2)%token_inv & ->)|(tok2 & w4 & (t2 & A4 & F2)%token_inv & Hrun)].
    { exists ((t1 ++ [create]) ++ t2). split.
      - solve_after.
      - apply Forall_app. split; [done|by apply token_of_new_record]. }
    apply cbind_inv in Hrun as [(e & (? & ? & _)%post_inv & _)|(r2 & w5 & (? & [= <-] & Ap2)%post_inv & Hrun)];
      [done|].
    set (up := (ReqUpload tok2 fresh_id ext file_stem mime
                  (length (content img)) (content img), r2)) in *.
    assert (Fu : of_new_record fresh_id up).
    { right. right. by eexists _, _, _, _, _, _. }
    assert (A5 : after w (t0 ++ [(ReqSearchMedia tok file_stem (lower ext), rs)]
                          ++ ((t1 ++ [create]) ++ t2 ++ [up])) w5).
    { solve_after. }
    assert (F5 : Forall (of_new_record fresh_id) ((t1 ++ [create]) ++ t2 ++ [up])).
    { apply Forall_app. split; [done|]. apply Forall_app.
      split; [by apply token_of_new_record|by constructor]. }
    destruct (is_in (status_code r2) [200; 204]).
    { injection Hrun as _ <-. by eexists. }
    destruct (_ && _).
    2:{ injection Hrun as _ <-. by eexists. }
    apply cbind_inv in Hrun as [(e & (t3 & A6 & F6)%token_inv & ->)|(tok3 & w6 & (t3 & A6 & F6)%token_inv & Hrun)].
    { exists (((t1 ++ [create]) ++ t2 ++ [up]) ++ t3). split.
      - solve_after.
      - apply Forall_app. split; [done|by apply token_of_new_record]. }
    apply cbind_inv in Hrun as [(e & (? & ? & _)%post_inv & _)|(r3 & w7 & (? & [= <-] & Ap3)%post_inv & Hrun)];
      [done|].
    exists (((t1 ++ [create]) ++ t2 ++ [up]) ++ t3 ++
            [(ReqUpload tok3 fresh_id ext
                (file_stem ++ txt "-" ++ take 8 fresh_id) mime
                (length (content img)) (content img), r3)]).
    assert (w' = w7) as -> by (by destruct (is_in _ _); injection Hrun).
    split.
    + solve_after.
    + apply Forall_app. split; [done|]. apply Forall_app.
      split; [by apply token_of_new_record|]. constructor; [|done].
      right. right. by eexists _, _, _, _, _, _.
Qed.

Lemma after_inj (w : world) l1 l2 (w' : world) : after w l1 w' → after w l2 w' → l1 = l2.
Proof. unfold after. intros H1 H2. rewrite H1 in H2. by apply app_inv_head in H2. Qed.

Lemma token_requests_only l x :
  Forall is_token_request l → x ∈ l → ∃ a b, x.1 = ReqToken a b.
Proof. intros H Hin. rewrite Forall_forall in H. by apply H. Qed.

Lemma new_record_only fresh_id l x :
  Forall (of_new_record fresh_id) l → x ∈ l → of_new_record fresh_id x.
Proof. intros H Hin. rewrite Forall_forall in H. by apply H. Qed.

(** C8. In the exchanges of one call of [upload_media]: the search asks
    for the synthetic name (repository name, two underscores, file stem)
    and the lower-case extension.  When the search answers 200 with a
    first record whose identifier is not empty, no record is created,
    every upload of the call goes to that identifier with the bytes of
    the file, and a call that returns returns that identifier, after an
    upload the server answered with 200 or 204.  A record is created
    only with the fresh identifier and only after a search that answered
    200 without such a record. *)
Theorem C8_existing_media_is_reused
    (img : image) (repo_name fresh_id : text) (w w' : world)
    (r : sw_error + text) (new : list (request * response)) :
  upload_media img repo_name fresh_id w = (r, w') →
  after w new w' →
  let ext := media_ext (file_path img) in
  let file_stem := media_file_stem (file_path img) repo_name in
  let mime := default (txt "application/octet-stream") (guessed_mime img) in
  (∀ tok stem e resp,
     (ReqSearchMedia tok stem e, resp) ∈ new →
     stem = file_stem ∧ e = lower ext)
  ∧ (∀ tok stem e resp eid,
       (ReqSearchMedia tok stem e, resp) ∈ new →
       status_code resp = 200 → head (data_ids resp) = Some eid → eid ≠ [] →
       (∀ t id resp', (ReqCreateMedia t id, resp') ∉ new)
       ∧ (∀ t id e' f m s b resp',
            (ReqUpload t id e' f m s b, resp') ∈ new →
            id = eid ∧ e' = ext ∧ f = file_stem ∧ m = mime
            ∧ s = length (content img) ∧ b = content img)
       ∧ (∀ id, r = inr id →
            id = eid
            ∧ ∃ t resp',
                last new = Some (ReqUpload t eid ext file_stem mime
                                   (length (content img)) (content img), resp')
                ∧ is_in (status_code resp') [200; 204] = true))
  ∧ (∀ t id resp',
       (ReqCreateMedia t id, resp') ∈ new →
       id = fresh_id
       ∧ ∃ tok resp,
           (ReqSearchMedia tok file_stem (lower ext), resp) ∈ new
           ∧ status_code resp = 200 ∧ truthy (head (data_ids resp)) = false).
Proof.
  intros Hrun Hnew ext file_stem mime.
  destruct (decide (content img = [])) as [Hempty|Hne].
  { (* an empty file: the call stops before any request *)
    unfold Shopware.upload_media in Hrun. rewrite Hempty in Hrun. simpl in Hrun.
    injection Hrun as <- <-.
    assert (new = []) as -> by (by eapply after_inj; [|apply after_nil]).
    split; [by intros ? ? ? ? ?%elem_of_nil|].
    split; [by intros ? ? ? ? ? ?%elem_of_nil|by intros ? ? ? ?%elem_of_nil]. }
  destruct (upload_media_shape _ _ _ _ _ _ Hrun Hne)
    as [(t0 & A & F0 & err & ->)
       |(t0 & tok0 & rs & F0 &
          [(A & Hst & err & ->)
          |[(Hst & eid0 & t1 & tok' & rs' & Hh & Heid & F1 & Hcase)
           |(Hst & Htr & rest & A & Frest)]])].
  - (* only token requests *)
    rewrite (after_inj _ _ _ _ Hnew A).
    split; [|split].
    + intros ? ? ? ? (? & ? & ?)%(token_requests_only _ _ F0). done.
    + intros ? ? ? ? ? (? & ? & ?)%(token_requests_only _ _ F0). done.
    + intros ? ? ? (? & ? & ?)%(token_requests_only _ _ F0). done.
  - (* the search is refused *)
    rewrite (after_inj _ _ _ _ Hnew A).
    assert (Hsearch : ∀ tok stem e resp,
      (ReqSearchMedia tok stem e, resp) ∈ t0 ++ [(ReqSearchMedia tok0 file_stem (lower ext), rs)] →
      stem = file_stem ∧ e = lower ext ∧ resp = rs).
    { intros ? ? ? ? [(? & ? & ?)%(token_requests_only _ _ F0)|Hin]%elem_of_app; [done|].
      apply list_elem_of_singleton in Hin. by injection Hin as -> -> -> ->. }
    split; [|split].
    + intros ? ? ? ? (? & ? & _)%Hsearch. done.
    + intros ? ? ? ? ? (_ & _ & ->)%Hsearch. done.
    + intros ? ? ? [(? & ? & ?)%(token_requests_only _ _ F0)|Hin]%elem_of_app; [done|].
      by apply list_elem_of_singleton in Hin.
  - (* a record exists *)
    assert (Hshape : ∃ up, new = t0 ++ [(ReqSearchMedia tok0 file_stem (lower ext), rs)] ++ t1 ++ up
      ∧ (up = [] ∧ (∃ e, r = inl e)
         ∨ up = [(ReqUpload tok' eid0 ext file_stem mime
                    (length (content img)) (content img), rs')]
           ∧ if is_in (status_code rs') [200; 204] then r = inr eid0
             else ∃ e, r = inl e)).
    { destruct Hcase as [[A He]|[A Hr]].
      - exists []. split; [|by left]. rewrite app_nil_r.
        by rewrite (after_inj _ _ _ _ Hnew A).
      - eexists. split; [|by right]. by rewrite (after_inj _ _ _ _ Hnew A). }
    destruct Hshape as (up & -> & Hup).
    assert (Hsearch : ∀ tok stem e resp,
      (ReqSearchMedia tok stem e, resp)
        ∈ t0 ++ [(ReqSearchMedia tok0 file_stem (lower ext), rs)] ++ t1 ++ up →
      stem = file_stem ∧ e = lower ext ∧ resp = rs).
    { intros ? ? ? ? [(? & ? & ?)%(token_requests_only _ _ F0)|Hin]%elem_of_app; [done|].
      apply elem_of_app in Hin as [Hin|Hin].
      { apply list_elem_of_singleton in Hin. by injection Hin as -> -> -> ->. }
      apply elem_of_app in Hin as [(? & ? & ?)%(token_requests_only _ _ F1)|Hin]; [done|].
      destruct Hup as [[-> _]|[-> _]]; [by apply elem_of_nil in Hin|].
      by apply list_elem_of_singleton in Hin. }
    assert (Hcreate : ∀ t id resp',
      (ReqCreateMedia t id, resp')
        ∉ t0 ++ [(ReqSearchMedia tok0 file_stem (lower ext), rs)] ++ t1 ++ up).
    { intros ? ? ? [(? & ? & ?)%(token_requests_only _ _ F0)|Hin]%elem_of_app; [done|].
      apply elem_of_app in Hin as [Hin|Hin].
      { by apply list_elem_of_singleton in Hin. }
      apply elem_of_app in Hin as [(? & ? & ?)%(token_requests_only _ _ F1)|Hin]; [done|].
      destruct Hup as [[-> _]|[-> _]]; [by apply elem_of_nil in Hin|].
      by apply list_elem_of_singleton in Hin. }
    split; [|split].
    + intros ? ? ? ? (? & ? & _)%Hsearch. done.
    + intros tok stem e resp eid (_ & _ & ->)%Hsearch _ Hhead _.
      rewrite Hh in Hhead. injection Hhead as <-.
      split; [exact Hcreate|]. split.
      * intros ? ? ? ? ? ? ? ? [(? & ? & ?)%(token_requests_only _ _ F0)|Hin]%elem_of_app; [done|].
        apply elem_of_app in Hin as [Hin|Hin].
        { by apply list_elem_of_singleton in Hin. }
        apply elem_of_app in Hin as [(? & ? & ?)%(token_requests_only _ _ F1)|Hin]; [done|].
        destruct Hup as [[-> _]|[-> _]]; [by apply elem_of_nil in Hin|].
        apply list_elem_of_singleton in Hin. by injection Hin as -> -> -> -> -> -> -> ->.
      * intros id ->. destruct Hup as [[_ [err ?]]|[-> Hr]]; [done|].
        destruct (is_in (status_code rs') [200; 204]) eqn:Hok; [|by destruct Hr].
        injection Hr as ->. split; [done|]. exists tok', rs'. split; [|done].
        by rewrite !app_assoc, last_snoc.
    + intros t id resp' Hin. by apply Hcreate in Hin.
  - (* no record: one is created *)
    rewrite (after_inj _ _ _ _ Hnew A).
    assert (Hsearch : ∀ tok stem e resp,
      (ReqSearchMedia tok stem e, resp)
        ∈ t0 ++ [(ReqSearchMedia tok0 file_stem (lower ext), rs)] ++ rest →
      stem = file_stem ∧ e = lower ext ∧ resp = rs).
    { intros ? ? ? ? [(? & ? & ?)%(token_requests_only _ _ F0)|Hin]%elem_of_app; [done|].
      apply elem_of_app in Hin as [Hin|Hin].
      { apply list_elem_of_singleton in Hin. by injection Hin as -> -> -> ->. }
      apply (new_record_only _ _ _ Frest) in Hin
        as [(? & ? & ?)|[(? & ?)|(? & ? & ? & ? & ? & ? & ?)]]; done. }
    split; [|split].
    + intros ? ? ? ? (? & ? & _)%Hsearch. done.
    + intros tok stem e resp eid (_ & _ & ->)%Hsearch _ Hhead Heid.
      rewrite Hhead in Htr. by destruct eid.
    + intros t id resp' [(? & ? & ?)%(token_requests_only _ _ F0)|Hin]%elem_of_app; [done|].
      apply elem_of_app in Hin as [Hin|Hin].
      { by apply list_elem_of_singleton in Hin. }
      apply (new_record_only _ _ _ Frest) in Hin
        as [(? & ? & ?)|[(? & Heq)|(? & ? & ? & ? & ? & ? & ?)]]; try done.
      simpl in Heq. injection Heq as _ ->. split; [done|].
      exists tok0, rs. split; [|done]. apply elem_of_app. right. left.
Qed.

End Facts.

Lemma C8_existing_media_witness :
  ∃ w' new,
    upload_media (list DemoShop.media) DemoShop.handle DemoShop.shot
      (txt "MoorlFoo") (txt "ffff0000") DemoShop.shop = (inr (txt "0a1b"), w')
    ∧ after DemoShop.shop new w'
    ∧ remote _ w' = [(txt "0a1b", txt "MoorlFoo__shot", txt "png", txt "new bytes")]
    ∧ ∀ t id resp', (ReqCreateMedia t id, resp') ∉ new.
Proof.
  destruct (upload_media (list DemoShop.media) DemoShop.handle DemoShop.shot
              (txt "MoorlFoo") (txt "ffff0000") DemoShop.shop) as [r w'] eqn:Hrun.
  assert (Hr : r = inr (txt "0a1b")).
  { apply (f_equal fst) in Hrun. simpl in Hrun. rewrite <- Hrun.
    vm_compute. reflexivity. }
  assert (Hx : exchanges _ w' = exchanges _ DemoShop.shop ++ exchanges _ w').
  { reflexivity. }
  assert (Hrem : remote _ w'
                 = [(txt "0a1b", txt "MoorlFoo__shot", txt "png", txt "new bytes")]).
  { apply (f_equal snd) in Hrun. simpl in Hrun. rewrite <- Hrun.
    vm_compute. reflexivity. }
  subst r. exists w', (exchanges _ w').
  split; [reflexivity|]. split; [exact Hx|]. split; [exact Hrem|].
  destruct (C8_existing_media_is_reused (list DemoShop.media) DemoShop.handle
              DemoShop.shot (txt "MoorlFoo") (txt "ffff0000") DemoShop.shop w'
              (inr (txt "0a1b")) (exchanges _ w') Hrun Hx) as (_ & Hfound & _).
  assert (Hin : (ReqSearchMedia (txt "secret-token") (txt "MoorlFoo__shot")
                   (txt "png"), mkResponse 200 [] [] [txt "0a1b"])
                ∈ exchanges _ w').
  { apply (f_equal snd) in Hrun. simpl in Hrun. rewrite <- Hrun.
    vm_compute. right. left. }
  destruct (Hfound _ _ _ _ (txt "0a1b") Hin eq_refl eq_refl) as (Hnone & _).
  { vm_compute. discriminate. }
  exact Hnone.
Defined.

End ShopwareFacts.

(** * Further properties of the code *)

(** * More on scanning *)

Lemma scan_lossless (re : matcher) (opening : text) :
  (∀ s g len, re s = Some (g, len) →
     ∃ rest, s = opening ++ g ++ "}" :: rest ∧ len = length opening + length g + 1) →
  opening ≠ [] →
  ∀ s, concat (map (untoken opening) (scan re s)) = s.
Proof.
  intros Hre Hop s. remember (length s) as n eqn:Hn. revert s Hn.
  induction n as [n IH] using lt_wf_ind. intros [|c l] Hn; [reflexivity|].
  rewrite scan_cons. destruct (re (c :: l)) as [[g len]|] eqn:E.
  - destruct (Hre _ _ _ E) as (rest & Hs & ->).
    destruct opening as [|o opening]; [done|].
    simpl in Hs. injection Hs as -> ->.
    replace (length (o :: opening) + length g + 1 - 1)
      with (length (opening ++ g ++ ["}"]))
      by (rewrite !length_app; simpl; lia).
    replace (opening ++ g ++ "}" :: rest) with ((opening ++ g ++ ["}"]) ++ rest)
      by (by rewrite <- !app_assoc).
    rewrite drop_app_length. cbn [map concat untoken].
    rewrite (IH (length rest)); [by rewrite <- !app_assoc| |reflexivity].
    subst n. simpl. rewrite !length_app. simpl. lia.
  - simpl. f_equal. eapply IH; [|reflexivity]. subst n. simpl. lia.
Qed.

(** X1. Scanning loses nothing: writing every match back as its marker
    and every other character as it is gives the document again, for both
    patterns. *)
Theorem scan_gives_back_the_text (s : text) :
  concat (map (untoken (txt "{file:")) (scan INCLUDE_RE s)) = s
  ∧ concat (map (untoken (txt "{var:")) (scan VAR_RE s)) = s.
Proof.
  split; apply scan_lossless; try done.
  - intros s' g len H. destruct (INCLUDE_RE_Some _ _ _ H) as (rest & -> & -> & _).
    by exists rest.
  - intros s' g len H. destruct (VAR_RE_Some _ _ _ H) as (rest & -> & -> & _).
    by exists rest.
Qed.

(** * More on variable substitution *)

Lemma scan_VAR_marker k post :
  k ≠ [] → forallb is_name_char k = true →
  scan VAR_RE (txt "{var:" ++ k ++ txt "}" ++ post) = TMatch k :: scan VAR_RE post.
Proof.
  intros Hk Hall.
  change (txt "{var:" ++ k ++ txt "}" ++ post)
    with ("{" :: (txt "var:" ++ k ++ "}" :: post)).
  rewrite scan_cons.
  change ("{" :: (txt "var:" ++ k ++ "}" :: post))
    with (txt "{var:" ++ k ++ "}" :: post).
  rewrite VAR_RE_intro by done. f_equal.
  replace (5 + length k + 1 - 1) with (length (txt "var:" ++ k ++ ["}"]))
    by (rewrite !length_app; simpl; lia).
  replace (txt "var:" ++ k ++ "}" :: post) with ((txt "var:" ++ k ++ ["}"]) ++ post)
    by (by rewrite <- !app_assoc).
  by rewrite drop_app_length.
Qed.

(** X2. A marker [{var:k}] with a well-formed name the mapping defines is
    replaced by the value as it is: the value is not scanned again, and
    the text before and after the marker is handled as if it stood
    alone. *)
Theorem defined_variable_is_replaced
    (variables : gmap text text) (tp : Path) (pre k v post : text) (st : state) :
  k ≠ [] → forallb is_name_char k = true → variables !! k = Some v →
  substitute_variables variables tp (pre ++ txt "{var:" ++ k ++ txt "}" ++ post) st
  = (let* a := substitute_variables variables tp pre in
     let* b := substitute_variables variables tp post in
     ret (a ++ v ++ b)) st.
Proof.
  intros Hk Hall Hv. unfold substitute_variables, re_sub.
  change (txt "{var:" ++ k ++ txt "}" ++ post)
    with ("{" :: (txt "var:" ++ k ++ txt "}" ++ post)).
  rewrite scan_VAR_app_brace.
  change ("{" :: (txt "var:" ++ k ++ txt "}" ++ post))
    with (txt "{var:" ++ k ++ txt "}" ++ post).
  rewrite scan_VAR_marker by done.
  rewrite sub_tokens_app. unfold bind, ret.
  destruct (sub_tokens _ (scan VAR_RE pre) st) as [[a|e] st1]; [|done].
  simpl. unfold bind, ret, _var_repl. rewrite strip_name by done. rewrite Hv.
  unfold ret. simpl.
  by destruct (sub_tokens _ (scan VAR_RE post) st1) as [[b|e] st2].
Qed.

Lemma defined_variable_witness :
  substitute_variables {[ txt "a" := txt "{var:b}" ]} (mkPath true [txt "t.tpl.md"])
    (txt "x " ++ txt "{var:" ++ txt "a" ++ txt "}" ++ txt " y") (mkState ∅ ∅ [])
  = (Ok (txt "x {var:b} y"), mkState ∅ ∅ []).
Proof.
  rewrite (defined_variable_is_replaced {[ txt "a" := txt "{var:b}" ]}
             (mkPath true [txt "t.tpl.md"]) (txt "x ") (txt "a")
             (txt "{var:b}") (txt " y") (mkState ∅ ∅ []));
    [|by vm_compute|reflexivity|vm_compute; reflexivity].
  vm_compute. reflexivity.
Defined.

(** * White space around an include path *)

Lemma lstrip_spaces ws s : forallb is_space ws = true → lstrip (ws ++ s) = lstrip s.
Proof.
  induction ws as [|c ws IH]; [done|]. simpl.
  intros [Hc Hws]%andb_prop. rewrite Hc. by apply IH.
Qed.

Lemma lstrip_suffix s : ∃ ws, s = ws ++ lstrip s ∧ forallb is_space ws = true.
Proof.
  induction s as [|c s (ws & IH & Hws)]; [by exists []|]. simpl.
  destruct (is_space c) eqn:Hc.
  - exists (c :: ws). split; [by rewrite IH at 1|]. simpl. by rewrite Hc.
  - by exists [].
Qed.

Lemma lstrip_head s :
  match lstrip s with [] => True | c :: _ => is_space c = false end.
Proof.
  induction s as [|c s IH]; [done|]. simpl. destruct (is_space c) eqn:Hc; [done|].
  exact Hc.
Qed.

Lemma lstrip_app_keep s t :
  lstrip s ≠ [] → lstrip (s ++ t) = lstrip s ++ t.
Proof.
  induction s as [|c s IH]; [done|]. simpl.
  destruct (is_space c); [exact IH|done].
Qed.

Lemma lstrip_all_space s : lstrip s = [] → forallb is_space s = true.
Proof.
  induction s as [|c s IH]; [done|]. simpl. destruct (is_space c); [exact IH|done].
Qed.

Lemma rstrip_spaces s ws : forallb is_space ws = true → rstrip (s ++ ws) = rstrip s.
Proof.
  intros H. unfold rstrip. rewrite rev_app_distr. rewrite lstrip_spaces; [done|].
  rewrite forallb_forall in *. intros c Hc. apply H. by apply in_rev.
Qed.

(** The characters [rstrip] removes are white space, and it leaves
    nothing but white space behind it. *)
Lemma rstrip_prefix s : ∃ ws, s = rstrip s ++ ws ∧ forallb is_space ws = true.
Proof.
  unfold rstrip. destruct (lstrip_suffix (rev s)) as (ws & E & Hws).
  exists (rev ws). split.
  - rewrite <- (rev_involutive s) at 1. rewrite E at 1. by rewrite rev_app_distr.
  - rewrite forallb_forall in *. intros c Hc. apply Hws. by apply in_rev.
Qed.

Lemma lstrip_rstrip_comm s : lstrip (rstrip s) = rstrip (lstrip s).
Proof.
  destruct (lstrip_suffix s) as (wl & El & Hwl).
  destruct (rstrip_prefix (lstrip s)) as (wr & Er & Hwr).
  destruct (decide (lstrip s = [])) as [Hnil|Hne].
  - (* only white space *)
    rewrite Hnil. unfold rstrip at 2. simpl.
    assert (Hall : forallb is_space s = true) by (by apply lstrip_all_space).
    assert (Hr : rstrip s = []).
    { unfold rstrip. replace (lstrip (rev s)) with (@nil ascii); [done|].
      symmetry. rewrite <- (app_nil_r (rev s)). rewrite lstrip_spaces; [done|].
      rewrite forallb_forall in *. intros c Hc. apply Hall. by apply in_rev. }
    by rewrite Hr.
  - assert (Hs : s = wl ++ rstrip (lstrip s) ++ wr).
    { rewrite El at 1. by rewrite Er at 1. }
    assert (Hcore : rstrip (lstrip s) ≠ []).
    { intros Hnil. rewrite Hnil in Er. simpl in Er.
      pose proof (lstrip_head s) as Hh. rewrite Er in Hh.
      destruct wr as [|c wr]; [by rewrite Er in Hne|].
      simpl in Hwr. apply andb_prop in Hwr as [Hc _]. congruence. }
    rewrite Hs at 1. rewrite app_assoc, rstrip_spaces by done.
    assert (Hr : rstrip (wl ++ rstrip (lstrip s)) = wl ++ rstrip (lstrip s)).
    { unfold rstrip at 1. rewrite rev_app_distr.
      pose proof (lstrip_head (rev (lstrip s))) as Hh.
      unfold rstrip in *. 
      rewrite rev_involutive. rewrite lstrip_app_keep.
      - rewrite (lstrip_id (lstrip (rev (lstrip s)))); [|done].
        by rewrite rev_app_distr, !rev_involutive.
      - rewrite lstrip_id by done. intros Hnil. apply Hcore.
        by rewrite Hnil. }
    rewrite Hr, lstrip_spaces by done.
    apply lstrip_id. pose proof (lstrip_head s) as Hh. rewrite Er in Hh.
    destruct (rstrip (lstrip s)); [done|exact Hh].
Qed.

Lemma strip_spaces wl s wr :
  forallb is_space wl = true → forallb is_space wr = true →
  strip (wl ++ s ++ wr) = strip s.
Proof.
  intros Hl Hr. unfold strip. rewrite <- !lstrip_rstrip_comm.
  by rewrite app_assoc, rstrip_spaces, lstrip_rstrip_comm, lstrip_spaces,
    <- lstrip_rstrip_comm.
Qed.

(** X3. White space around the path of an include marker does not
    matter: [{file:  x  }] and [{file:x}] resolve to the same path. *)
Theorem include_path_ignores_outer_space
    (cwd : list text) (cur snip : Path) (wl rel wr : text) :
  forallb is_space wl = true → forallb is_space wr = true →
  resolve_include_path cwd cur (wl ++ rel ++ wr) snip
  = resolve_include_path cwd cur rel snip.
Proof.
  intros Hl Hr. unfold resolve_include_path. by rewrite strip_spaces.
Qed.

Lemma include_path_space_witness :
  resolve_include_path [txt "repo"] (mkPath true [txt "repo"; txt "a.tpl.md"])
    (txt "  " ++ txt "snippets/b.md" ++ txt " ") (mkPath true [txt "repo"; txt "s"])
  = mkPath true [txt "repo"; txt "s"; txt "b.md"].
Proof.
  rewrite (include_path_ignores_outer_space [txt "repo"]
             (mkPath true [txt "repo"; txt "a.tpl.md"])
             (mkPath true [txt "repo"; txt "s"]) (txt "  ") (txt "snippets/b.md")
             (txt " ")); [|reflexivity|reflexivity].
  vm_compute. reflexivity.
Defined.

(** * More on the variable mapping *)

Lemma split_once_Some sep s k v :
  split_once sep s = Some (k, v) → s = k ++ sep :: v ∧ sep ∉ k.
Proof.
  revert k. induction s as [|c s IH]; intros k; simpl; [done|].
  destruct (Ascii.eqb c sep) eqn:E.
  - apply Ascii.eqb_eq in E. subst c. intros [= <- <-]. split; [done|].
    apply not_elem_of_nil.
  - apply Ascii.eqb_neq in E.
    destruct (split_once sep s) as [[k' v']|]; [|done].
    intros [= <- <-]. destruct (IH k' eq_refl) as [-> Hk]. split; [done|].
    apply not_elem_of_cons. by split.
Qed.

Lemma split_once_None sep s : split_once sep s = None ↔ sep ∉ s.
Proof.
  induction s as [|c s IH]; simpl.
  - split; [intros _; apply not_elem_of_nil|done].
  - destruct (Ascii.eqb c sep) eqn:E.
    + apply Ascii.eqb_eq in E. subst c. split; [done|]. intros H. exfalso.
      apply H. left.
    + apply Ascii.eqb_neq in E. destruct (split_once sep s) as [[k v]|].
      * split; [done|]. intros H. exfalso. apply not_elem_of_cons in H as [_ H].
        by apply IH in H.
      * split; [|done]. intros _. apply not_elem_of_cons. split; [done|].
        by apply IH.
Qed.

Lemma split_once_app sep k v :
  sep ∉ k → split_once sep (k ++ sep :: v) = Some (k, v).
Proof.
  induction k as [|c k IH]; simpl; intros Hk.
  - by rewrite Ascii.eqb_refl.
  - apply not_elem_of_cons in Hk as [Hc Hk].
    destruct (Ascii.eqb c sep) eqn:E; [by apply Ascii.eqb_eq in E|].
    by rewrite IH.
Qed.

(** X4. A [--var] argument is cut at its first ["="]: the key is what
    stands before it, the value everything after it, further ["="]
    included; so [k=v] is read back as [k] and [v] whenever [k] holds no
    ["="], and after a successful [load_vars] without a variables file the
    last such argument for a key decides its value. *)
Theorem var_argument_round_trip (k v : text) (after_args : list text)
    (prior : list text) (m : gmap text text) :
  "=" ∉ k →
  (∀ arg, arg ∈ after_args → ∀ v', split_once "=" arg ≠ Some (k, v')) →
  load_vars (prior ++ (k ++ "=" :: v) :: after_args) None = Ok m →
  split_once "=" (k ++ "=" :: v) = Some (k, v) ∧ m !! k = Some v.
Proof.
  intros Hk Hafter Hload. split; [by apply split_once_app|].
  rewrite (load_vars_lookup _ _ _ k Hload). simpl.
  assert (Hcli : ∀ l, cli_value (l ++ (k ++ "=" :: v) :: after_args) k = Some v).
  { induction l as [|a l IH]; simpl.
    - assert (Hnone : cli_value after_args k = None).
      { clear Hload. induction after_args as [|a rest IHr]; [done|]. simpl.
        rewrite IHr by (intros; apply Hafter; by right).
        destruct (split_once "=" a) as [[k' v']|] eqn:E; [|done].
        case_bool_decide as Hk'; [|done]. subst k'.
        exfalso. eapply (Hafter a); [left|exact E]. }
      rewrite Hnone, split_once_app by done. by rewrite bool_decide_eq_true_2.
    - by rewrite IH. }
  apply Hcli.
Qed.

Lemma var_argument_witness :
  split_once "=" (txt "url" ++ "=" :: txt "https://x?a=b") =
    Some (txt "url", txt "https://x?a=b")
  ∧ (<[txt "url" := txt "https://x?a=b"]> (∅ : gmap text text)) !! txt "url"
    = Some (txt "https://x?a=b").
Proof.
  apply (var_argument_round_trip (txt "url") (txt "https://x?a=b") [] []).
  - apply (bool_decide_unpack _). vm_compute. exact I.
  - intros arg Hin. by apply elem_of_nil in Hin.
  - vm_compute. reflexivity.
Defined.

Lemma load_var_args_bad good :
  ∀ acc bad rest,
    (∀ a, a ∈ good → "=" ∈ a) → "=" ∉ bad →
    load_var_args (good ++ bad :: rest) acc = Err (InvalidVarFormat bad).
Proof.
  induction good as [|a good IH]; intros acc bad rest Hgood Hbad; simpl.
  - apply split_once_None in Hbad. by rewrite Hbad.
  - destruct (split_once "=" a) as [[k v]|] eqn:E.
    + apply IH; [|done]. intros a' Ha'. apply Hgood. by right.
    + apply split_once_None in E. exfalso. apply E, Hgood. left.
Qed.

(** X5. The first [--var] argument without ["="] stops [load_vars] with
    the format error for that argument, whatever the later arguments are
    and whatever the variables file is: it is not even looked at. *)
Theorem first_malformed_var_aborts
    (good : list text) (bad : text) (rest : list text)
    (vars_file : option VarsFile) :
  (∀ a, a ∈ good → "=" ∈ a) → "=" ∉ bad →
  load_vars (good ++ bad :: rest) vars_file = Err (InvalidVarFormat bad).
Proof.
  intros Hgood Hbad. unfold load_vars.
  by rewrite (load_var_args_bad good ∅ bad rest Hgood Hbad).
Qed.

Lemma first_malformed_var_witness :
  load_vars ([txt "a=1"] ++ txt "oops" :: [txt "b=2"])
    (Some (mkVarsFile (txt "missing.txt") false PyOther))
  = Err (InvalidVarFormat (txt "oops")).
Proof.
  apply (first_malformed_var_aborts [txt "a=1"] (txt "oops") [txt "b=2"]).
  - intros a Ha. apply list_elem_of_singleton in Ha. subst a.
    apply (bool_decide_unpack _). vm_compute. exact I.
  - apply (bool_decide_unpack _). vm_compute. exact I.
Defined.

(** * The computed defaults *)

Lemma split_on_snoc sep s :
  ∃ init l, split_on sep s = init ++ [l] ∧ sep ∉ l.
Proof.
  induction s as [|c s (init & l & E & Hl)]; simpl.
  - exists [], []. split; [done|apply not_elem_of_nil].
  - destruct (Ascii.eqb c sep) eqn:Ec.
    + exists ([] :: init), l. by rewrite E.
    + apply Ascii.eqb_neq in Ec. rewrite E. destruct init as [|w init]; simpl.
      * exists [], (c :: l). split; [done|]. apply not_elem_of_cons. by split.
      * by exists ((c :: w) :: init), l.
Qed.

Lemma split_on_last sep s :
  sep ∉ default [] (last (split_on sep s)).
Proof.
  destruct (split_on_snoc sep s) as (init & l & -> & Hl). by rewrite last_snoc.
Qed.

Lemma contains_char c s : contains [c] s = true ↔ c ∈ s.
Proof.
  induction s as [|d s IH]; simpl.
  - split; [done|]. by intros ?%elem_of_nil.
  - unfold startswith at 1. simpl. destruct (Ascii.eqb c d) eqn:E.
    + apply Ascii.eqb_eq in E. subst d. simpl. split; [|done]. intros _. left.
    + apply Ascii.eqb_neq in E. simpl. rewrite IH. split; [by right|].
      intros [?|?]%elem_of_cons; [congruence|done].
Qed.

Lemma split_on_plain sep b : sep ∉ b → split_on sep b = [b].
Proof.
  induction b as [|c b IH]; [done|]. simpl. intros H.
  apply not_elem_of_cons in H as [Hc Hb].
  destruct (Ascii.eqb c sep) eqn:E; [by apply Ascii.eqb_eq in E|].
  by rewrite IH.
Qed.

Lemma split_on_app_last sep a b :
  sep ∉ b → default [] (last (split_on sep (a ++ sep :: b))) = b.
Proof.
  intros Hb.
  assert (H : ∃ w init, split_on sep (a ++ sep :: b) = w :: init ++ [b]).
  { induction a as [|c a (w & init & E)]; simpl.
    - rewrite Ascii.eqb_refl, split_on_plain by done. by exists [], [].
    - rewrite E. destruct (Ascii.eqb c sep).
      + by exists [], (w :: init).
      + by exists (c :: w), init. }
  destruct H as (w & init & ->).
  by rewrite app_comm_cons, last_snoc.
Qed.

(** X6. The repository name derived from the environment never holds a
    slash; for [GITHUB_REPOSITORY=owner/repo] it is [repo], and it is
    [unknown-repo] when the variable is missing or empty. *)
Theorem derived_repo_name (env : gmap text text) :
  ("/" ∉ derive_repo_name env)
  ∧ (∀ owner repo, env !! txt "GITHUB_REPOSITORY" = Some (owner ++ "/" :: repo) →
       "/" ∉ repo → derive_repo_name env = repo)
  ∧ (env_get env (txt "GITHUB_REPOSITORY") = [] →
     derive_repo_name env = txt "unknown-repo").
Proof.
  unfold derive_repo_name. split; [|split].
  - destruct (contains (txt "/") _) eqn:E.
    + apply split_on_last.
    + case_bool_decide.
      * apply (bool_decide_unpack _). vm_compute. exact I.
      * intros Hin. apply (contains_char "/") in Hin.
        change (txt "/") with ["/"] in E. congruence.
  - intros owner repo He Hrepo.
    assert (Hg : env_get env (txt "GITHUB_REPOSITORY") = owner ++ "/" :: repo)
      by (unfold env_get; by rewrite He).
    rewrite Hg.
    assert (Hc : contains ["/"] (owner ++ "/" :: repo) = true).
    { apply (contains_char "/"). apply elem_of_app. right. left. }
    change (txt "/") with ["/"]. rewrite Hc. by apply split_on_app_last.
  - intros ->. reflexivity.
Qed.

(** X7. Merging never drops or changes a variable the user gave, and the
    merged mapping always defines [repo_name], [branch_name] and
    [version]: its keys are those of the user together with these
    three. *)
Theorem merge_vars_keeps_user_variables
    (user_vars env : gmap text text) (composer_version : option text) :
  user_vars ⊆ merge_vars user_vars env composer_version
  ∧ dom (merge_vars user_vars env composer_version)
    = dom user_vars ∪ {[ txt "repo_name"; txt "branch_name"; txt "version" ]}.
Proof.
  split.
  - apply map_subseteq_spec. intros k v Hk.
    by rewrite merge_vars_lookup, Hk.
  - apply set_eq. intros k. rewrite elem_of_union, !elem_of_dom.
    rewrite merge_vars_lookup. unfold computed_default.
    rewrite !elem_of_union, !elem_of_singleton.
    destruct (user_vars !! k) as [v|].
    + split; intros _; [left|]; exists v; reflexivity.
    + split.
      * intros Hs. right. repeat case_bool_decide; try tauto. by destruct Hs.
      * intros [[x Hx]|[[->| ->]| ->]]; [discriminate Hx|..].
        -- rewrite bool_decide_eq_false_2, bool_decide_eq_false_2,
             bool_decide_eq_true_2 by (done || (vm_compute; discriminate)).
           eexists; reflexivity.
        -- rewrite bool_decide_eq_false_2, bool_decide_eq_true_2
             by (done || (vm_compute; discriminate)).
           eexists; reflexivity.
        -- rewrite bool_decide_eq_true_2 by done. eexists; reflexivity.
Qed.

(** * More on paths *)

Lemma joinpath_absolute base rest :
  joinpath base ("/" :: rest) = parse_path ("/" :: rest).
Proof. reflexivity. Qed.

Lemma resolve_absolute cwd p :
  is_abs p = true → resolve cwd p = {| is_abs := true; parts := normalise (parts p) |}.
Proof. unfold resolve. by intros ->. Qed.

(** X8. An include path that is absolute, or absolute after the
    [snippets/] prefix is taken off (as in [snippets//etc/x]), is resolved
    on its own: neither the snippets directory nor the including document
    nor the working directory has a part in the result. *)
Theorem absolute_include_ignores_directories
    (cwd : list text) (cur snip : Path) (rel rest : text) :
  strip rel = rel →
  rel = "/" :: rest ∨ rel = txt "snippets/" ++ "/" :: rest →
  resolve_include_path cwd cur rel snip
  = {| is_abs := true; parts := normalise (parts (parse_path ("/" :: rest))) |}.
Proof.
  intros Hstrip Hrel. unfold resolve_include_path. rewrite Hstrip.
  destruct Hrel as [-> | ->].
  - cbn [strip_prefix txt String.list_ascii_of_string]. simpl strip_prefix.
    by rewrite joinpath_absolute, resolve_absolute.
  - rewrite strip_prefix_app.
    by rewrite joinpath_absolute, resolve_absolute.
Qed.

Lemma absolute_include_witness :
  resolve_include_path [txt "repo"] (mkPath true [txt "repo"; txt "a.tpl.md"])
    (txt "snippets/" ++ "/" :: txt "etc/../etc/passwd")
    (mkPath true [txt "repo"; txt "snippets"])
  = mkPath true [txt "etc"; txt "passwd"].
Proof.
  rewrite (absolute_include_ignores_directories [txt "repo"]
             (mkPath true [txt "repo"; txt "a.tpl.md"])
             (mkPath true [txt "repo"; txt "snippets"])
             (txt "snippets/" ++ "/" :: txt "etc/../etc/passwd")
             (txt "etc/../etc/passwd"));
    [vm_compute; reflexivity|vm_compute; reflexivity|by right].
Defined.

Lemma last_snoc_name (l : list text) (nm : text) : default [] (last (l ++ [nm])) = nm.
Proof. by rewrite last_snoc. Qed.

Lemma strip_parts_app base l : strip_parts base (base ++ l) = Some l.
Proof.
  induction base as [|a base IH]; [done|]. simpl.
  by rewrite bool_decide_eq_true_2.
Qed.

Lemma strip_parts_Some base ps l : strip_parts base ps = Some l → ps = base ++ l.
Proof.
  revert ps. induction base as [|a base IH]; intros [|b ps]; simpl; try congruence.
  case_bool_decide; [|done]. subst b. intros H. by rewrite (IH _ H).
Qed.

(** [with_name] keeps the directory: the new path has the given name and
    the parent of the old one, and when the old path lies below a
    directory the new one does so too. *)
Lemma with_name_keeps_directory (p o : Path) (nm : text) (base rel : list text) :
  with_name p nm = Ok o →
  name o = nm ∧ parent o = parent p
  ∧ (relative_to p base = Some rel → rel ≠ [] →
     relative_to o base = Some (removelast rel ++ [nm])).
Proof.
  unfold with_name. destruct (_ || _) eqn:E; [done|]. intros [= <-].
  split; [apply last_snoc_name|]. split.
  { unfold parent. simpl. by rewrite removelast_last. }
  unfold relative_to. simpl. destruct (is_abs p); [|done].
  intros Hrel Hne. apply strip_parts_Some in Hrel. rewrite Hrel.
  rewrite removelast_app by done. rewrite <- app_assoc.
  apply strip_parts_app.
Qed.


(** * More on the renderer *)

Section RendererMore.

Variable cwd : list text.
Variable snippets_dir : Path.
Variable variables : gmap text text.

Local Abbreviation render_template := (render_template cwd snippets_dir variables).
Local Abbreviation render_top := (render_top cwd snippets_dir variables).
Local Abbreviation main_loop := (main_loop cwd snippets_dir variables).
Local Abbreviation entered := (entered cwd).

Lemma enter_document fuel tp out sa depth max_depth st :
  depth ≤ max_depth → canonical cwd tp ∉ seen_after sa st →
  render_template (S fuel) tp out sa depth max_depth st
  = (let* source := read_text cwd tp in
     let* rendered :=
       expand_includes cwd snippets_dir
         (fun p o d => render_template fuel p o (Some tt) d max_depth)
         tp depth source in
     let* rendered := substitute_variables variables tp rendered in
     do write_text cwd out rendered then print_wrote cwd out) (entered tp sa st).
Proof.
  intros Hd Hseen. cbn [render_template].
  replace (max_depth <? depth)%nat with false
    by (symmetry; apply Nat.ltb_ge; lia).
  unfold bind at 1. unfold init_seen.
  destruct sa as [[]|]; unfold bind at 1, check_and_add_seen; simpl in *;
    by rewrite bool_decide_eq_false_2.
Qed.

Lemma plain_document fuel tp out sa depth max_depth st src :
  depth ≤ max_depth →
  fs st !! canonical cwd tp = Some src →
  plain src = true →
  canonical cwd tp ∉ seen_after sa st →
  render_template (S fuel) tp out sa depth max_depth st
  = (do write_text cwd out src then print_wrote cwd out) (entered tp sa st).
Proof.
  intros Hd Hsrc Hpl Hseen. rewrite enter_document by done.
  apply andb_prop in Hpl as [Hi Hv].
  apply bool_decide_eq_true in Hi. apply bool_decide_eq_true in Hv.
  erewrite bind_Ok; [|unfold read_text; simpl; by rewrite Hsrc].
  erewrite bind_Ok;
    [|unfold expand_includes, re_sub; rewrite Hi; apply sub_tokens_lits].
  erewrite bind_Ok by (by apply substitute_variables_plain).
  reflexivity.
Qed.




(** ** The [seen] set only grows *)

#[local] Instance seen_grows_refl : Reflexive seen_grows.
Proof. intros st. unfold seen_grows. set_solver. Qed.

#[local] Instance seen_grows_trans : Transitive seen_grows.
Proof. unfold seen_grows. intros a b c ? ?. set_solver. Qed.

Lemma render_template_seen fuel :
  ∀ tp out depth max_depth st r st',
    render_template fuel tp out (Some tt) depth max_depth st = (r, st') →
    seen_grows st st' ∧ (r = Ok tt → canonical cwd tp ∈ seen st').
Proof.
  induction fuel as [|fuel IH]; intros tp out depth max_depth st r st'; simpl.
  { intros [= <- <-]. split; [reflexivity|done]. }
  destruct (max_depth <? depth)%nat;
    [intros [= <- <-]; split; [reflexivity|done]|].
  intros H.
  apply bind_inv in H as [(e & (? & _)%init_seen_inv & ->)|(? & st1 & H1 & H)];
    [done|].
  injection H1 as _ <-.
  apply bind_inv in H as [(e & H2 & ->)|(? & st2 & H2 & H)].
  { apply check_and_add_seen_inv in H2 as (_ & _ & _ & _ & ->).
    split; [reflexivity|done]. }
  apply check_and_add_seen_inv in H2 as (Hf2 & Ho2 & _ & Hs2).
  assert (G2 : seen_grows st st2) by (unfold seen_grows; set_solver).
  assert (K2 : canonical cwd tp ∈ seen st2) by set_solver.
  assert (Hrest : seen_grows st2 st').
  { apply bind_inv in H as [(e & [-> _]%read_text_inv & _)|(src & ? & [-> _]%read_text_inv & H)];
      [reflexivity|].
    assert (Hinc : ∀ g s r0 s',
      _include_repl cwd snippets_dir
        (fun p o d => render_template fuel p o (Some tt) d max_depth)
        tp depth g s = (r0, s') → seen_grows s s').
    { intros g s r0 s'. unfold _include_repl. destruct (contains _ _).
      - intros [(e & [_ ->]%lift_inv & _)|(o & s1 & [_ ->]%lift_inv & Hn)]%bind_inv;
          [reflexivity|].
        apply bind_inv in Hn as [(e & Hn & _)|([] & s2 & Hn & [-> _]%read_text_inv)];
          by apply IH in Hn as [? _].
      - by intros [-> _]%read_text_inv. }
    apply bind_inv in H as [(e & H3 & _)|(rendered & st3 & H3 & H)].
    { exact (sub_tokens_preserves seen_grows _ Hinc _ _ _ _ H3). }
    etrans; [exact (sub_tokens_preserves seen_grows _ Hinc _ _ _ _ H3)|].
    apply bind_inv in H as [(e & ->%substitute_variables_state & _)
                           |(r2 & ? & ->%substitute_variables_state & H)];
      [reflexivity|].
    apply bind_inv in H as [(e & (? & _)%write_text_inv & _)|(? & st4 & H4 & H)];
      [done|].
    apply write_text_inv in H4 as (_ & _ & _ & Hs4).
    apply print_wrote_inv in H as (_ & Hs5 & _).
    unfold seen_grows. by rewrite Hs5, Hs4. }
  split; [by etrans|]. intros _. by apply Hrest.
Qed.

(** X13. Within one top-level invocation a template is rendered at most
    once: after a nested call on it has succeeded, every later nested call
    on it (within the depth bound, in a state whose [seen] set has lost
    nothing since) fails with the cycle error and changes nothing. *)
Theorem template_is_rendered_at_most_once
    (f1 f2 : nat) (p o1 o2 : Path) (d1 d2 max_depth : nat) (st st1 st2 : state) :
  render_template f1 p o1 (Some tt) d1 max_depth st = (Ok tt, st1) →
  seen st1 ⊆ seen st2 →
  d2 ≤ max_depth →
  render_template (S f2) p o2 (Some tt) d2 max_depth st2
  = (Err (CyclicInclude p), st2).
Proof.
  intros Hrun Hsub Hd. apply render_template_seen in Hrun as [_ Hin].
  specialize (Hin eq_refl).
  cbn [render_template].
  replace (max_depth <? d2)%nat with false by (symmetry; apply Nat.ltb_ge; lia).
  unfold bind, init_seen, check_and_add_seen.
  rewrite bool_decide_eq_true_2; [done|]. by apply Hsub.
Qed.

(** ** The loop over the templates *)

Lemma main_loop_app ts1 ts2 st :
  main_loop (ts1 ++ ts2) st = (do main_loop ts1 then main_loop ts2) st.
Proof.
  revert st. induction ts1 as [|t ts1 IH]; intros st; simpl; [done|].
  unfold bind. destruct (render_top t st) as [[?|e] st1]; [|done].
  rewrite IH. reflexivity.
Qed.

Lemma lift_with_name_extends {A} (x : result A) st r st' :
  lift x st = (r, st') → extends st st'.
Proof. intros [_ ->]%lift_inv. reflexivity. Qed.

Lemma render_top_extends t st r st' :
  render_top t st = (r, st') → extends st st'.
Proof.
  unfold render_top.
  intros [(e & [_ ->]%lift_inv & _)|(o & st1 & [_ ->]%lift_inv & H)]%bind_inv;
    [reflexivity|].
  by eapply render_template_extends.
Qed.

Lemma main_loop_extends ts :
  ∀ st r st', main_loop ts st = (r, st') → extends st st'.
Proof.
  induction ts as [|t ts IH]; intros st r st'; simpl.
  - intros [= _ <-]. reflexivity.
  - intros [(e & H & _)|(? & st1 & H & Hrest)]%bind_inv.
    + by eapply render_top_extends.
    + etrans; [by eapply render_top_extends|by eapply IH].
Qed.

(** X14. The run stops at the first template that fails: the templates
    after it are not rendered, and what the templates before it wrote and
    printed stays (there is no rollback). *)
Theorem main_stops_at_first_failure
    (done_ : list Path) (failing : Path) (rest : list Path)
    (st st1 st2 : state) (e : error) :
  main_loop done_ st = (Ok tt, st1) →
  render_top failing st1 = (Err e, st2) →
  main_loop (done_ ++ failing :: rest) st = (Err e, st2)
  ∧ extends st st1 ∧ extends st1 st2.
Proof.
  intros H1 H2. split; [|split].
  - rewrite main_loop_app. erewrite bind_Ok by exact H1. simpl.
    by erewrite bind_Err by exact H2.
  - by eapply main_loop_extends.
  - by eapply render_top_extends.
Qed.

End RendererMore.




Lemma template_rendered_once_witness :
  render_template Demo.cwd Demo.snippets_dir ∅ 1 (Demo.at_repo "b.tpl.md")
    (Demo.at_repo "b.md") (Some tt) 1 20 (Demo.start Demo.once_files)
  = (Ok tt,
     mkState (<[ [txt "repo"; txt "b.md"] := txt "x" ]> Demo.once_files)
       {[ [txt "repo"; txt "b.tpl.md"] ]} [[txt "b.md"]])
  ∧ render_template Demo.cwd Demo.snippets_dir ∅ 1 (Demo.at_repo "b.tpl.md")
      (Demo.at_repo "b.md") (Some tt) 1 20
      (mkState (<[ [txt "repo"; txt "b.md"] := txt "x" ]> Demo.once_files)
         {[ [txt "repo"; txt "b.tpl.md"] ]} [[txt "b.md"]])
    = (Err (CyclicInclude (Demo.at_repo "b.tpl.md")),
       mkState (<[ [txt "repo"; txt "b.md"] := txt "x" ]> Demo.once_files)
         {[ [txt "repo"; txt "b.tpl.md"] ]} [[txt "b.md"]]).
Proof.
  assert (H : render_template Demo.cwd Demo.snippets_dir ∅ 1
                (Demo.at_repo "b.tpl.md") (Demo.at_repo "b.md") (Some tt) 1 20
                (Demo.start Demo.once_files)
              = (Ok tt,
                 mkState (<[ [txt "repo"; txt "b.md"] := txt "x" ]> Demo.once_files)
                   {[ [txt "repo"; txt "b.tpl.md"] ]} [[txt "b.md"]]))
    by (vm_compute; reflexivity).
  split; [exact H|].
  apply (template_is_rendered_at_most_once Demo.cwd Demo.snippets_dir ∅ 1 0
           (Demo.at_repo "b.tpl.md") (Demo.at_repo "b.md") (Demo.at_repo "b.md")
           1 1 20 _ _ _ H); [done|lia].
Defined.

Lemma main_stops_witness :
  main_loop Demo.cwd Demo.snippets_dir ∅
    ([Demo.at_repo "p.tpl.md"] ++ Demo.at_repo "u.tpl.md" :: [Demo.at_repo "p.tpl.md"])
    (Demo.start Demo.plain_files)
  = (Err (UndefinedVariable (txt "nobody") (Demo.at_repo "u.tpl.md")),
     mkState (<[ [txt "repo"; txt "p.md"] := txt "just text" ]> Demo.plain_files)
       {[ [txt "repo"; txt "u.tpl.md"] ]} [[txt "p.md"]]).
Proof.
  apply (main_stops_at_first_failure Demo.cwd Demo.snippets_dir ∅
           [Demo.at_repo "p.tpl.md"] (Demo.at_repo "u.tpl.md")
           [Demo.at_repo "p.tpl.md"] (Demo.start Demo.plain_files)
           (mkState (<[ [txt "repo"; txt "p.md"] := txt "just text" ]>
                       Demo.plain_files)
              {[ [txt "repo"; txt "p.tpl.md"] ]} [[txt "p.md"]])).
  - vm_compute; reflexivity.
  - vm_compute; reflexivity.
Defined.



(** * Lower case *)

Lemma lower_char_idem c : lower_char (lower_char c) = lower_char c.
Proof. destruct c as [[] [] [] [] [] [] [] []]; reflexivity. Qed.

Lemma lower_idem s : lower (lower s) = lower s.
Proof.
  unfold lower. rewrite map_map. apply map_ext. intros c. apply lower_char_idem.
Qed.

Module ShopwareMore.
Import Shopware.

Section More.

Variable server : Type.
Variable handle : request → server → response * server.

Local Abbreviation world := (world server).
Local Abbreviation token := (token server handle).
Local Abbreviation upload_media := (upload_media server handle).

(** X15. The token is fetched once: after a call of [token] has returned
    a token that is not empty, the client holds it, and every further call
    returns it without any request.  (An empty token is never kept: it is
    fetched again on every use.) *)
Theorem token_is_fetched_once (w w' : world) (t : text) :
  token w = (inr t, w') → t ≠ [] →
  _token server w' = Some t ∧ token w' = (inr t, w').
Proof.
  unfold Shopware.token. intros Hrun Ht.
  destruct (truthy (_token server w)) eqn:Htr.
  - injection Hrun as <- <-. rewrite Htr.
    destruct (_token server w) as [[|c s]|]; done.
  - unfold Shopware.cbind, Shopware.post in Hrun.
    destruct (handle _ (remote server w)) as [rs srv'].
    case_bool_decide; [|done]. simpl in Hrun. injection Hrun as <- <-. simpl.
    split; [done|]. by destruct (access_token rs).
Qed.

(** X16. The extension [upload_media] works with is never empty and is
    in lower case already, so the search (which lowers it once more) and
    the upload name the same extension; without a suffix it is [png]. *)
Theorem media_extension_is_lower_case (p : Path) :
  media_ext p ≠ [] ∧ lower (media_ext p) = media_ext p
  ∧ (suffix p = [] → media_ext p = txt "png").
Proof.
  unfold media_ext. split; [|split].
  - case_bool_decide as He; [done|]. unfold lower.
    intros Hnil. apply map_eq_nil in Hnil. done.
  - apply lower_idem.
  - intros ->. reflexivity.
Qed.

End More.

Lemma token_witness :
  token (list DemoShop.media) DemoShop.handle DemoShop.shop
  = (inr (txt "secret-token"),
     mkWorld _ (txt "https://shop.example") (txt "id") (txt "secret")
       (Some (txt "secret-token"))
       [(txt "0a1b", txt "MoorlFoo__shot", txt "png", txt "old bytes")]
       [(ReqToken (txt "id") (txt "secret"),
         mkResponse 200 [] (txt "secret-token") [])])
  ∧ token (list DemoShop.media) DemoShop.handle
      (mkWorld _ (txt "https://shop.example") (txt "id") (txt "secret")
         (Some (txt "secret-token"))
         [(txt "0a1b", txt "MoorlFoo__shot", txt "png", txt "old bytes")]
         [(ReqToken (txt "id") (txt "secret"),
           mkResponse 200 [] (txt "secret-token") [])])
    = (inr (txt "secret-token"),
       mkWorld _ (txt "https://shop.example") (txt "id") (txt "secret")
         (Some (txt "secret-token"))
         [(txt "0a1b", txt "MoorlFoo__shot", txt "png", txt "old bytes")]
         [(ReqToken (txt "id") (txt "secret"),
           mkResponse 200 [] (txt "secret-token") [])]).
Proof.
  assert (H : token (list DemoShop.media) DemoShop.handle DemoShop.shop
    = (inr (txt "secret-token"),
       mkWorld _ (txt "https://shop.example") (txt "id") (txt "secret")
         (Some (txt "secret-token"))
         [(txt "0a1b", txt "MoorlFoo__shot", txt "png", txt "old bytes")]
         [(ReqToken (txt "id") (txt "secret"),
           mkResponse 200 [] (txt "secret-token") [])]))
    by (vm_compute; reflexivity).
  split; [exact H|].
  apply (token_is_fetched_once _ _ _ _ _ H). vm_compute. discriminate.
Defined.

End ShopwareMore.

Section Cycle.

Variable cwd : list text.
Variable snippets_dir : Path.
Variable variables : gmap text text.

Local Abbreviation render_template := (render_template cwd snippets_dir variables).
Local Abbreviation include_loop := (include_loop cwd snippets_dir).

Lemma include_loop_inv files p rest back :
  include_loop files p rest back = true →
  ∃ src rel out_q,
    files !! canonical cwd p = Some src
    ∧ scan INCLUDE_RE src = [TMatch rel]
    ∧ contains tpl_marker
        (name (resolve_include_path cwd p (strip rel) snippets_dir)) = true
    ∧ with_name (resolve_include_path cwd p (strip rel) snippets_dir)
        (str_replace tpl_marker (txt ".")
           (name (resolve_include_path cwd p (strip rel) snippets_dir)))
      = Ok out_q
    ∧ match rest with
      | [] => resolve_include_path cwd p (strip rel) snippets_dir = back
      | r :: rest' =>
          resolve_include_path cwd p (strip rel) snippets_dir = r
          ∧ include_loop files r rest' back = true
      end.
Proof.
  destruct rest as [|r rest']; simpl;
    destruct (files !! canonical cwd p) as [src|]; try done;
    destruct (single_include src) as [rel|] eqn:E; try done;
    intros H; apply andb_prop in H as [H Hnext];
    apply andb_prop in H as [Htpl Hw];
    destruct (with_name _ _) as [o|] eqn:Ew; try done;
    exists src, rel, o; repeat split; try done;
    try (by apply single_include_scan).
  - by apply bool_decide_eq_true in Hnext.
  - apply andb_prop in Hnext as [Hq _]. by apply bool_decide_eq_true in Hq.
  - by apply andb_prop in Hnext as [_ ?].
Qed.

Lemma loop_reaches_seen max_depth back :
  ∀ rest p out sa depth st fuel,
    include_loop (fs st) p rest back = true →
    NoDup (canonical cwd <$> p :: rest) →
    (∀ k, k ∈ (canonical cwd <$> p :: rest) → k ∉ seen_after sa st) →
    (canonical cwd back ∈ seen_after sa st
     ∨ canonical cwd back ∈ (canonical cwd <$> p :: rest)) →
    depth + length rest < max_depth →
    length rest + 1 < fuel →
    ∃ st', render_template fuel p out sa depth max_depth st
           = (Err (CyclicInclude back), st')
           ∧ fs st' = fs st ∧ stdout st' = stdout st.
Proof.
  induction rest as [|r rest IH];
    intros p out sa depth st [|fuel] Hloop Hnd Hseen Hback Hd Hf;
    simpl in Hf; try lia;
    apply include_loop_inv in Hloop
      as (src & rel & out_q & Hsrc & Hscan & Htpl & Hw & Hnext);
    cbn [render_template];
    (replace (max_depth <? depth)%nat with false
      by (symmetry; apply Nat.ltb_ge; simpl in Hd; lia));
    destruct (init_seen sa st) as [r1 st1] eqn:E1;
    destruct (init_seen_inv _ _ _ _ E1) as (-> & Hf1 & Ho1 & Hs1);
    erewrite bind_Ok by exact E1;
    destruct (check_and_add_seen cwd p st1) as [r2 st2] eqn:E2;
    destruct (check_and_add_seen_inv _ _ _ _ _ E2) as (Hf2 & Ho2 & H2);
    (destruct r2 as [[]|e];
     [|destruct H2 as (Hin & _); exfalso; rewrite Hs1 in Hin;
       eapply Hseen; [|exact Hin]; simpl; left]);
    destruct H2 as [_ Hs2];
    erewrite bind_Ok by exact E2;
    (erewrite bind_Ok; [|unfold read_text; by rewrite Hf2, Hf1, Hsrc]).
  - (* the last document: its include leads back *)
    subst back. destruct fuel as [|fuel]; [lia|].
    eexists. split.
    + erewrite bind_Err; [reflexivity|].
      unfold expand_includes, re_sub. rewrite Hscan. simpl.
      erewrite bind_Err; [reflexivity|].
      unfold _include_repl. rewrite Htpl, Hw.
      erewrite bind_Ok by reflexivity.
      erewrite bind_Err; [reflexivity|].
      cbn [render_template].
      replace (max_depth <? depth + 1)%nat with false
        by (symmetry; apply Nat.ltb_ge; simpl in Hd; lia).
      unfold bind, init_seen, check_and_add_seen.
      rewrite bool_decide_eq_true_2; [reflexivity|].
      rewrite Hs2, Hs1. simpl in Hback. destruct Hback as [Hb|Hb].
      * apply elem_of_union. by right.
      * apply elem_of_union. left. apply elem_of_singleton.
        apply elem_of_cons in Hb as [Hb|Hb]; [done|]. by apply elem_of_nil in Hb.
    + simpl. by rewrite Hf2, Hf1, Ho2, Ho1.
  - (* a document in between *)
    destruct Hnext as [Hq Hloop'].
    assert (Hloop2 : include_loop (fs st2) r rest back = true)
      by (by rewrite Hf2, Hf1).
    assert (Hnd' : NoDup (canonical cwd <$> r :: rest)) by (by inversion Hnd).
    assert (Hseen' : ∀ k, k ∈ (canonical cwd <$> r :: rest) →
                          k ∉ seen_after (Some tt) st2).
    { intros k Hk. simpl. rewrite Hs2, Hs1. intros [Hin|Hin]%elem_of_union.
      - apply elem_of_singleton in Hin. subst k. by inversion Hnd.
      - eapply Hseen; [|exact Hin]. by right. }
    assert (Hback' : canonical cwd back ∈ seen_after (Some tt) st2
                     ∨ canonical cwd back ∈ (canonical cwd <$> r :: rest)).
    { simpl. rewrite Hs2, Hs1. destruct Hback as [Hb|Hb].
      - left. apply elem_of_union. by right.
      - apply elem_of_cons in Hb as [Hb|Hb].
        + left. apply elem_of_union. left. by apply elem_of_singleton.
        + by right. }
    simpl in Hd.
    destruct (IH r out_q (Some tt) (depth + 1) st2 fuel Hloop2 Hnd' Hseen' Hback'
                ltac:(lia) ltac:(lia))
      as (st3 & Hrun & Hfs & Hout).
    exists st3. split; [|by rewrite Hfs, Hout, Hf2, Hf1, Ho2, Ho1].
    erewrite bind_Err; [reflexivity|].
    unfold expand_includes, re_sub. rewrite Hscan. simpl.
    erewrite bind_Err; [reflexivity|].
    unfold _include_repl. rewrite Htpl, Hw, Hq.
    erewrite bind_Ok by reflexivity.
    erewrite bind_Err; [reflexivity|exact Hrun].
Qed.

(** X17. A loop of template includes is caught: when the documents
    [p :: rest] are distinct, each consists of one include marker for the
    next one, and the last one includes [p] again (under whatever
    spelling), a top-level call on [p] with a maximum depth above the
    length of the loop fails with the cycle error for [p]; it writes no
    file and prints no line. *)
Theorem include_loop_is_detected
    (max_depth fuel : nat) (p : Path) (rest : list Path) (out : Path) (st : state) :
  include_loop (fs st) p rest p = true →
  NoDup (canonical cwd <$> p :: rest) →
  length rest < max_depth →
  max_depth + 2 ≤ fuel →
  ∃ st', render_template fuel p out None 0 max_depth st
         = (Err (CyclicInclude p), st')
         ∧ fs st' = fs st ∧ stdout st' = stdout st.
Proof.
  intros Hloop Hnd Hlen Hf.
  apply (loop_reaches_seen max_depth p rest p out None 0 st fuel Hloop Hnd);
    try lia.
  - intros k _. apply not_elem_of_empty.
  - right. simpl. left.
Qed.

End Cycle.

Lemma include_loop_witness :
  render_template Demo.cwd Demo.snippets_dir ∅ 22 (Demo.at_repo "a.tpl.md")
    (Demo.at_repo "a.md") None 0 20 (Demo.start Demo.loop_files)
  = (Err (CyclicInclude (Demo.at_repo "a.tpl.md")),
     mkState Demo.loop_files
       {[ [txt "repo"; txt "a.tpl.md"]; [txt "repo"; txt "sub"; txt "b.tpl.md"] ]}
       []).
Proof.
  destruct (include_loop_is_detected Demo.cwd Demo.snippets_dir ∅ 20 22
              (Demo.at_repo "a.tpl.md")
              [mkPath true [txt "repo"; txt "sub"; txt "b.tpl.md"]]
              (Demo.at_repo "a.md") (Demo.start Demo.loop_files))
    as (st' & Hrun & _).
  - vm_compute; reflexivity.
  - apply (bool_decide_unpack _). vm_compute. exact I.
  - simpl; lia.
  - lia.
  - rewrite Hrun. f_equal. apply (f_equal snd) in Hrun. simpl in Hrun.
    rewrite <- Hrun. vm_compute. reflexivity.
Defined.

Lemma sub_tokens_first_fails repl ts g st e st' :
  head (omap (fun t => match t with TMatch g => Some g | TLit _ => None end) ts)
    = Some g →
  repl g st = (Err e, st') →
  sub_tokens repl ts st = (Err e, st').
Proof.
  induction ts as [|[c|g'] ts IH]; simpl; [done| |].
  - intros Hh Hr. erewrite bind_Err; [reflexivity|]. by apply IH.
  - intros [= ->] Hr. by erewrite bind_Err.
Qed.

Section Missing.

Variable cwd : list text.
Variable snippets_dir : Path.
Variable variables : gmap text text.

Local Abbreviation render_template := (render_template cwd snippets_dir variables).

(** X18. When the first include marker of a document names a file that
    is no template and does not exist, the call fails with the
    file-not-found error for the resolved path; no file is written and no
    line printed, whatever else the document holds. *)
Theorem missing_include_aborts
    (fuel : nat) (tp out : Path) (sa : option unit) (depth max_depth : nat)
    (st : state) (src g : text) :
  depth ≤ max_depth →
  fs st !! canonical cwd tp = Some src →
  canonical cwd tp ∉ seen_after sa st →
  head (groups INCLUDE_RE src) = Some g →
  contains tpl_marker
    (name (resolve_include_path cwd tp (strip g) snippets_dir)) = false →
  fs st !! canonical cwd (resolve_include_path cwd tp (strip g) snippets_dir)
    = None →
  render_template (S fuel) tp out sa depth max_depth st
  = (Err (FileNotFound (resolve_include_path cwd tp (strip g) snippets_dir)),
     entered cwd tp sa st).
Proof.
  intros Hd Hsrc Hseen Hg Hno Hmiss. rewrite enter_document by done.
  erewrite bind_Ok; [|unfold read_text; simpl; by rewrite Hsrc].
  erewrite bind_Err; [reflexivity|].
  unfold expand_includes, re_sub.
  eapply sub_tokens_first_fails; [exact Hg|].
  unfold _include_repl. rewrite Hno. unfold read_text. simpl. by rewrite Hmiss.
Qed.

End Missing.

Lemma missing_include_witness :
  render_template Demo.cwd Demo.snippets_dir ∅ 1 (Demo.at_repo "a.tpl.md")
    (Demo.at_repo "a.md") None 0 20
    (Demo.start {[ [txt "repo"; txt "a.tpl.md"] := txt "see {file:gone.md}!" ]})
  = (Err (FileNotFound (Demo.at_repo "gone.md")),
     mkState {[ [txt "repo"; txt "a.tpl.md"] := txt "see {file:gone.md}!" ]}
       {[ [txt "repo"; txt "a.tpl.md"] ]} []).
Proof.
  rewrite (missing_include_aborts Demo.cwd Demo.snippets_dir ∅ 0
             (Demo.at_repo "a.tpl.md") (Demo.at_repo "a.md") None 0 20
             (Demo.start {[ [txt "repo"; txt "a.tpl.md"] := txt "see {file:gone.md}!" ]})
             (txt "see {file:gone.md}!") (txt "gone.md")).
  - vm_compute. reflexivity.
  - lia.
  - vm_compute; reflexivity.
  - apply not_elem_of_empty.
  - vm_compute; reflexivity.
  - vm_compute; reflexivity.
  - vm_compute; reflexivity.
Defined.

(** * Template discovery *)

Lemma path_key_inj p q : path_key p = path_key q → p = q.
Proof.
  destruct p as [a ps], q as [b qs]. unfold path_key. simpl. intros [= -> H].
  f_equal. revert qs H. induction ps as [|c ps IH]; intros [|d qs]; simpl; try done.
  intros [= Hc Hps]. f_equal; [|by apply IH].
  clear -Hc. revert d Hc. induction c as [|x c IH]; intros [|y d]; simpl; try done.
  intros [= Hx Hc]. f_equal; [|by apply IH].
  rewrite <- (ascii_nat_embedding x), <- (ascii_nat_embedding y). by rewrite Hx.
Qed.

#[local] Instance path_lt_strict : StrictOrder path_lt.
Proof.
  unfold path_lt. split.
  - intros p H. by apply (irreflexivity lexico (path_key p)).
  - intros p q r H1 H2. by apply (transitivity (R:=lexico) H1 H2).
Qed.

#[local] Instance path_le_trans : Transitive path_le.
Proof.
  intros p q r [->|H1] [->|H2]; [by left|by right|by right|].
  right. by etrans.
Qed.

#[local] Instance path_le_total : Total path_le.
Proof.
  intros p q. unfold path_le, path_lt.
  destruct (trichotomyT lexico (path_key p) (path_key q)) as [[H|H]|H].
  - left. by right.
  - left. left. by apply path_key_inj.
  - right. by right.
Qed.

#[local] Instance path_le_antisym : AntiSymm (=) path_le.
Proof.
  intros p q [->|H1] [E|H2]; try done.
  exfalso. apply (irreflexivity path_lt p). by etrans.
Qed.

Lemma find_templates_elem found p :
  p ∈ find_templates found ↔ p ∈ found ∧ is_template p = true.
Proof.
  unfold find_templates. rewrite merge_sort_Permutation.
  rewrite elem_of_remove_dups, list_elem_of_filter. tauto.
Qed.

Lemma find_templates_NoDup found : NoDup (find_templates found).
Proof.
  unfold find_templates. rewrite merge_sort_Permutation. apply NoDup_remove_dups.
Qed.

Lemma StronglySorted_strict (l : list Path) :
  StronglySorted path_le l → NoDup l → StronglySorted path_lt l.
Proof.
  induction 1 as [|p l Hs IH Hall]; intros Hnd; constructor.
  - apply IH. by inversion Hnd.
  - inversion Hnd as [|? ? Hnotin Hnd']; subst.
    rewrite Forall_forall in *. intros q Hq.
    destruct (Hall q Hq) as [->|H]; [done|exact H].
Qed.

(** X19. [find_templates] returns the templates among the files found,
    each once, in strictly increasing order of paths; the result depends
    only on which files were found, not on their order or on how often a
    file was found. *)
Theorem find_templates_sorted_unique (found : list Path) :
  StronglySorted path_lt (find_templates found)
  ∧ (∀ p, p ∈ find_templates found ↔ p ∈ found ∧ is_template p = true)
  ∧ (∀ found', (∀ p, p ∈ found' ↔ p ∈ found) →
               find_templates found' = find_templates found).
Proof.
  split; [|split].
  - apply StronglySorted_strict; [|apply find_templates_NoDup].
    unfold find_templates. apply StronglySorted_merge_sort; apply _.
  - intros p. apply find_templates_elem.
  - intros found' Hsame.
    apply (StronglySorted_unique path_le).
    + unfold find_templates. apply StronglySorted_merge_sort; apply _.
    + unfold find_templates. apply StronglySorted_merge_sort; apply _.
    + apply NoDup_Permutation; try apply find_templates_NoDup.
      intros p. rewrite !find_templates_elem, Hsame. tauto.
Qed.

Module ShopwareRetry.
Import Shopware.

Section Retry.

Variable server : Type.
Variable handle : request → server → response * server.

Local Abbreviation world := (world server).
Local Abbreviation upload_media := (upload_media server handle).

Lemma filter_token_requests l :
  Forall is_token_request l → filter (fun x => is_upload x = true) l = [].
Proof.
  induction 1 as [|x l (a & b & Hx) _ IH]; [done|].
  rewrite filter_cons_False; [done|]. unfold is_upload. by rewrite Hx.
Qed.

Lemma token_request_not_upload l t id e f m s b resp :
  Forall is_token_request l → (ReqUpload t id e f m s b, resp) ∉ l.
Proof.
  intros Hl Hin. rewrite Forall_forall in Hl.
  by destruct (Hl _ Hin) as (? & ? & ?).
Qed.

Ltac chain_after :=
  unfold after in *;
  repeat match goal with
         | H : exchanges _ ?w' = _ |- context [exchanges _ ?w'] =>
             rewrite H; clear H
         end;
  rewrite <- ?app_assoc; simpl; rewrite <- ?app_assoc; reflexivity.

(** Counting the uploads of a list built from token requests and single
    exchanges. *)
Ltac count_uploads :=
  rewrite ?filter_app, ?filter_token_requests by done;
  repeat (rewrite ?filter_token_requests by done;
          first [rewrite filter_cons_True by done
                |rewrite filter_cons_False by (by intros ?)
                |rewrite filter_app]);
  rewrite ?filter_nil, ?filter_token_requests by done;
  simpl; rewrite ?length_app; simpl; lia.

(** X20. One call of [upload_media] uploads at most twice.  An upload
    under a name other than the synthetic name is the retry: it goes to
    the record just created, its name is the synthetic name followed by a
    hyphen and the first eight characters of the new identifier, and it
    follows an upload under the synthetic name that the server answered
    with 400 or 409 and the duplicate-name code. *)
Theorem upload_is_retried_once
    (img : image) (repo_name fresh_id : text) (w w' : world)
    (r : sw_error + text) (new : list (request * response)) :
  upload_media img repo_name fresh_id w = (r, w') →
  after w new w' →
  let ext := media_ext (file_path img) in
  let file_stem := media_file_stem (file_path img) repo_name in
  let mime := default (txt "application/octet-stream") (guessed_mime img) in
  length (filter (fun x => is_upload x = true) new) ≤ 2
  ∧ ∀ t id e f m s b resp,
      (ReqUpload t id e f m s b, resp) ∈ new → f ≠ file_stem →
      id = fresh_id ∧ f = file_stem ++ txt "-" ++ take 8 fresh_id
      ∧ ∃ t' r2,
          (ReqUpload t' fresh_id ext file_stem mime (length (content img))
             (content img), r2) ∈ new
          ∧ is_in (status_code r2) [400; 409] = true
          ∧ contains duplicate_code (resp_text r2) = true.
Proof.
  intros Hrun Hnew ext file_stem mime.
  unfold Shopware.upload_media in Hrun. fold ext file_stem mime in Hrun.
  assert (Hfin : ∀ L, after w L w' →
    length (filter (fun x => is_upload x = true) L) ≤ 2 →
    (∀ t id e f m s b resp,
      (ReqUpload t id e f m s b, resp) ∈ L → f ≠ file_stem →
      id = fresh_id ∧ f = file_stem ++ txt "-" ++ take 8 fresh_id
      ∧ ∃ t' r2,
          (ReqUpload t' fresh_id ext file_stem mime (length (content img))
             (content img), r2) ∈ L
          ∧ is_in (status_code r2) [400; 409] = true
          ∧ contains duplicate_code (resp_text r2) = true) →
    length (filter (fun x => is_upload x = true) new) ≤ 2
    ∧ ∀ t id e f m s b resp,
      (ReqUpload t id e f m s b, resp) ∈ new → f ≠ file_stem →
      id = fresh_id ∧ f = file_stem ++ txt "-" ++ take 8 fresh_id
      ∧ ∃ t' r2,
          (ReqUpload t' fresh_id ext file_stem mime (length (content img))
             (content img), r2) ∈ new
          ∧ is_in (status_code r2) [400; 409] = true
          ∧ contains duplicate_code (resp_text r2) = true).
  { intros L HL H1 H2. by rewrite (ShopwareFacts.after_inj _ _ _ _ _ Hnew HL). }
  clear Hnew.
  case_bool_decide as Hsize.
  { injection Hrun as _ <-. apply (Hfin []); [apply ShopwareFacts.after_nil|simpl; lia|].
    by intros ? ? ? ? ? ? ? ? ?%elem_of_nil. }
  (* the search *)
  apply ShopwareFacts.cbind_inv in Hrun as [(e0 & Hs & _)|(existing & w1 & Hs & Hrun)].
  { unfold Shopware.search_media_by_name in Hs.
    apply ShopwareFacts.cbind_inv in Hs
      as [(e' & (t0 & A0 & F0)%ShopwareFacts.token_inv & _)
         |(tok & w0 & (t0 & A0 & F0)%ShopwareFacts.token_inv & Hs)].
    { apply (Hfin t0); [done|count_uploads|].
      intros ? ? ? ? ? ? ? ? Hin. by apply token_request_not_upload in Hin. }
    apply ShopwareFacts.cbind_inv in Hs
      as [(e' & (? & ? & _)%ShopwareFacts.post_inv & _)
         |(rs & w0' & (? & [= <-] & Ap)%ShopwareFacts.post_inv & Hs)];
      [done|].
    case_bool_decide; [done|]. injection Hs as _ <-.
    apply (Hfin (t0 ++ [(ReqSearchMedia tok file_stem (lower ext), rs)]));
      [chain_after|count_uploads|].
    intros ? ? ? ? ? ? ? ? [Hin|Hin]%elem_of_app;
      [by apply token_request_not_upload in Hin|].
    by apply list_elem_of_singleton in Hin. }
  unfold Shopware.search_media_by_name in Hs.
  apply ShopwareFacts.cbind_inv in Hs
    as [(e' & _ & ?)|(tok & w0 & (t0 & A0 & F0)%ShopwareFacts.token_inv & Hs)];
    [done|].
  apply ShopwareFacts.cbind_inv in Hs
    as [(e' & _ & ?)|(rs & w0' & (? & [= <-] & Ap)%ShopwareFacts.post_inv & Hs)];
    [done|].
  case_bool_decide; [|done]. injection Hs as <- <-.
  set (search := (ReqSearchMedia tok file_stem (lower ext), rs)) in *.
  destruct (truthy (head (data_ids rs))) eqn:Htr.
  - (* a record exists: one upload at most, under the synthetic name *)
    apply ShopwareFacts.cbind_inv in Hrun
      as [(e & (t1 & A2 & F1)%ShopwareFacts.token_inv & _)
         |(tok' & w2 & (t1 & A2 & F1)%ShopwareFacts.token_inv & Hrun)].
    { apply (Hfin (t0 ++ [search] ++ t1)); [chain_after|count_uploads|].
      intros ? ? ? ? ? ? ? ? [Hin|[Hin|Hin]%elem_of_app]%elem_of_app;
        [by apply token_request_not_upload in Hin
        |by apply list_elem_of_singleton in Hin
        |by apply token_request_not_upload in Hin]. }
    apply ShopwareFacts.cbind_inv in Hrun
      as [(e & (? & ? & _)%ShopwareFacts.post_inv & _)
         |(rs' & w3 & (? & [= <-] & Ap')%ShopwareFacts.post_inv & Hrun)];
      [done|].
    assert (w' = w3) as ->
      by (by destruct (is_in (status_code rs') [200; 204]); injection Hrun).
    eapply (Hfin (t0 ++ [search] ++ t1 ++ [_])); [chain_after|count_uploads|].
    intros ? ? ? ? ? ? ? ? [Hin|[Hin|[Hin|Hin]%elem_of_app]%elem_of_app]%elem_of_app;
      [by apply token_request_not_upload in Hin
      |by apply list_elem_of_singleton in Hin
      |by apply token_request_not_upload in Hin|].
    apply list_elem_of_singleton in Hin. by injection Hin as _ _ _ -> _ _ _ _.
  - (* no record: create, upload, and retry once at most *)
    apply ShopwareFacts.cbind_inv in Hrun
      as [(e & (t1 & A2 & F1)%ShopwareFacts.token_inv & _)
         |(tok1 & w2 & (t1 & A2 & F1)%ShopwareFacts.token_inv & Hrun)].
    { apply (Hfin (t0 ++ [search] ++ t1)); [chain_after|count_uploads|].
      intros ? ? ? ? ? ? ? ? [Hin|[Hin|Hin]%elem_of_app]%elem_of_app;
        [by apply token_request_not_upload in Hin
        |by apply list_elem_of_singleton in Hin
        |by apply token_request_not_upload in Hin]. }
    apply ShopwareFacts.cbind_inv in Hrun
      as [(e & (? & ? & _)%ShopwareFacts.post_inv & _)
         |(r1 & w3 & (? & [= <-] & Ap1)%ShopwareFacts.post_inv & Hrun)];
      [done|].
    set (create := (ReqCreateMedia tok1 fresh_id, r1)) in *.
    destruct (negb _).
    { injection Hrun as _ <-.
      apply (Hfin (t0 ++ [search] ++ t1 ++ [create])); [chain_after|count_uploads|].
      intros ? ? ? ? ? ? ? ? [Hin|[Hin|[Hin|Hin]%elem_of_app]%elem_of_app]%elem_of_app;
        [by apply token_request_not_upload in Hin
        |by apply list_elem_of_singleton in Hin
        |by apply token_request_not_upload in Hin
        |by apply list_elem_of_singleton in Hin]. }
    apply ShopwareFacts.cbind_inv in Hrun
      as [(e & (t2 & A4 & F2)%ShopwareFacts.token_inv & _)
         |(tok2 & w4 & (t2 & A4 & F2)%ShopwareFacts.token_inv & Hrun)].
    { apply (Hfin (t0 ++ [search] ++ t1 ++ [create] ++ t2));
        [chain_after|count_uploads|].
      intros ? ? ? ? ? ? ? ?
        [Hin|[Hin|[Hin|[Hin|Hin]%elem_of_app]%elem_of_app]%elem_of_app]%elem_of_app;
        [by apply token_request_not_upload in Hin
        |by apply list_elem_of_singleton in Hin
        |by apply token_request_not_upload in Hin
        |by apply list_elem_of_singleton in Hin
        |by apply token_request_not_upload in Hin]. }
    apply ShopwareFacts.cbind_inv in Hrun
      as [(e & (? & ? & _)%ShopwareFacts.post_inv & _)
         |(r2 & w5 & (? & [= <-] & Ap2)%ShopwareFacts.post_inv & Hrun)];
      [done|].
    set (up := (ReqUpload tok2 fresh_id ext file_stem mime
                  (length (content img)) (content img), r2)) in *.
    assert (Hfirst : ∀ L t id e f m s b resp,
      (ReqUpload t id e f m s b, resp)
        ∈ t0 ++ [search] ++ t1 ++ [create] ++ t2 ++ [up] ++ L →
      f ≠ file_stem → (ReqUpload t id e f m s b, resp) ∈ L).
    { intros L ? ? ? ? ? ? ? ?
        [Hin|[Hin|[Hin|[Hin|[Hin|[Hin|Hin]%elem_of_app]%elem_of_app]%elem_of_app]%elem_of_app]%elem_of_app]%elem_of_app Hf;
        [by apply token_request_not_upload in Hin
        |by apply list_elem_of_singleton in Hin
        |by apply token_request_not_upload in Hin
        |by apply list_elem_of_singleton in Hin
        |by apply token_request_not_upload in Hin
        | |done].
      apply list_elem_of_singleton in Hin. by injection Hin as _ _ _ -> _ _ _ _. }
    destruct (is_in (status_code r2) [200; 204]).
    { injection Hrun as _ <-.
      apply (Hfin (t0 ++ [search] ++ t1 ++ [create] ++ t2 ++ [up] ++ []));
        [chain_after|count_uploads|].
      intros ? ? ? ? ? ? ? ? Hin Hf. by apply Hfirst, elem_of_nil in Hin. }
    destruct (_ && _) eqn:Hdup.
    2:{ injection Hrun as _ <-.
        apply (Hfin (t0 ++ [search] ++ t1 ++ [create] ++ t2 ++ [up] ++ []));
          [chain_after|count_uploads|].
        intros ? ? ? ? ? ? ? ? Hin Hf. by apply Hfirst, elem_of_nil in Hin. }
    apply andb_prop in Hdup as [Hcode Htext].
    assert (Hup : ∀ L, ∃ t' r2',
      (ReqUpload t' fresh_id ext file_stem mime (length (content img))
         (content img), r2')
        ∈ t0 ++ [search] ++ t1 ++ [create] ++ t2 ++ [up] ++ L
      ∧ is_in (status_code r2') [400; 409] = true
      ∧ contains duplicate_code (resp_text r2') = true).
    { intros L. exists tok2, r2. split; [|done].
      rewrite !elem_of_app. do 5 right. left. by apply list_elem_of_singleton. }
    apply ShopwareFacts.cbind_inv in Hrun
      as [(e & (t3 & A6 & F6)%ShopwareFacts.token_inv & _)
         |(tok3 & w6 & (t3 & A6 & F6)%ShopwareFacts.token_inv & Hrun)].
    { apply (Hfin (t0 ++ [search] ++ t1 ++ [create] ++ t2 ++ [up] ++ t3));
        [chain_after|count_uploads|].
      intros ? ? ? ? ? ? ? ? Hin Hf. apply Hfirst in Hin; [|done].
      by apply token_request_not_upload in Hin. }
    apply ShopwareFacts.cbind_inv in Hrun
      as [(e & (? & ? & _)%ShopwareFacts.post_inv & _)
         |(r3 & w7 & (? & [= <-] & Ap3)%ShopwareFacts.post_inv & Hrun)];
      [done|].
    assert (w' = w7) as ->
      by (by destruct (is_in (status_code r3) [200; 204]); injection Hrun).
    eapply (Hfin (t0 ++ [search] ++ t1 ++ [create] ++ t2 ++ [up] ++ t3 ++ [_]));
      [chain_after|count_uploads|].
    intros ? ? ? ? ? ? ? ? Hin Hf. apply Hfirst in Hin; [|done].
    apply elem_of_app in Hin as [Hin|Hin];
      [by apply token_request_not_upload in Hin|].
    apply list_elem_of_singleton in Hin.
    injection Hin as _ -> _ -> _ _ _ _. split; [done|]. split; [done|].
    apply Hup.
Qed.

End Retry.

Lemma upload_retry_witness :
  ∃ w',
    upload_media nat DemoShop.refusing DemoShop.shot (txt "MoorlFoo")
      (txt "ffff0000aaaa") (mkWorld nat (txt "https://shop.example") (txt "id")
                              (txt "secret") None 0 [])
    = (inr (txt "ffff0000aaaa"), w')
    ∧ length (filter (fun x => is_upload x = true) (exchanges nat w')) ≤ 2
    ∧ ∃ t resp,
        (ReqUpload t (txt "ffff0000aaaa") (txt "png")
           (txt "MoorlFoo__shot-ffff0000") (txt "image/png") 9 (txt "new bytes"),
         resp) ∈ exchanges nat w'.
Proof.
  destruct (upload_media nat DemoShop.refusing DemoShop.shot (txt "MoorlFoo")
              (txt "ffff0000aaaa")
              (mkWorld nat (txt "https://shop.example") (txt "id")
                 (txt "secret") None 0 [])) as [r w'] eqn:Hrun.
  assert (Hr : r = inr (txt "ffff0000aaaa")).
  { apply (f_equal fst) in Hrun. simpl in Hrun. rewrite <- Hrun.
    vm_compute. reflexivity. }
  subst r. exists w'. split; [reflexivity|].
  destruct (upload_is_retried_once nat DemoShop.refusing DemoShop.shot (txt "MoorlFoo")
              (txt "ffff0000aaaa") _ w' _ (exchanges nat w') Hrun eq_refl)
    as [Hcount _].
  split; [exact Hcount|].
  apply (f_equal snd) in Hrun. simpl in Hrun. rewrite <- Hrun.
  eexists _, _. vm_compute. do 4 right. left.
Defined.

End ShopwareRetry.

Module ShopwareImages.
Import Shopware.

Section Images.

Variable server : Type.
Variable handle : request → server → response * server.

Local Abbreviation world := (world server).
Local Abbreviation upload_images := (upload_images server handle).

Lemma upload_images_acc images :
  ∀ fresh repo_name acc cover pos (w w' : world) media_ids cover',
    upload_images images fresh repo_name acc cover pos w
      = (inr (media_ids, cover'), w') →
    ∃ new,
      media_ids = acc ++ new
      ∧ new.*2 = seq pos (length new)
      ∧ length new = length (with_file images)
      ∧ cover' = match last_preview new.*1 (with_file images) with
                 | Some mid => Some mid
                 | None => cover
                 end.
Proof.
  induction images as [|img rest IH];
    intros fresh repo_name acc cover pos w w' media_ids cover'; simpl.
  - intros [= <- <- <-]. exists []. by rewrite app_nil_r.
  - unfold with_file. destruct (truthy (entry_file img)) eqn:Hf; simpl.
    + rewrite filter_cons_True by done.
      destruct (entry_image img) as [fp|]; [|done].
      unfold Shopware.cbind at 1.
      destruct (upload_media server handle fp repo_name _ w) as [[e|mid] w1];
        [done|].
      intros H. apply IH in H as (new & -> & Hpos & Hlen & Hcover).
      exists ((mid, pos) :: new). split; [by rewrite <- app_assoc|].
      split; [rewrite fmap_cons, Hpos; simpl; by rewrite Nat.add_1_r|].
      split; [simpl; by rewrite Hlen|].
      rewrite Hcover. unfold last_preview, with_file. simpl.
      destruct (is_preview_for_any_locale img) eqn:Hp.
      * rewrite filter_cons_True by done. rewrite last_cons.
        by destruct (last (filter _ _)).
      * rewrite filter_cons_False by (simpl; congruence). done.
    + rewrite filter_cons_False by congruence. apply IH.
Qed.

(** X21. When the loop over the images succeeds, the uploaded images get
    the positions 1, 2, 3, ... in the order of the manifest, entries
    without a file being passed over without using up a position, and the
    cover is the last uploaded image flagged as preview for some locale
    (none when no image is flagged). *)
Theorem images_get_consecutive_positions
    (images : list image_entry) (fresh : list text) (repo_name : text)
    (w w' : world) (media_ids : list (text * nat)) (cover : option text) :
  upload_images images fresh repo_name [] None 1 w = (inr (media_ids, cover), w') →
  media_ids.*2 = seq 1 (length media_ids)
  ∧ length media_ids = length (with_file images)
  ∧ cover = last_preview media_ids.*1 (with_file images).
Proof.
  intros H. apply upload_images_acc in H as (new & -> & Hpos & Hlen & Hcover).
  simpl. split; [done|]. split; [done|].
  rewrite Hcover. by destruct (last_preview _ _).
Qed.

End Images.

Lemma images_positions_witness :
  ∃ w',
    upload_images (list DemoShop.media) DemoShop.handle
      [mkEntry (Some (txt "img/shot.PNG")) (Some DemoShop.shot) (Some [false; true]);
       mkEntry None None None;
       mkEntry (Some (txt "img/shot.PNG")) (Some DemoShop.shot) (Some [])]
      [txt "f1"; txt "f2"] (txt "MoorlFoo") [] None 1 DemoShop.shop
    = (inr ([(txt "0a1b", 1); (txt "0a1b", 2)], Some (txt "0a1b")), w')
    ∧ [(txt "0a1b", 1); (txt "0a1b", 2)].*2 = seq 1 2.
Proof.
  destruct (upload_images (list DemoShop.media) DemoShop.handle
      [mkEntry (Some (txt "img/shot.PNG")) (Some DemoShop.shot) (Some [false; true]);
       mkEntry None None None;
       mkEntry (Some (txt "img/shot.PNG")) (Some DemoShop.shot) (Some [])]
      [txt "f1"; txt "f2"] (txt "MoorlFoo") [] None 1 DemoShop.shop)
    as [r w'] eqn:Hrun.
  assert (Hr : r = inr ([(txt "0a1b", 1); (txt "0a1b", 2)], Some (txt "0a1b"))).
  { apply (f_equal fst) in Hrun. simpl in Hrun. rewrite <- Hrun.
    vm_compute. reflexivity. }
  subst r. exists w'. split; [reflexivity|].
  by destruct (images_get_consecutive_positions _ _ _ _ _ _ _ _ _ Hrun) as [H _].
Defined.

End ShopwareImages.
